(** * The real-time session gateway of [server/index.js]

    A shallow embedding of the WebSocket gateway: the upgrade gate
    ([server.on('upgrade')]), the connection router
    ([wss.on('connection')]), the chat relay ([handleChatConnection]),
    the shell session manager ([handleShellConnection]) together with
    its output scanner ([shellProcess.onData]), and the projects
    fan-out ([debouncedUpdate]).  Beside the gateway: the path check of
    the file endpoints ([getSafeFilePath]) with the endpoints that read
    and save a file, the file tree ([getFileTree]), the login handler
    and the loader of the environment file.

    JavaScript strings are sequences of UTF-16 code units; the event
    loop is a step function over an explicit gateway state; what the
    file system, the clock and the libraries answer is a parameter of
    the function that asks. *)

From Stdlib Require Import NArith ZArith Ascii String List Lia.
From stdpp Require Import base option list gmap.

Local Open Scope N_scope.

Set Warnings "-register-all,-notation-for-abbreviation".

(** ** JavaScript strings *)

Module JS.

(** A string value: its UTF-16 code units. *)
Definition ustring := list N.

(** The code units of an ASCII literal. *)
Definition units (s : string) : ustring :=
  map N_of_ascii (list_ascii_of_string s).

Definition ESC : N := 27.
Definition BEL : N := 7.
Definition CR : N := 13.
Definition LF : N := 10.

(** [WhiteSpace] and [LineTerminator] of ECMAScript: what [\s] matches. *)
Definition is_space (c : N) : bool :=
  (c =? 9) || (c =? 10) || (c =? 11) || (c =? 12) || (c =? 13) || (c =? 32)
  || (c =? 160) || (c =? 5760) || ((8192 <=? c) && (c <=? 8202))
  || (c =? 8232) || (c =? 8233) || (c =? 8239) || (c =? 8287)
  || (c =? 12288) || (c =? 65279).

(** [Canonicalize] of a code unit under the [i] flag without [u].  An
    ASCII letter is upper-cased.  A code unit above 127 is never
    canonicalized to one below 128, so against the ASCII characters of
    the patterns below leaving it unchanged is exact. *)
Definition canonicalize (c : N) : N :=
  if (97 <=? c) && (c <=? 122) then c - 32 else c.

Definition unit_eqb (icase : bool) (a b : N) : bool :=
  if icase then canonicalize a =? canonicalize b else a =? b.

Fixpoint ustring_eqb (a b : ustring) : bool :=
  match a, b with
  | [], [] => true
  | x :: a', y :: b' => (x =? y) && ustring_eqb a' b'
  | _, _ => false
  end.

(** [s.startsWith(p)] *)
Fixpoint startsWith (p s : ustring) : bool :=
  match p, s with
  | [], _ => true
  | x :: p', y :: s' => (x =? y) && startsWith p' s'
  | _ :: _, [] => false
  end.

(** [s.indexOf(p)]: position of the first occurrence. *)
Fixpoint indexOf (p s : ustring) : option nat :=
  if startsWith p s then Some 0%nat
  else match s with
       | [] => None
       | _ :: s' => S <$> indexOf p s'
       end.

(** [s.includes(p)] *)
Definition includes (p s : ustring) : bool :=
  match indexOf p s with Some _ => true | None => false end.

(** [GetSubstitution] for a string search value: there are no captures,
    so of the dollar forms only [$$], [$&], [$`] and [$'] expand; a
    dollar followed by anything else stands for itself. *)
Fixpoint getSubstitution (matched before after tmpl : ustring) : ustring :=
  match tmpl with
  | [] => []
  | c :: t =>
      if c =? 36 then
        match t with
        | [] => [c]
        | d :: t' =>
            if d =? 36 then 36 :: getSubstitution matched before after t'
            else if d =? 38 then matched ++ getSubstitution matched before after t'
            else if d =? 96 then before ++ getSubstitution matched before after t'
            else if d =? 39 then after ++ getSubstitution matched before after t'
            else c :: getSubstitution matched before after t
        end
      else c :: getSubstitution matched before after t
  end.

(** [s.replace(search, tmpl)] with a string [search]: the first
    occurrence only, the replacement expanded by [getSubstitution]. *)
Definition replace (s search tmpl : ustring) : ustring :=
  match indexOf search s with
  | None => s
  | Some pos =>
      let before := take pos s in
      let after := drop (pos + length search) s in
      before ++ getSubstitution search before after tmpl ++ after
  end.

End JS.

Import JS.

(** ** Regular expressions

    The fragment of the RegExp syntax the scanner's six literals use,
    with the backtracking semantics of ECMAScript: alternatives left to
    right, quantifiers greedy. *)

Module Regex.

Inductive citem :=
  | IChar (c : N)        (* a character, an [\xHH] escape *)
  | ISpace.              (* [\s] *)

Inductive atom :=
  | AChar (c : N)                           (* a literal character *)
  | AClass (neg : bool) (items : list citem). (* [\s], [[...]] or [[^...]] *)

Inductive regex :=
  | Lit (s : ustring)            (* a run of literal characters *)
  | One (a : atom)
  | Opt (a : atom)               (* [a?] *)
  | Star (a : atom)              (* [a*] *)
  | Plus (a : atom)              (* [a+] *)
  | Seq (r1 r2 : regex)
  | Alt (r1 r2 : regex)          (* [r1|r2] *)
  | Group (r : regex).           (* a capturing group [(r)] *)

Definition citem_match (icase : bool) (i : citem) (c : N) : bool :=
  match i with
  | IChar x => unit_eqb icase x c
  | ISpace => is_space c
  end.

Definition atom_match (icase : bool) (a : atom) (c : N) : bool :=
  match a with
  | AChar x => unit_eqb icase x c
  | AClass neg items => xorb neg (existsb (fun i => citem_match icase i c) items)
  end.

Fixpoint lit_match (icase : bool) (l s : ustring) : option ustring :=
  match l, s with
  | [], _ => Some s
  | x :: l', c :: s' => if unit_eqb icase x c then lit_match icase l' s' else None
  | _ :: _, [] => None
  end.

Section Matcher.
Context {A : Type}.
Variable icase : bool.

(** A continuation receives the capture so far and the rest of the
    input. *)
Definition kont := option ustring -> ustring -> option A.

(** [a*] followed by [k]: the longest run first, then shorter ones. *)
Fixpoint star_match (a : atom) (cap : option ustring) (s : ustring) (k : kont)
  : option A :=
  match s with
  | c :: s' =>
      if atom_match icase a c then
        match star_match a cap s' k with
        | Some x => Some x
        | None => k cap s
        end
      else k cap s
  | [] => k cap s
  end.

Fixpoint rmatch (r : regex) (cap : option ustring) (s : ustring) (k : kont)
  : option A :=
  match r with
  | Lit l =>
      match lit_match icase l s with
      | Some s' => k cap s'
      | None => None
      end
  | One a =>
      match s with
      | c :: s' => if atom_match icase a c then k cap s' else None
      | [] => None
      end
  | Opt a =>
      match s with
      | c :: s' =>
          if atom_match icase a c then
            match k cap s' with
            | Some x => Some x
            | None => k cap s
            end
          else k cap s
      | [] => k cap s
      end
  | Star a => star_match a cap s k
  | Plus a =>
      match s with
      | c :: s' => if atom_match icase a c then star_match a cap s' k else None
      | [] => None
      end
  | Seq r1 r2 => rmatch r1 cap s (fun cap' s' => rmatch r2 cap' s' k)
  | Alt r1 r2 =>
      match rmatch r1 cap s k with
      | Some x => Some x
      | None => rmatch r2 cap s k
      end
  | Group r1 =>
      rmatch r1 cap s
        (fun _ s' => k (Some (take (length s - length s') s)) s')
  end.
End Matcher.

(** The least number of code units a match of [r] spans. *)
Fixpoint min_len (r : regex) : nat :=
  match r with
  | Lit l => length l
  | One _ | Plus _ => 1
  | Opt _ | Star _ => 0
  | Seq r1 r2 => min_len r1 + min_len r2
  | Alt r1 r2 => min (min_len r1) (min_len r2)
  | Group r1 => min_len r1
  end.

(** A RegExp object: its [source], its [i] flag and the pattern the
    source denotes.  Every literal of the scanner carries the [g]
    flag. *)
Record RegExp := {
  source : string;
  ignoreCase : bool;
  pattern : regex;
}.

(** The result array of [exec]: [index], [match[0]] and [match[1]]
    ([None] for [undefined]). *)
Record exec_result := {
  index : nat;
  m0 : ustring;
  m1 : option ustring;
}.

(** One attempt of the pattern at the head of [s]: the length of the
    match and the capture. *)
Definition match_here (re : RegExp) (s : ustring) : option (nat * option ustring) :=
  rmatch (ignoreCase re) (pattern re) None s
    (fun cap s' => Some ((length s - length s')%nat, cap)).

(** The loop [while ((match = pattern.exec(data)) !== null)] of a fresh
    global RegExp: [exec] looks for the leftmost match at or after
    [lastIndex] and moves [lastIndex] to its end.  [pos] is the position
    of [s] in the data and [skip] the number of code units before
    [lastIndex]. *)
Fixpoint exec_loop (re : RegExp) (pos skip : nat) (s : ustring) : list exec_result :=
  match s with
  | [] =>
      match skip with
      | O =>
          match match_here re [] with
          | Some (n, cap) => [{| index := pos; m0 := []; m1 := cap |}]
          | None => []
          end
      | S _ => []
      end
  | _ :: s' =>
      match skip with
      | S k => exec_loop re (S pos) k s'
      | O =>
          match match_here re s with
          | Some (n, cap) =>
              {| index := pos; m0 := take n s; m1 := cap |}
                :: exec_loop re (S pos) (n - 1) s'
          | None => exec_loop re (S pos) 0 s'
          end
      end
  end.

Definition exec_all (re : RegExp) (data : ustring) : list exec_result :=
  exec_loop re 0 0 data.

End Regex.

Import Regex.

(** ** Messages of the two protocols *)

Module Protocol.

(** What [JSON.parse] returns.  The numbers the protocol carries
    (terminal geometry, exit codes) are integers. *)
Inductive json :=
  | JNull
  | JBool (b : bool)
  | JNum (z : Z)
  | JStr (s : ustring)
  | JArr (l : list json)
  | JObj (fields : list (ustring * json)).

(** A JavaScript value read from a message: [None] is [undefined]. *)
Definition jsval := option json.

Definition truthy (v : jsval) : bool :=
  match v with
  | None | Some JNull => false
  | Some (JBool b) => b
  | Some (JNum z) => negb (z =? 0)%Z
  | Some (JStr s) => match s with [] => false | _ => true end
  | Some (JArr _) | Some (JObj _) => true
  end.

Fixpoint assoc (k : ustring) (fs : list (ustring * json)) : jsval :=
  match fs with
  | [] => None
  | (k', v) :: fs' => if ustring_eqb k k' then Some v else assoc k fs'
  end.

(** [data.k] for a value that is not [null]; none of the keys the
    handlers read exists on a string, a number, a boolean or an
    array. *)
Definition prop (data : json) (k : string) : jsval :=
  match data with
  | JObj fs => assoc (units k) fs
  | _ => None
  end.

(** [v === 'lit'] *)
Definition is_str (v : jsval) (lit : string) : bool :=
  match v with
  | Some (JStr s) => ustring_eqb s (units lit)
  | _ => false
  end.

(** The frames the server writes to a Connection, before
    [JSON.stringify]. *)
Inductive server_msg :=
  | MOutput (data : ustring)                       (* type 'output' *)
  | MUrlOpen (url : option ustring)                (* type 'url_open' *)
  | MSessionAborted (sessionId : jsval) (success : bool) (* type 'session-aborted' *)
  | MError (error : ustring)                       (* type 'error' *)
  | MProjectsUpdated (projects : json) (timestamp changeType changedFile : ustring)
                                                   (* type 'projects_updated' *)
  | MRelay (frame : ustring).                      (* written by spawnClaude *)

End Protocol.

Import Protocol.

(** ** The output scanner of the shell session *)

Module Scanner.

(** [\s] and [[^\s\x1b\x07]] *)
Definition space : atom := AClass false [ISpace].
Definition url_char : atom := AClass true [ISpace; IChar ESC; IChar BEL].

(** [(https?:\/\/[^\s\x1b\x07]+)] *)
Definition url_group : regex :=
  Group (Seq (Lit (units "http"))
        (Seq (Opt (AChar 115))
        (Seq (Lit (units "://")) (Plus url_char)))).

(** [/(?:xdg-open|open|start)\s+(https?:\/\/[^\s\x1b\x07]+)/g] *)
Definition re_command : RegExp := {|
  source := "(?:xdg-open|open|start)\s+(https?:\/\/[^\s\x1b\x07]+)";
  ignoreCase := false;
  pattern :=
    Seq (Alt (Lit (units "xdg-open")) (Alt (Lit (units "open")) (Lit (units "start"))))
        (Seq (Plus space) url_group);
|}.

(** [/OPEN_URL:\s*(https?:\/\/[^\s\x1b\x07]+)/g] *)
Definition re_open_url : RegExp := {|
  source := "OPEN_URL:\s*(https?:\/\/[^\s\x1b\x07]+)";
  ignoreCase := false;
  pattern := Seq (Lit (units "OPEN_URL:")) (Seq (Star space) url_group);
|}.

(** [/Opening\s+(https?:\/\/[^\s\x1b\x07]+)/gi] *)
Definition re_opening : RegExp := {|
  source := "Opening\s+(https?:\/\/[^\s\x1b\x07]+)";
  ignoreCase := true;
  pattern := Seq (Lit (units "Opening")) (Seq (Plus space) url_group);
|}.

(** [/Visit:\s*(https?:\/\/[^\s\x1b\x07]+)/gi] *)
Definition re_visit : RegExp := {|
  source := "Visit:\s*(https?:\/\/[^\s\x1b\x07]+)";
  ignoreCase := true;
  pattern := Seq (Lit (units "Visit:")) (Seq (Star space) url_group);
|}.

(** [/View at:\s*(https?:\/\/[^\s\x1b\x07]+)/gi] *)
Definition re_view_at : RegExp := {|
  source := "View at:\s*(https?:\/\/[^\s\x1b\x07]+)";
  ignoreCase := true;
  pattern := Seq (Lit (units "View at:")) (Seq (Star space) url_group);
|}.

(** [/Browse to:\s*(https?:\/\/[^\s\x1b\x07]+)/gi] *)
Definition re_browse_to : RegExp := {|
  source := "Browse to:\s*(https?:\/\/[^\s\x1b\x07]+)";
  ignoreCase := true;
  pattern := Seq (Lit (units "Browse to:")) (Seq (Star space) url_group);
|}.

(** The array [patterns], in its order. *)
Definition patterns : list RegExp :=
  [re_command; re_open_url; re_opening; re_visit; re_view_at; re_browse_to].

(** [pattern.source.includes('OPEN_URL')] *)
Definition is_sentinel (re : RegExp) : bool :=
  includes (units "OPEN_URL") (units (source re)).

(** The interpolation [${url}] of a template literal. *)
Definition interpolate (v : option ustring) : ustring :=
  match v with
  | Some s => s
  | None => units "undefined"
  end.

(** The template [`🌐 Opening in browser: ${url}`]; the globe is the
    surrogate pair D83C DF10. *)
Definition confirmation (url : option ustring) : ustring :=
  [55356; 57104] ++ units " Opening in browser: " ++ interpolate url.

(** What one run of the callback has sent so far and the current
    [outputData]. *)
Record scan_state := {
  sent : list server_msg;
  outputData : ustring;
}.

(** The body of the [while] loop for one match. *)
Definition scan_match (re : RegExp) (st : scan_state) (m : exec_result) : scan_state :=
  let url := m1 m in
  {| sent := sent st ++ [MUrlOpen url];
     outputData :=
       if is_sentinel re
       then replace (outputData st) (m0 m) (confirmation url)
       else outputData st |}.

(** The body of [patterns.forEach] for one pattern. *)
Definition scan_pattern (data : ustring) (st : scan_state) (re : RegExp) : scan_state :=
  fold_left (scan_match re) (exec_all re data) st.

(** The scan of one chunk. *)
Definition scan (data : ustring) : scan_state :=
  fold_left (scan_pattern data) patterns {| sent := []; outputData := data |}.

(** The occurrences of the six patterns in a chunk, pattern by
    pattern. *)
Definition occurrences (data : ustring) : list (list exec_result) :=
  map (fun re => exec_all re data) patterns.

(** The frames the callback writes for one chunk while the Connection
    is open: the [url_open] events, then the output. *)
Definition onData_frames (data : ustring) : list server_msg :=
  let st := scan data in
  sent st ++ [MOutput (outputData st)].

(** The sentinel line of the spec's example and its URL. *)
Definition example_url : ustring := units "http://example.com/x".
Definition example_sentinel : ustring := units "OPEN_URL:" ++ example_url.

End Scanner.

Import Scanner.

(** ** The gateway state *)

Module Gateway.

Local Close Scope N_scope.
Local Open Scope nat_scope.

(** [ws.readyState] *)
Inductive readyState := CONNECTING | OPEN | CLOSING | CLOSED.

Definition is_open (r : readyState) : bool :=
  match r with OPEN => true | _ => false end.

(** Which of the two handlers the router attached. *)
Inductive kind := Shell | Chat.

(** A WebSocket object: the path it was requested with, its
    [readyState] and the handler the router attached to it. *)
Record conn := {
  url : ustring;
  ready : readyState;
  handler : option kind;
}.

(** A pty process: the Connection whose handler spawned it, its command
    line, and what the gateway did to it. *)
Record proc := {
  owner : nat;
  command : ustring;
  exited : bool;
  kills : nat;                       (* calls of [kill()] *)
  stdin : list jsval;                (* arguments of the calls of [write] *)
  resizes : list (jsval * jsval);    (* arguments of the calls of [resize] *)
}.

(** The raw socket of an upgrade request. *)
Record raw_socket := {
  written : list ustring;            (* [socket.write] by the gate *)
  destroyed : bool;                  (* [socket.destroy()] *)
  upgraded : option nat;             (* the Connection of a completed handshake *)
}.

Inductive level := LLog | LWarn | LError.

(** The server: its console, the raw sockets of the upgrade requests,
    the WebSocket objects, the Set [connectedClients], the variable
    [shellProcess] of each shell handler (no entry is [null]), the
    frames delivered to each client, and the pty processes. *)
Record state := {
  console : list (level * string);
  sockets : list raw_socket;
  conns : gmap nat conn;
  next_conn : nat;
  connectedClients : list nat;       (* in insertion order *)
  shellProcess : gmap nat nat;
  delivered : gmap nat (list server_msg);
  procs : gmap nat proc;
  next_pid : nat;
}.

Definition initial : state := {|
  console := [];
  sockets := [];
  conns := ∅;
  next_conn := 0;
  connectedClients := [];
  shellProcess := ∅;
  delivered := ∅;
  procs := ∅;
  next_pid := 0;
|}.

(** The frames [c]'s client has received. *)
Definition outbox (st : state) (c : nat) : list server_msg :=
  default [] (delivered st !! c).

(** *** Field updates *)

Definition set_ready (r : readyState) (w : conn) : conn :=
  {| url := url w; ready := r; handler := handler w |}.

Definition set_handler (k : kind) (w : conn) : conn :=
  {| url := url w; ready := ready w; handler := Some k |}.

Definition do_kill (p : proc) : proc :=
  {| owner := owner p; command := command p; exited := exited p;
     kills := S (kills p); stdin := stdin p; resizes := resizes p |}.

Definition do_write (v : jsval) (p : proc) : proc :=
  {| owner := owner p; command := command p; exited := exited p;
     kills := kills p; stdin := stdin p ++ [v]; resizes := resizes p |}.

Definition do_resize (cols rows : jsval) (p : proc) : proc :=
  {| owner := owner p; command := command p; exited := exited p;
     kills := kills p; stdin := stdin p; resizes := resizes p ++ [(cols, rows)] |}.

Definition do_exit (p : proc) : proc :=
  {| owner := owner p; command := command p; exited := true;
     kills := kills p; stdin := stdin p; resizes := resizes p |}.

Definition log (l : level) (text : string) (st : state) : state :=
  {| console := console st ++ [(l, text)]; sockets := sockets st;
     conns := conns st; next_conn := next_conn st;
     connectedClients := connectedClients st;
     shellProcess := shellProcess st; delivered := delivered st;
     procs := procs st; next_pid := next_pid st |}.

Definition add_socket (s : raw_socket) (st : state) : state :=
  {| console := console st; sockets := sockets st ++ [s];
     conns := conns st; next_conn := next_conn st;
     connectedClients := connectedClients st;
     shellProcess := shellProcess st; delivered := delivered st;
     procs := procs st; next_pid := next_pid st |}.

Definition upd_conn (c : nat) (f : conn -> conn) (st : state) : state :=
  {| console := console st; sockets := sockets st;
     conns := alter f c (conns st); next_conn := next_conn st;
     connectedClients := connectedClients st;
     shellProcess := shellProcess st; delivered := delivered st;
     procs := procs st; next_pid := next_pid st |}.

(** A new WebSocket object, open, with no listener yet. *)
Definition new_conn (u : ustring) (st : state) : state :=
  {| console := console st; sockets := sockets st;
     conns := <[next_conn st := {| url := u; ready := OPEN; handler := None |}]>
                (conns st);
     next_conn := S (next_conn st);
     connectedClients := connectedClients st;
     shellProcess := shellProcess st; delivered := delivered st;
     procs := procs st; next_pid := next_pid st |}.

Definition set_clients (l : list nat) (st : state) : state :=
  {| console := console st; sockets := sockets st;
     conns := conns st; next_conn := next_conn st;
     connectedClients := l;
     shellProcess := shellProcess st; delivered := delivered st;
     procs := procs st; next_pid := next_pid st |}.

(** [shellProcess = v] in the handler of [c]. *)
Definition set_shellProcess (c : nat) (v : option nat) (st : state) : state :=
  {| console := console st; sockets := sockets st;
     conns := conns st; next_conn := next_conn st;
     connectedClients := connectedClients st;
     shellProcess := match v with
                     | Some p => <[c := p]> (shellProcess st)
                     | None => delete c (shellProcess st)
                     end;
     delivered := delivered st;
     procs := procs st; next_pid := next_pid st |}.

Definition deliver (c : nat) (m : server_msg) (st : state) : state :=
  {| console := console st; sockets := sockets st;
     conns := conns st; next_conn := next_conn st;
     connectedClients := connectedClients st;
     shellProcess := shellProcess st;
     delivered := <[c := outbox st c ++ [m]]> (delivered st);
     procs := procs st; next_pid := next_pid st |}.

Definition upd_proc (p : nat) (f : proc -> proc) (st : state) : state :=
  {| console := console st; sockets := sockets st;
     conns := conns st; next_conn := next_conn st;
     connectedClients := connectedClients st;
     shellProcess := shellProcess st; delivered := delivered st;
     procs := alter f p (procs st); next_pid := next_pid st |}.

(** A new pty process spawned by the handler of [c]. *)
Definition new_proc (c : nat) (cmd : ustring) (st : state) : state :=
  {| console := console st; sockets := sockets st;
     conns := conns st; next_conn := next_conn st;
     connectedClients := connectedClients st;
     shellProcess := shellProcess st; delivered := delivered st;
     procs := <[next_pid st := {| owner := c; command := cmd; exited := false;
                                  kills := 0; stdin := []; resizes := [] |}]> (procs st);
     next_pid := S (next_pid st) |}.

(** [ws.readyState === ws.OPEN] *)
Definition ws_open (c : nat) (st : state) : bool :=
  match conns st !! c with
  | Some w => is_open (ready w)
  | None => false
  end.

(** [ws.send(JSON.stringify(m))]: the frame reaches the client when the
    socket is open; on a closing or closed socket the library drops
    it. *)
Definition ws_send (c : nat) (m : server_msg) (st : state) : state :=
  if ws_open c st then deliver c m st else st.

(** [connectedClients.add(ws)] and [connectedClients.delete(ws)] *)
Definition set_add (c : nat) (l : list nat) : list nat :=
  if decide (c ∈ l) then l else l ++ [c].

Definition set_delete (c : nat) (l : list nat) : list nat :=
  filter (λ x, x ≠ c) l.

(** The part of the state that describes the network side, and the
    part that describes the pty side. *)
Definition net (st : state) : list raw_socket * gmap nat conn * nat * list nat :=
  (sockets st, conns st, next_conn st, connectedClients st).

Definition pty (st : state) : gmap nat nat * gmap nat proc * nat :=
  (shellProcess st, procs st, next_pid st).

(** *** The environment of one event *)

(** What the collaborators do during one inbound message: whether
    [pty.spawn], [shellProcess.write] or [shellProcess.resize] throws
    (and with which message), and the result of [abortClaudeSession].
    What [spawnClaude] does is not part of it: the handler awaits it,
    so its frames and its end are events of their own, between which
    anything else can happen. *)
Record oracle := {
  spawn_error : option ustring;
  write_error : option ustring;
  resize_error : option ustring;
  abort_result : bool;
}.

(** An upgrade request after the session middleware ran:
    [request.session.isAuthenticated] and [request.url].  The request is
    a well-formed WebSocket upgrade, so [wss.handleUpgrade] completes the
    handshake when it is called. *)
Record request := {
  isAuthenticated : jsval;
  req_url : ustring;
}.

Inductive event :=
  | EvUpgrade (req : request)                       (* server 'upgrade' *)
  | EvMessage (c : nat) (message : ustring) (o : oracle) (* ws 'message' *)
  | EvClosing (c : nat)            (* the closing handshake of [c] starts *)
  | EvError (c : nat)                               (* ws 'error' *)
  | EvClose (c : nat)                               (* ws 'close' *)
  | EvProcData (p : nat) (data : ustring)           (* pty data *)
  | EvProcExit (p : nat) (exitCode : Z) (signal : option Z) (* pty exit *)
  | EvProjectsChanged (eventType changedFile timestamp : ustring)
                      (projects : ustring + json)
      (* the debounce timer fires; [projects] is what [getProjects()]
         resolves to, or the message it rejects with *)
  | EvRelay (c : nat) (frame : ustring)
      (* [spawnClaude], awaited by the chat handler of [c], writes a
         frame to the socket *)
  | EvRelayFailed (c : nat) (e : ustring).
      (* the awaited [spawnClaude] rejects with the message [e] *)

Section Handlers.

(** [JSON.parse]: the value, or the message of the [SyntaxError]. *)
Variable JSON_parse : ustring -> ustring + json.
(** The string conversion of a template literal's [${...}], for the
    values that have one.  A value without one (an object of the
    message whose own [toString] and [valueOf] are not functions) makes
    the template literal of the init branch throw before anything is
    sent or spawned; such an init is left out. *)
Variable ToString : jsval -> ustring.
(** [process.cwd()] *)
Variable cwd : ustring.

(** The message of the [TypeError] of [data.type] on [null]. *)
Definition null_type_error : ustring :=
  units "Cannot read properties of null (reading 'type')".

(** [`\r\n\x1b[31mError: ${message}\x1b[0m\r\n`] *)
Definition error_banner (message : ustring) : ustring :=
  [CR; LF; ESC] ++ units "[31mError: " ++ message ++ [ESC] ++ units "[0m" ++ [CR; LF].

Definition welcome_banner (hasSession sessionId projectPath : jsval) : ustring :=
  if truthy hasSession
  then [ESC] ++ units "[36mResuming Claude session " ++ ToString sessionId
       ++ units " in: " ++ ToString projectPath ++ [ESC] ++ units "[0m" ++ [CR; LF]
  else [ESC] ++ units "[36mStarting new Claude session in: "
       ++ ToString projectPath ++ [ESC] ++ units "[0m" ++ [CR; LF].

Definition exit_banner (exitCode : Z) (signal : option Z) : ustring :=
  [CR; LF; ESC] ++ units "[33mProcess exited with code "
    ++ ToString (Some (JNum exitCode))
    ++ (if truthy (JNum <$> signal)
        then units " (" ++ ToString (JNum <$> signal) ++ units ")"
        else [])
    ++ [ESC] ++ units "[0m" ++ [CR; LF].

Definition shell_command (hasSession sessionId projectPath : jsval) : ustring :=
  let claudeCommand :=
    if truthy hasSession && truthy sessionId
    then units "claude --resume " ++ ToString sessionId ++ units " || claude"
    else units "claude" in
  units "cd " ++ [34%N] ++ ToString projectPath ++ [34%N] ++ units " && " ++ claudeCommand.

(** *** Upgrade gate and router *)

(** [handleShellConnection(ws)]: [let shellProcess = null] and the
    listeners. *)
Definition handleShellConnection (c : nat) (st : state) : state :=
  let st := log LLog "Shell client connected" st in
  let st := set_shellProcess c None st in
  upd_conn c (set_handler Shell) st.

(** [handleChatConnection(ws)] *)
Definition handleChatConnection (c : nat) (st : state) : state :=
  let st := log LLog "Chat WebSocket connected" st in
  let st := set_clients (set_add c (connectedClients st)) st in
  upd_conn c (set_handler Chat) st.

(** [wss.on('connection', (ws, request) => ...)] *)
Definition on_connection (c : nat) (u : ustring) (st : state) : state :=
  let st := log LLog "Authenticated client connected to:" st in
  if startsWith (units "/shell") u then handleShellConnection c st
  else if startsWith (units "/ws") u then handleChatConnection c st
  else
    let st := log LLog "Unknown WebSocket path:" st in
    upd_conn c (set_ready CLOSING) st.            (* ws.close() *)

Definition unauthorized : ustring :=
  units "HTTP/1.1 401 Unauthorized" ++ [CR; LF; CR; LF].

(** The raw socket of a rejected upgrade: the status line written,
    the socket destroyed, no handshake. *)
Definition rejected : raw_socket :=
  {| written := [unauthorized]; destroyed := true; upgraded := None |}.

(** [server.on('upgrade', ...)] *)
Definition upgrade (req : request) (st : state) : state :=
  if negb (truthy (isAuthenticated req)) then
    let st := log LLog "Unauthorized WebSocket upgrade attempt." st in
    add_socket rejected st
  else
    let c := next_conn st in
    let st := add_socket {| written := []; destroyed := false; upgraded := Some c |} st in
    let st := new_conn (req_url req) st in
    on_connection c (req_url req) st.

(** *** Chat relay *)

Definition chat_catch (c : nat) (message : ustring) (st : state) : state :=
  let st := log LError "Chat WebSocket error:" st in
  ws_send c (MError message) st.

(** The [message] listener of a chat Connection. *)
Definition handleChatMessage (c : nat) (message : ustring) (o : oracle)
    (st : state) : state :=
  match JSON_parse message with
  | inl e => chat_catch c e st
  | inr JNull => chat_catch c null_type_error st
  | inr data =>
      if is_str (prop data "type") "claude-command" then
        let st := log LLog "User message:" st in
        let st := log LLog "Project:" st in
        let st := log LLog "Session:" st in
        (* await spawnClaude(data.command, data.options, ws): the
           listener stops here; see [relay] and [relay_failed] *)
        st
      else if is_str (prop data "type") "abort-session" then
        let st := log LLog "Abort session request:" st in
        ws_send c (MSessionAborted (prop data "sessionId") (abort_result o)) st
      else st
  end.

(** [spawnClaude], called by the chat handler of [c], writes a frame to
    the socket it was given. *)
Definition relay (c : nat) (frame : ustring) (st : state) : state :=
  ws_send c (MRelay frame) st.

(** The awaited [spawnClaude] rejects: the listener of [c] goes on in
    its [catch]. *)
Definition relay_failed (c : nat) (e : ustring) (st : state) : state :=
  chat_catch c e st.

(** The [close] listener of a chat Connection. *)
Definition handleChatClose (c : nat) (st : state) : state :=
  let st := log LLog "Chat client disconnected" st in
  set_clients (set_delete c (connectedClients st)) st.

(** *** Shell session manager *)

(** [shellProcess.onData((data) => ...)] of a process spawned for
    [c]. *)
Definition onData (c : nat) (data : ustring) (st : state) : state :=
  if ws_open c st
  then fold_left (fun st m => ws_send c m st) (onData_frames data) st
  else st.

(** [shellProcess.onExit((exitCode) => ...)] of a process spawned for
    [c]. *)
Definition onExit (c : nat) (exitCode : Z) (signal : option Z) (st : state) : state :=
  let st := log LLog "Shell process exited with code:" st in
  let st := if ws_open c st
            then ws_send c (MOutput (exit_banner exitCode signal)) st
            else st in
  set_shellProcess c None st.

Definition shell_catch (c : nat) (message : ustring) (st : state) : state :=
  let st := log LError "Shell WebSocket error:" st in
  if ws_open c st
  then ws_send c (MOutput (error_banner message)) st
  else st.

Definition shell_init (c : nat) (data : json) (o : oracle) (st : state) : state :=
  let projectPath :=
    if truthy (prop data "projectPath") then prop data "projectPath"
    else Some (JStr cwd) in
  let sessionId := prop data "sessionId" in
  let hasSession := prop data "hasSession" in
  let st := log LLog "Starting shell in:" st in
  let st := log LLog "Session info:" st in
  let st := ws_send c (MOutput (welcome_banner hasSession sessionId projectPath)) st in
  let st := log LLog "Executing shell command:" st in
  match spawn_error o with
  | Some e =>
      let st := log LError "Error spawning process:" st in
      ws_send c (MOutput (error_banner e)) st
  | None =>
      let pid := next_pid st in
      let st := new_proc c (shell_command hasSession sessionId projectPath) st in
      let st := set_shellProcess c (Some pid) st in
      log LLog "Shell process started with PTY, PID:" st
  end.

Definition shell_input (c : nat) (data : json) (o : oracle) (st : state) : state :=
  match shellProcess st !! c with
  | Some pid =>
      match write_error o with
      | None => upd_proc pid (do_write (prop data "data")) st
      | Some _ => log LError "Error writing to shell:" st
      end
  | None => log LWarn "No active shell process to send input to" st
  end.

Definition shell_resize (c : nat) (data : json) (o : oracle) (st : state) : state :=
  match shellProcess st !! c with
  | Some pid =>
      let st := log LLog "Terminal resize requested:" st in
      match resize_error o with
      | None => upd_proc pid (do_resize (prop data "cols") (prop data "rows")) st
      | Some e => shell_catch c e st
      end
  | None => st
  end.

(** The [message] listener of a shell Connection. *)
Definition handleShellMessage (c : nat) (message : ustring) (o : oracle)
    (st : state) : state :=
  match JSON_parse message with
  | inl e => shell_catch c e st
  | inr JNull => shell_catch c null_type_error st
  | inr data =>
      let st := log LLog "Shell message received:" st in
      if is_str (prop data "type") "init" then shell_init c data o st
      else if is_str (prop data "type") "input" then shell_input c data o st
      else if is_str (prop data "type") "resize" then shell_resize c data o st
      else st
  end.

(** The [close] listener of a shell Connection. *)
Definition handleShellClose (c : nat) (st : state) : state :=
  let st := log LLog "Shell client disconnected" st in
  match shellProcess st !! c with
  | Some pid =>
      let st := log LLog "Killing shell process:" st in
      upd_proc pid do_kill st
  | None => st
  end.

(** The [error] listener of a shell Connection. *)
Definition handleShellError (c : nat) (st : state) : state :=
  log LError "Shell WebSocket error:" st.

(** *** Notification fan-out *)

(** The timer callback of [debouncedUpdate]. *)
Definition debouncedUpdate (eventType changedFile timestamp : ustring)
    (projects : ustring + json) (st : state) : state :=
  match projects with
  | inl _ => log LError "Error handling project changes:" st
  | inr updatedProjects =>
      let updateMessage :=
        MProjectsUpdated updatedProjects timestamp eventType changedFile in
      fold_left
        (fun st client =>
           if ws_open client st then ws_send client updateMessage st else st)
        (connectedClients st) st
  end.

(** *** The event loop *)

Definition is_closed (r : readyState) : bool :=
  match r with CLOSED => true | _ => false end.

(** One event.  The library emits nothing on a Connection after its
    [close], emits [close] once, and a process reports nothing after
    its exit.  [spawnClaude] is called with the socket of a chat
    Connection only, and may go on after the Connection has closed;
    what it writes then is dropped.  The chat handler and the router's
    default branch register no [error] listener: in the source an
    [error] event there is an uncaught exception that ends the server,
    after which there is no gateway to speak of; here it leaves the
    state as it is. *)
Definition step (ev : event) (st : state) : state :=
  match ev with
  | EvUpgrade req => upgrade req st
  | EvMessage c message o =>
      match conns st !! c with
      | Some w =>
          if is_closed (ready w) then st
          else match handler w with
               | Some Shell => handleShellMessage c message o st
               | Some Chat => handleChatMessage c message o st
               | None => st
               end
      | None => st
      end
  | EvClosing c =>
      upd_conn c (fun w => if is_open (ready w) then set_ready CLOSING w else w) st
  | EvError c =>
      match conns st !! c with
      | Some w =>
          if is_closed (ready w) then st
          else match handler w with
               | Some Shell => handleShellError c (upd_conn c (set_ready CLOSING) st)
               | _ => st
               end
      | None => st
      end
  | EvClose c =>
      match conns st !! c with
      | Some w =>
          if is_closed (ready w) then st
          else
            let st := upd_conn c (set_ready CLOSED) st in
            match handler w with
            | Some Shell => handleShellClose c st
            | Some Chat => handleChatClose c st
            | None => st
            end
      | None => st
      end
  | EvProcData p data =>
      match procs st !! p with
      | Some pr => if exited pr then st else onData (owner pr) data st
      | None => st
      end
  | EvProcExit p exitCode signal =>
      match procs st !! p with
      | Some pr =>
          if exited pr then st
          else onExit (owner pr) exitCode signal (upd_proc p do_exit st)
      | None => st
      end
  | EvProjectsChanged eventType changedFile timestamp projects =>
      debouncedUpdate eventType changedFile timestamp projects st
  | EvRelay c frame =>
      match conns st !! c with
      | Some w =>
          match handler w with
          | Some Chat => relay c frame st
          | _ => st
          end
      | None => st
      end
  | EvRelayFailed c e =>
      match conns st !! c with
      | Some w =>
          match handler w with
          | Some Chat => relay_failed c e st
          | _ => st
          end
      | None => st
      end
  end.

Definition run (evs : list event) (st : state) : state :=
  fold_left (fun st ev => step ev st) evs st.

End Handlers.

End Gateway.

Import Gateway.

(** ** A concrete environment for the examples *)

Module Sample.

Import Gateway.

(** A string literal of a JSON text. *)
Definition quoted (s : string) : ustring := [34%N] ++ units s ++ [34%N].

(** [{"type":"init","projectPath":"/srv/app"}] *)
Definition frame_init : ustring :=
  units "{" ++ quoted "type" ++ units ":" ++ quoted "init" ++ units ","
    ++ quoted "projectPath" ++ units ":" ++ quoted "/srv/app" ++ units "}".

(** [{"type":"input","data":"ls"}] *)
Definition frame_input : ustring :=
  units "{" ++ quoted "type" ++ units ":" ++ quoted "input" ++ units ","
    ++ quoted "data" ++ units ":" ++ quoted "ls" ++ units "}".

(** [{"type":"init"] with the closing brace missing. *)
Definition frame_truncated : ustring :=
  units "{" ++ quoted "type" ++ units ":" ++ quoted "init".

(** [JSON.parse] on the frames above; every other text is taken here
    for malformed, so the examples use these frames only. *)
Definition parse (s : ustring) : ustring + json :=
  if ustring_eqb s frame_init then
    inr (JObj [(units "type", JStr (units "init"));
               (units "projectPath", JStr (units "/srv/app"))])
  else if ustring_eqb s frame_input then
    inr (JObj [(units "type", JStr (units "input"));
               (units "data", JStr (units "ls"))])
  else inl (units "Unexpected end of JSON input").

(** Decimal digits of a number below [10^20]. *)
Fixpoint digits (fuel : nat) (n : N) (acc : ustring) : ustring :=
  match fuel with
  | O => acc
  | S f =>
      let acc' := (48 + n mod 10)%N :: acc in
      if (n / 10 =? 0)%N then acc' else digits f (n / 10)%N acc'
  end.

(** The string conversion on the values the examples interpolate:
    strings, [undefined], [null], booleans and small integers. *)
Definition to_string (v : jsval) : ustring :=
  match v with
  | None => units "undefined"
  | Some JNull => units "null"
  | Some (JBool true) => units "true"
  | Some (JBool false) => units "false"
  | Some (JNum z) =>
      (if (z <? 0)%Z then [45%N] else []) ++ digits 20 (Z.abs_N z) []
  | Some (JStr s) => s
  | Some (JArr _) => []
  | Some (JObj _) => units "[object Object]"
  end.

Definition cwd : ustring := units "/srv".

Definition step := Gateway.step parse to_string cwd.
Definition run := Gateway.run parse to_string cwd.

(** Nothing throws. *)
Definition quiet : oracle := {|
  spawn_error := None; write_error := None; resize_error := None;
  abort_result := false;
|}.

(** [shellProcess.write] throws. *)
Definition broken_pipe : oracle := {|
  spawn_error := None; write_error := Some (units "EIO"); resize_error := None;
  abort_result := false;
|}.

Definition authenticated (path : string) : request :=
  {| isAuthenticated := Some (JBool true); req_url := units path |}.

Definition anonymous (path : string) : request :=
  {| isAuthenticated := None; req_url := units path |}.

(** A shell Connection, number 0, before and after its init. *)
Definition shell_opened : state :=
  run [EvUpgrade (authenticated "/shell")] initial.

Definition shell_running : state :=
  run [EvUpgrade (authenticated "/shell"); EvMessage 0 frame_init quiet] initial.

(** Two chat Connections, the second one closing. *)
Definition two_chats : state :=
  run [EvUpgrade (authenticated "/ws"); EvUpgrade (authenticated "/ws");
       EvClosing 1] initial.

(** The process of [shell_running]. *)
Definition first_process : proc :=
  {| owner := 0; command := units "cd " ++ quoted "/srv/app" ++ units " && claude";
     exited := false; kills := 0; stdin := []; resizes := [] |}.

Definition sample_projects : json := JArr [].

End Sample.

(** ** What one event can do to the state *)

Module Effects.

Local Close Scope N_scope.
Local Open Scope nat_scope.

(** The router's choice for a path. *)
Definition route (u : ustring) : option kind :=
  if startsWith (units "/shell") u then Some Shell
  else if startsWith (units "/ws") u then Some Chat
  else None.

(** The WebSocket object the router leaves behind for a path: open with
    its handler, or closing with none. *)
Definition routed (u : ustring) : conn :=
  {| url := u;
     ready := match route u with Some _ => OPEN | None => CLOSING end;
     handler := route u |}.

(** The changes one event can make to the network side. *)
Inductive net_effect (st st' : state) : Prop :=
  | NSame :
      net st' = net st -> net_effect st st'
  | NReject :
      net st' = net (add_socket rejected st) -> net_effect st st'
  | NAccept (u : ustring) :
      conns st' = <[next_conn st := routed u]> (conns st) ->
      next_conn st' = S (next_conn st) ->
      connectedClients st' =
        match route u with
        | Some Chat => set_add (next_conn st) (connectedClients st)
        | _ => connectedClients st
        end ->
      net_effect st st'
  | NReady (c : nat) (w : conn) (r : readyState) :
      conns st !! c = Some w ->
      is_closed (ready w) = false ->
      is_closed r = false ->
      conns st' = <[c := set_ready r w]> (conns st) ->
      next_conn st' = next_conn st ->
      connectedClients st' = connectedClients st ->
      net_effect st st'
  | NClose (c : nat) (w : conn) :
      conns st !! c = Some w ->
      is_closed (ready w) = false ->
      conns st' = <[c := set_ready CLOSED w]> (conns st) ->
      next_conn st' = next_conn st ->
      connectedClients st' =
        match handler w with
        | Some Chat => set_delete c (connectedClients st)
        | _ => connectedClients st
        end ->
      net_effect st st'.


(** The registry holds, once each, the chat Connections whose [close]
    has not fired; Connection identities are below [next_conn]. *)
Definition registry_inv (st : state) : Prop :=
  NoDup (connectedClients st)
  /\ (forall c, c ∈ connectedClients st <->
        exists w, conns st !! c = Some w /\ handler w = Some Chat
                  /\ is_closed (ready w) = false)
  /\ (forall c, is_Some (conns st !! c) -> c < next_conn st).




End Effects.

Import Effects.

(** ** Paths

    [path.resolve], [path.join] and [path.sep] as the server's platform
    has them (POSIX). *)

Module Path.

Local Open Scope N_scope.

Definition SLASH : N := 47.
Definition DOT : N := 46.

(** [s.split(sep)] for a separator of one character. *)
Fixpoint split (sep : N) (s : ustring) : list ustring :=
  match s with
  | [] => [[]]
  | c :: s' =>
      if c =? sep then [] :: split sep s'
      else match split sep s' with
           | seg :: rest => (c :: seg) :: rest
           | [] => [[c]]
           end
  end.

(** [l.join(sep)] *)
Fixpoint join (sep : ustring) (l : list ustring) : ustring :=
  match l with
  | [] => []
  | x :: rest =>
      match rest with
      | [] => x
      | _ :: _ => x ++ sep ++ join sep rest
      end
  end.

Definition dotdot : ustring := [DOT; DOT].

(** One segment of [normalizeString]: an empty segment and [.] are
    dropped, [..] removes the segment before it (or stays, above the
    root of a relative path), anything else is kept. *)
Definition normalize_step (allowAboveRoot : bool) (acc : list ustring)
    (seg : ustring) : list ustring :=
  match seg with
  | [] => acc
  | _ :: _ =>
      if ustring_eqb seg [DOT] then acc
      else if ustring_eqb seg dotdot then
        match last acc with
        | Some l =>
            if ustring_eqb l dotdot
            then (if allowAboveRoot then acc ++ [dotdot] else acc)
            else removelast acc
        | None => if allowAboveRoot then [dotdot] else []
        end
      else acc ++ [seg]
  end.

Definition normalize_segments (allowAboveRoot : bool) (path : ustring)
    : list ustring :=
  fold_left (normalize_step allowAboveRoot) (split SLASH path) [].

Definition normalizeString (path : ustring) (allowAboveRoot : bool) : ustring :=
  join [SLASH] (normalize_segments allowAboveRoot path).

Definition isAbsolute (path : ustring) : bool :=
  match path with
  | c :: _ => c =? SLASH
  | [] => false
  end.

(** The loop of [path.resolve]: the arguments from right to left, then
    the working directory, until the path is absolute; empty arguments
    are skipped. *)
Fixpoint resolve_loop (cwd : ustring) (args_rev : list ustring)
    (resolvedPath : ustring) : ustring * bool :=
  match args_rev with
  | [] =>
      match cwd with
      | [] => (resolvedPath, false)
      | _ :: _ => (cwd ++ [SLASH] ++ resolvedPath, isAbsolute cwd)
      end
  | path :: rest =>
      match path with
      | [] => resolve_loop cwd rest resolvedPath
      | _ :: _ =>
          if isAbsolute path then (path ++ [SLASH] ++ resolvedPath, true)
          else resolve_loop cwd rest (path ++ [SLASH] ++ resolvedPath)
      end
  end.

(** [path.resolve(...args)] in the working directory [cwd]. *)
Definition resolve (cwd : ustring) (args : list ustring) : ustring :=
  let '(resolvedPath, resolvedAbsolute) := resolve_loop cwd (rev args) [] in
  let normalized := normalizeString resolvedPath (negb resolvedAbsolute) in
  if resolvedAbsolute then SLASH :: normalized
  else match normalized with
       | [] => [DOT]
       | _ :: _ => normalized
       end.

(** [path.normalize(path)] *)
Definition normalize (path : ustring) : ustring :=
  match path with
  | [] => [DOT]
  | _ :: _ =>
      let absolute := isAbsolute path in
      let trailingSeparator :=
        match last path with Some c => c =? SLASH | None => false end in
      match normalizeString path (negb absolute) with
      | [] => if absolute then [SLASH]
              else if trailingSeparator then [DOT; SLASH] else [DOT]
      | c :: p =>
          let p' := if trailingSeparator then (c :: p) ++ [SLASH] else c :: p in
          if absolute then SLASH :: p' else p'
      end
  end.

(** [path.join(...args)]: the arguments that are not empty, with
    separators between them, normalized. *)
Definition join_paths (args : list ustring) : ustring :=
  match filter (fun a => a <> []) args with
  | [] => [DOT]
  | a :: rest => normalize (join [SLASH] (a :: rest))
  end.

(** The segment holds no separator. *)
Definition nosep (seg : ustring) : bool :=
  forallb (fun c => negb (c =? SLASH)) seg.

(** A segment of a normal path: not empty, neither [.] nor [..], and
    without a separator. *)
Definition clean_segment (seg : ustring) : bool :=
  match seg with
  | [] => false
  | _ :: _ =>
      negb (ustring_eqb seg [DOT]) && negb (ustring_eqb seg dotdot)
      && nosep seg
  end.

End Path.

(** ** What stands before a route handler *)

Module Express.

(** The answer to a request: that of Express's own error handler, with
    the status of the error that was passed on or thrown, or that of
    the route. *)
Inductive outcome {A : Type} :=
  | Refused (status : nat)
  | Answered (r : A).

(** [req.body] after [express.json()], which runs before every route:
    the status of the error the parser passes on (400 for a body that
    does not parse), or the value it leaves, [undefined] when it leaves
    none. *)
Definition body : Type := nat + jsval.

End Express.

(** ** The file endpoints *)

Module Files.

Local Close Scope N_scope.
Local Open Scope nat_scope.

(** An [Error] with its [code], when it has one, and its [message]. *)
Record error := {
  code : option ustring;
  message : ustring;
}.

Definition bad_path : error :=
  {| code := Some (units "EBADPATH"); message := units "Invalid file path provided." |}.

Definition denied : error :=
  {| code := Some (units "EACCES"); message := units "Permission denied or invalid path" |}.

(** [error.code === 'lit'] *)
Definition has_code (e : error) (lit : string) : bool :=
  match code e with
  | Some c => ustring_eqb c (units lit)
  | None => false
  end.

(** What an endpoint answers: the status and the JSON body. *)
Inductive body :=
  | BContent (content path : ustring)      (* [{ content, path }] *)
  | BSaved (path : ustring)                (* [{ success: true, path, message }] *)
  | BError (error : ustring).              (* [{ error }] *)

Record response := {
  status : nat;
  answer : body;
}.

(** The calls an endpoint makes on the file system. *)
Inductive fs_op :=
  | OpRead (path : ustring)                      (* [fs.readFile] *)
  | OpExists (path : ustring)                    (* [existsSync] *)
  | OpCopy (src dst : ustring)                   (* [fs.copyFile] *)
  | OpWrite (path : ustring) (content : json).   (* [fs.writeFile] *)

(** What is left of [l] after the segments [pre]. *)
Fixpoint after (pre l : list ustring) : option (list ustring) :=
  match pre, l with
  | [], _ => Some l
  | x :: pre', y :: l' => if ustring_eqb x y then after pre' l' else None
  | _ :: _, [] => None
  end.

(** The path [p] names something inside the directory [dir]: its
    segments are those of [dir] followed by at least one more, and none
    of the further ones is empty, [.] or [..]. *)
Definition inside (dir p : ustring) : bool :=
  match after (Path.split Path.SLASH dir) (Path.split Path.SLASH p) with
  | Some (seg :: segs) => forallb Path.clean_segment (seg :: segs)
  | _ => false
  end.

(** The paths a call touches. *)
Definition op_paths (op : fs_op) : list ustring :=
  match op with
  | OpRead p | OpExists p | OpWrite p _ => [p]
  | OpCopy src dst => [src; dst]
  end.

(** The file system and the clock as one request finds them: what
    [readFile] resolves to or rejects with, whether the file exists,
    whether [copyFile] and [writeFile] reject, and the decimal digits of
    [Date.now()]. *)
Record fs_env := {
  readFile : ustring -> error + ustring;
  existsSync : ustring -> bool;
  copyFile : ustring -> ustring -> option error;
  writeFile : ustring -> json -> option error;
  now : ustring;
}.

Section Endpoints.

(** [process.cwd()] *)
Variable cwd : ustring.

(** [getSafeFilePath(projectName, unsafeRelativePath)]; [projectDir] is
    what [extractProjectDirectory(projectName)] resolves to, or the
    error it rejects with.  Only a string that is not empty passes the
    first test. *)
Definition getSafeFilePath (projectDir : error + ustring)
    (unsafeRelativePath : jsval) : error + ustring :=
  match unsafeRelativePath with
  | Some (JStr (c :: rel)) =>
      match projectDir with
      | inl e => inl e
      | inr dir =>
          let resolvedPath := Path.resolve cwd [dir; c :: rel] in
          if negb (startsWith (dir ++ [Path.SLASH]) resolvedPath)
          then inl denied
          else inr resolvedPath
      end
  | _ => inl bad_path
  end.

(** The [catch] of the endpoint that reads a file. *)
Definition read_failure (e : error) : response :=
  if has_code e "ENOENT"
  then {| status := 404; answer := BError (units "File not found") |}
  else if has_code e "EACCES"
  then {| status := 403; answer := BError (units "Permission denied") |}
  else {| status := 500; answer := BError (message e) |}.

(** The [catch] of the endpoint that saves a file. *)
Definition save_failure (e : error) : response :=
  if has_code e "ENOENT"
  then {| status := 404; answer := BError (units "File or directory not found") |}
  else if has_code e "EACCES"
  then {| status := 403; answer := BError (units "Permission denied") |}
  else {| status := 500; answer := BError (message e) |}.

(** The handler of [GET /api/projects/:projectName/file], which runs
    when the body parser and [isAuthenticated] have let the request
    through (see [read_route]): the response, the calls on the file
    system and the console. *)
Definition read_file (fs : fs_env) (projectDir : error + ustring)
    (filePath : jsval) : response * list fs_op * list (level * string) :=
  let console := [(LLog, "File read request:"%string)] in
  match getSafeFilePath projectDir filePath with
  | inl e => (read_failure e, [], console ++ [(LError, "Error reading file:"%string)])
  | inr safePath =>
      match readFile fs safePath with
      | inr content =>
          ({| status := 200; answer := BContent content safePath |},
           [OpRead safePath], console)
      | inl e =>
          (read_failure e, [OpRead safePath],
           console ++ [(LError, "Error reading file:"%string)])
      end
  end.

(** The handler of [PUT /api/projects/:projectName/file], from the
    [console.log] on, for the [filePath] and [content] of the body (see
    [save_route] for what comes before). *)
Definition save_file (fs : fs_env) (projectDir : error + ustring)
    (filePath content : jsval) : response * list fs_op * list (level * string) :=
  let console := [(LLog, "File save request:"%string)] in
  match getSafeFilePath projectDir filePath with
  | inl e => (save_failure e, [], console ++ [(LError, "Error saving file:"%string)])
  | inr safePath =>
      match content with
      | None =>
          ({| status := 400; answer := BError (units "Content is required") |},
           [], console)
      | Some content =>
          let backupPath := safePath ++ units ".backup." ++ now fs in
          let '(ops, console) :=
            if existsSync fs safePath then
              match copyFile fs safePath backupPath with
              | None =>
                  ([OpExists safePath; OpCopy safePath backupPath],
                   console ++ [(LLog, "Created backup:"%string)])
              | Some _ =>
                  ([OpExists safePath; OpCopy safePath backupPath],
                   console ++ [(LWarn, "Could not create backup:"%string)])
              end
            else ([OpExists safePath], console) in
          match writeFile fs safePath content with
          | None =>
              ({| status := 200; answer := BSaved safePath |},
               ops ++ [OpWrite safePath content], console)
          | Some e =>
              (save_failure e, ops ++ [OpWrite safePath content],
               console ++ [(LError, "Error saving file:"%string)])
          end
      end
  end.

(** [res.status(401).json({ error: 'Unauthorized' })] of the middleware
    [isAuthenticated]. *)
Definition unauthorized : response :=
  {| status := 401; answer := BError (units "Unauthorized") |}.

(** The [TypeError] of [const { filePath, content } = req.body] for a
    body that is [undefined] or [null]. *)
Definition destructure_error (what : string) : error :=
  {| code := None;
     message := units "Cannot destructure property 'filePath' of 'req.body' as it is "
                ++ units what ++ units "." |}.

(** The route [GET /api/projects/:projectName/file]: the body parser,
    the middleware [isAuthenticated] on the flag of the session, then
    the handler.  The static files hold nothing under this path. *)
Definition read_route (fs : fs_env) (body : Express.body) (isAuthenticated : jsval)
    (projectDir : error + ustring) (filePath : jsval)
    : Express.outcome (A:=response) * list fs_op :=
  match body with
  | inl status => (Express.Refused status, [])
  | inr _ =>
      if truthy isAuthenticated then
        let '(r, ops, _) := read_file fs projectDir filePath in
        (Express.Answered r, ops)
      else (Express.Answered unauthorized, [])
  end.

(** The route [PUT /api/projects/:projectName/file], likewise; the
    handler takes [filePath] and [content] from the body. *)
Definition save_route (fs : fs_env) (body : Express.body) (isAuthenticated : jsval)
    (projectDir : error + ustring)
    : Express.outcome (A:=response) * list fs_op :=
  match body with
  | inl status => (Express.Refused status, [])
  | inr data =>
      if truthy isAuthenticated then
        match data with
        | None => (Express.Answered (save_failure (destructure_error "undefined")), [])
        | Some JNull => (Express.Answered (save_failure (destructure_error "null")), [])
        | Some d =>
            let '(r, ops, _) :=
              save_file fs projectDir (prop d "filePath") (prop d "content") in
            (Express.Answered r, ops)
        end
      else (Express.Answered unauthorized, [])
  end.

End Endpoints.

End Files.

(** ** The file tree *)

Module Tree.

Local Close Scope N_scope.
Local Open Scope nat_scope.

(** A [Dirent] of [readdir]. *)
Record dirent := {
  d_name : ustring;
  isDirectory : bool;
}.

Inductive item_type := Directory | File.

(** An item of the tree; [children] is missing on a file and on a
    directory at the depth limit. *)
Inductive item :=
  | Item (name path : ustring) (type : item_type) (children : option (list item)).

Definition name (i : item) : ustring := let '(Item n _ _ _) := i in n.
Definition path (i : item) : ustring := let '(Item _ p _ _) := i in p.
Definition type (i : item) : item_type := let '(Item _ _ t _) := i in t.
Definition children (i : item) : option (list item) := let '(Item _ _ _ c) := i in c.

Definition is_directory (i : item) : bool :=
  match type i with Directory => true | File => false end.

(** The names that are left out of the tree. *)
Definition skipped (n : ustring) : bool :=
  ustring_eqb n (units "node_modules") || ustring_eqb n (units "dist")
  || ustring_eqb n (units "build").

(** [items.sort(compare)].  The sort is stable; for a comparator that
    orders the items, as the one below does when [localeCompare] orders
    the names, it is the insertion of each item before the first one
    that does not come before it. *)
Fixpoint sort_insert {A} (compare : A -> A -> Z) (x : A) (l : list A) : list A :=
  match l with
  | [] => [x]
  | y :: l' =>
      if (compare x y <=? 0)%Z then x :: y :: l'
      else y :: sort_insert compare x l'
  end.

Fixpoint sort {A} (compare : A -> A -> Z) (l : list A) : list A :=
  match l with
  | [] => []
  | x :: l' => sort_insert compare x (sort compare l')
  end.

Section Tree.

(** [fs.readdir(dirPath, { withFileTypes: true })]: the entries, or
    nothing when it rejects. *)
Variable readdir : ustring -> option (list dirent).

(** [fs.access(path, fs.constants.R_OK)] resolves. *)
Variable access : ustring -> bool.

(** [a.localeCompare(b)] *)
Variable localeCompare : ustring -> ustring -> Z.

(** The comparator of the sort: directories first, then by name. *)
Definition compare (a b : item) : Z :=
  match type a, type b with
  | Directory, File => (-1)%Z
  | File, Directory => 1%Z
  | _, _ => localeCompare (name a) (name b)
  end.

(** [getFileTree(dirPath, maxDepth, currentDepth)]; the console is left
    out.  The recursion goes one level down at a time and stops at
    [maxDepth]: [fuel] counts the levels that may still be read. *)
Fixpoint getFileTree_rec (fuel : nat) (dirPath : ustring)
    (maxDepth currentDepth : nat) : list item :=
  match fuel with
  | O => []
  | S fuel' =>
      let items :=
        match readdir dirPath with
        | None => []
        | Some entries =>
            flat_map (fun entry =>
              if skipped (d_name entry) then []
              else
                let p := Path.join_paths [dirPath; d_name entry] in
                let children :=
                  if isDirectory entry && (currentDepth <? maxDepth)
                  then Some (if access p
                             then getFileTree_rec fuel' p maxDepth (S currentDepth)
                             else [])
                  else None in
                [Item (d_name entry) p
                   (if isDirectory entry then Directory else File) children])
              entries
        end in
      sort compare items
  end.

Definition getFileTree (dirPath : ustring) (maxDepth currentDepth : nat)
    : list item :=
  getFileTree_rec (S (maxDepth - currentDepth)) dirPath maxDepth currentDepth.

End Tree.

(** [p] holds for the item and for every item below it. *)
Fixpoint everywhere (p : item -> bool) (i : item) : bool :=
  p i && match children i with
         | None => true
         | Some l => forallb (everywhere p) l
         end.

(** [p] holds for the list of children of the item and of every item
    below it. *)
Fixpoint every_level (p : list item -> bool) (i : item) : bool :=
  match children i with
  | None => true
  | Some l => p l && forallb (every_level p) l
  end.

(** No file stands before a directory. *)
Fixpoint directories_first (l : list item) : bool :=
  match l with
  | [] => true
  | i :: l' =>
      (is_directory i || forallb (fun j => negb (is_directory j)) l')
      && directories_first l'
  end.

(** The number of levels of a tree. *)
Fixpoint depth (i : item) : nat :=
  match children i with
  | None => 1
  | Some l => S (foldr (fun j d => max (depth j) d) 0 l)
  end.

Definition depth_of (l : list item) : nat :=
  foldr (fun j d => max (depth j) d) 0 l.

End Tree.

(** ** The environment file *)

Module Env.

Local Open Scope N_scope.

Definition EQUALS : N := 61.
Definition HASH : N := 35.

(** White space and line terminators, what [trim] removes. *)
Definition is_space (c : N) : bool :=
  ((9 <=? c) && (c <=? 13)) || (c =? 32) || (c =? 160) || (c =? 5760)
  || ((8192 <=? c) && (c <=? 8202)) || (c =? 8232) || (c =? 8233)
  || (c =? 8239) || (c =? 8287) || (c =? 12288) || (c =? 65279).

Fixpoint trimStart (s : ustring) : ustring :=
  match s with
  | [] => []
  | c :: s' => if is_space c then trimStart s' else s
  end.

Fixpoint trimEnd (s : ustring) : ustring :=
  match s with
  | [] => []
  | c :: s' =>
      match trimEnd s' with
      | [] => if is_space c then [] else [c]
      | t :: ts => c :: t :: ts
      end
  end.

(** [s.trim()] *)
Definition trim (s : ustring) : ustring := trimEnd (trimStart s).

(** [process.env], the variables that are set. *)
Definition env := gmap ustring ustring.

(** The names [process.env] inherits from [Object.prototype]: reading
    one that is not set gives a function or the prototype, not
    [undefined]. *)
Definition inherited : list string :=
  ["constructor"; "hasOwnProperty"; "isPrototypeOf"; "propertyIsEnumerable";
   "toLocaleString"; "toString"; "valueOf"; "__proto__";
   "__defineGetter__"; "__defineSetter__"; "__lookupGetter__";
   "__lookupSetter__"]%string.

Definition is_inherited (key : ustring) : bool :=
  existsb (fun n => ustring_eqb key (units n)) inherited.

(** [!process.env[key]]: the variable is not set, or set to the empty
    string, and the name is not an inherited one. *)
Definition unset (e : env) (key : ustring) : bool :=
  match @lookup ustring ustring env _ key e with
  | Some [] => true
  | Some (_ :: _) => false
  | None => negb (is_inherited key)
  end.

(** The callback of the [forEach], on one line of the file. *)
Definition load_line (e : env) (line : ustring) : env :=
  let trimmedLine := trim line in
  match trimmedLine with
  | [] => e
  | _ :: _ =>
      if startsWith [HASH] trimmedLine then e
      else
        match Path.split EQUALS trimmedLine with
        | key :: valueParts =>
            match key, valueParts with
            | _ :: _, _ :: _ =>
                if unset e key
                then <[key := trim (Path.join [EQUALS] valueParts)]> e
                else e
            | _, _ => e
            end
        | [] => e
        end
  end.

(** The lines of the file, in order. *)
Definition load_env (envFile : ustring) (e : env) : env :=
  fold_left load_line (Path.split LF envFile) e.

(** The [try] block at the head of the server: [envFile] is what
    [readFileSync] returns, or nothing when it throws. *)
Definition load (envFile : option ustring) (e : env) : env :=
  match envFile with
  | Some f => load_env f e
  | None => e
  end.

End Env.

(** ** Logging in *)

Module Auth.

Local Close Scope N_scope.
Local Open Scope nat_scope.

(** The bytes of a [Buffer]. *)
Definition bytes := list N.

(** The JSON body of an answer of [/api/login]. *)
Inductive login_body :=
  | Success                          (* [{ success: true }] *)
  | Failure (message : ustring).     (* [{ success: false, message }] *)

Record login_response := {
  login_status : nat;
  login_answer : login_body;
}.

(** [crypto.timingSafeEqual(a, b)]: it throws for buffers of different
    lengths. *)
Definition timingSafeEqual (a b : bytes) : option bool :=
  if length a =? length b then Some (ustring_eqb a b) else None.

Section Login.

(** [Buffer.from(v, 'utf8')] for a value [v] that is not [undefined]:
    the bytes, or nothing when it throws. *)
Variable Buffer_from : json -> option bytes.

(** The handler of [POST /api/login], which runs when the body parser
    and the rate limiter have let the request through (see
    [login_route]): [appPassword] is [process.env.APP_PASSWORD],
    [password] the field of the body and [isAuthenticated] the flag of
    the session before the request; the answer and the flag after
    it. *)
Definition login (appPassword : option ustring) (password isAuthenticated : jsval)
    : login_response * jsval :=
  let failed := {| login_status := 500;
                   login_answer := Failure (units "An error occurred during authentication.") |} in
  let invalid := {| login_status := 401;
                    login_answer := Failure (units "Invalid password") |} in
  match appPassword with
  | None | Some [] =>
      ({| login_status := 500;
          login_answer := Failure (units "Application password is not configured on the server.") |},
       isAuthenticated)
  | Some (c :: app) =>
      match password with
      | Some pw =>
          if truthy password then
            match Buffer_from pw with
            | None => (failed, isAuthenticated)
            | Some passwordBuffer =>
                match Buffer_from (JStr (c :: app)) with
                | None => (failed, isAuthenticated)
                | Some appPasswordBuffer =>
                    if length passwordBuffer =? length appPasswordBuffer then
                      match timingSafeEqual passwordBuffer appPasswordBuffer with
                      | None => (failed, isAuthenticated)
                      | Some true =>
                          ({| login_status := 200; login_answer := Success |},
                           Some (JBool true))
                      | Some false => (invalid, isAuthenticated)
                      end
                    else (invalid, isAuthenticated)
                end
            end
          else (invalid, isAuthenticated)
      | None => (invalid, isAuthenticated)
      end
  end.

(** The answer of the rate limiter. *)
Definition too_many : login_response :=
  {| login_status := 429;
     login_answer := Failure (units "Too many login attempts. Please try again later.") |}.

(** The route [POST /api/login]: the body parser, then [loginLimiter],
    which lets ten requests of an address through in a window of
    fifteen minutes ([hits] is the number of requests of the address it
    has counted in the window before this one), then the handler, whose
    [const { password } = req.body] throws for a body that is
    [undefined] or [null]. *)
Definition login_route (body : Express.body) (hits : nat)
    (appPassword : option ustring) (isAuthenticated : jsval)
    : Express.outcome (A:=login_response) * jsval :=
  match body with
  | inl status => (Express.Refused status, isAuthenticated)
  | inr data =>
      if 10 <=? hits then (Express.Answered too_many, isAuthenticated)
      else
        match data with
        | None | Some JNull => (Express.Refused 500, isAuthenticated)
        | Some d =>
            let '(r, flag) := login appPassword (prop d "password") isAuthenticated in
            (Express.Answered r, flag)
        end
  end.

End Login.

End Auth.

(** A project, a working directory and a file system to run the file
    endpoints on. *)
Module FileSample.

Definition cwd : ustring := units "/srv".
Definition dir : ustring := units "/home/u/app".

Definition no_space : Files.error :=
  {| Files.code := Some (units "ENOSPC"); Files.message := units "no space left on device" |}.

(** Every file exists and can be read and written, but not copied. *)
Definition fs : Files.fs_env :=
  {| Files.readFile := fun _ => inr (units "text");
     Files.existsSync := fun _ => true;
     Files.copyFile := fun _ _ => Some no_space;
     Files.writeFile := fun _ _ => None;
     Files.now := units "1700000000000" |}.

End FileSample.

(** A small project directory to list. *)
Module TreeSample.

Definition entry (n : string) (dir : bool) : Tree.dirent :=
  {| Tree.d_name := units n; Tree.isDirectory := dir |}.

(** [/p] holds [b.txt], [src], [node_modules] and [a.txt]; [/p/src]
    holds [dist] and [main.js]; nothing else can be read. *)
Definition readdir (dirPath : ustring) : option (list Tree.dirent) :=
  if ustring_eqb dirPath (units "/p") then
    Some [entry "b.txt" false; entry "src" true; entry "node_modules" true;
          entry "a.txt" false]
  else if ustring_eqb dirPath (units "/p/src") then
    Some [entry "dist" true; entry "main.js" false]
  else None.

Definition access (p : ustring) : bool := true.

(** The names by their first characters, enough to order the names
    above. *)
Definition localeCompare (a b : ustring) : Z :=
  (Z.of_N (hd 0%N a) - Z.of_N (hd 0%N b))%Z.

End TreeSample.

(** An environment file and an environment to load it into. *)
Module EnvSample.

(** [PORT=8080], a comment and [KEY = a=b ], on three lines. *)
Definition env_file : ustring :=
  units "PORT=8080" ++ [LF] ++ units "# comment" ++ [LF] ++ units "KEY = a=b ".

(** Only [PORT] is set, to [3000]. *)
Definition port_set : Env.env := <[units "PORT" := units "3000"]> ∅.

End EnvSample.

(** Frames of the chat protocol and oracles to run them with. *)
Module ChatSample.

Import Gateway.

(** [{"type":"claude-command","command":"hi"}] *)
Definition frame_command : ustring :=
  units "{" ++ Sample.quoted "type" ++ units ":" ++ Sample.quoted "claude-command"
    ++ units "," ++ Sample.quoted "command" ++ units ":" ++ Sample.quoted "hi"
    ++ units "}".

(** [{"type":"abort-session","sessionId":"s1"}] *)
Definition frame_abort : ustring :=
  units "{" ++ Sample.quoted "type" ++ units ":" ++ Sample.quoted "abort-session"
    ++ units "," ++ Sample.quoted "sessionId" ++ units ":" ++ Sample.quoted "s1"
    ++ units "}".

(** [{"type":"ping"}] *)
Definition frame_ping : ustring :=
  units "{" ++ Sample.quoted "type" ++ units ":" ++ Sample.quoted "ping" ++ units "}".

Definition frame_null : ustring := units "null".

(** [JSON.parse] on these frames and on those of [Sample]. *)
Definition parse (s : ustring) : ustring + json :=
  if ustring_eqb s frame_command then
    inr (JObj [(units "type", JStr (units "claude-command"));
               (units "command", JStr (units "hi"))])
  else if ustring_eqb s frame_abort then
    inr (JObj [(units "type", JStr (units "abort-session"));
               (units "sessionId", JStr (units "s1"))])
  else if ustring_eqb s frame_ping then
    inr (JObj [(units "type", JStr (units "ping"))])
  else if ustring_eqb s frame_null then inr JNull
  else Sample.parse s.

Definition step := Gateway.step parse Sample.to_string Sample.cwd.
Definition run := Gateway.run parse Sample.to_string Sample.cwd.

(** The session to abort is found. *)
Definition aborting : oracle := {|
  spawn_error := None; write_error := None; resize_error := None;
  abort_result := true;
|}.


(** A chat Connection, number 0. *)
Definition chat_opened : state :=
  run [EvUpgrade (Sample.authenticated "/ws")] initial.

(** A shell Connection whose process was signalled at the close. *)
Definition shell_closed : list event :=
  [EvUpgrade (Sample.authenticated "/shell");
   EvMessage 0 Sample.frame_init Sample.quiet;
   EvClose 0].

(** Two shell Connections, the first with a process. *)
Definition two_shells : list event :=
  [EvUpgrade (Sample.authenticated "/shell");
   EvUpgrade (Sample.authenticated "/shell");
   EvMessage 0 Sample.frame_init Sample.quiet].

End ChatSample.

(** ** Traces that keep to the shell protocol *)

Module Conformance.

Local Close Scope N_scope.
Local Open Scope nat_scope.

Section Conformance.

Variable JSON_parse : ustring -> ustring + json.
Variable ToString : jsval -> ustring.
Variable cwd : ustring.

(** The message is an [init]. *)
Definition is_init (message : ustring) : bool :=
  match JSON_parse message with
  | inr data => is_str (prop data "type") "init"
  | inl _ => false
  end.

(** The client keeps to the protocol at this event: it sends no [init]
    on a Connection whose process reference holds a process. *)
Definition conforming_step (st : state) (ev : event) : bool :=
  match ev with
  | EvMessage c message _ =>
      if is_init message
      then match shellProcess st !! c with Some _ => false | None => true end
      else true
  | _ => true
  end.

Fixpoint conforming (st : state) (evs : list event) : bool :=
  match evs with
  | [] => true
  | ev :: evs' =>
      conforming_step st ev
      && conforming (step JSON_parse ToString cwd ev st) evs'
  end.

(** What one event does to the Connections and to the processes,
    together. *)
Inductive step_effect (st : state) : event -> state -> Prop :=
  | ESame ev st' :
      conns st' = conns st -> next_conn st' = next_conn st ->
      pty st' = pty st ->
      step_effect st ev st'
  | EAccept req st' :
      conns st' = <[next_conn st := routed (req_url req)]> (conns st) ->
      next_conn st' = S (next_conn st) ->
      shellProcess st' = delete (next_conn st) (shellProcess st)
        \/ shellProcess st' = shellProcess st ->
      procs st' = procs st -> next_pid st' = next_pid st ->
      step_effect st (EvUpgrade req) st'
  | EReady ev c w r st' :
      conns st !! c = Some w ->
      is_closed (ready w) = false ->
      is_closed r = false ->
      conns st' = <[c := set_ready r w]> (conns st) ->
      next_conn st' = next_conn st ->
      pty st' = pty st ->
      step_effect st ev st'
  | EClose c w st' :
      conns st !! c = Some w ->
      is_closed (ready w) = false ->
      conns st' = <[c := set_ready CLOSED w]> (conns st) ->
      next_conn st' = next_conn st ->
      shellProcess st' = shellProcess st ->
      procs st' =
        match handler w, shellProcess st !! c with
        | Some Shell, Some p => alter do_kill p (procs st)
        | _, _ => procs st
        end ->
      next_pid st' = next_pid st ->
      step_effect st (EvClose c) st'
  | ESpawn c w message o cmd st' :
      conns st !! c = Some w ->
      is_closed (ready w) = false ->
      handler w = Some Shell ->
      is_init message = true ->
      conns st' = conns st -> next_conn st' = next_conn st ->
      pty st' = pty (set_shellProcess c (Some (next_pid st)) (new_proc c cmd st)) ->
      step_effect st (EvMessage c message o) st'
  | EUse c message o p f st' :
      shellProcess st !! c = Some p ->
      (forall pr, owner (f pr) = owner pr /\ kills (f pr) = kills pr
                  /\ exited (f pr) = exited pr) ->
      conns st' = conns st -> next_conn st' = next_conn st ->
      pty st' = pty (upd_proc p f st) ->
      step_effect st (EvMessage c message o) st'
  | EExit p pr exitCode signal st' :
      procs st !! p = Some pr ->
      exited pr = false ->
      conns st' = conns st -> next_conn st' = next_conn st ->
      pty st' = pty (set_shellProcess (owner pr) None (upd_proc p do_exit st)) ->
      step_effect st (EvProcExit p exitCode signal) st'.

End Conformance.

(** What holds of the processes in every state the gateway reaches:
    Connection and process identities are fresh; a process reference
    holds a running process of its own Connection; processes belong to
    shell Connections; a process is signalled at most once, and only
    when its Connection has closed. *)
Definition process_inv (st : state) : Prop :=
  (forall c, is_Some (conns st !! c) -> c < next_conn st)
  /\ (forall p, is_Some (procs st !! p) -> p < next_pid st)
  /\ (forall c p, shellProcess st !! c = Some p ->
        exists pr, procs st !! p = Some pr /\ owner pr = c /\ exited pr = false)
  /\ (forall p pr, procs st !! p = Some pr ->
        exists w, conns st !! owner pr = Some w /\ handler w = Some Shell)
  /\ (forall p pr, procs st !! p = Some pr ->
        kills pr <= 1
        /\ (1 <= kills pr ->
            exists w, conns st !! owner pr = Some w /\ is_closed (ready w) = true)).

(** Every running process is the one its Connection's reference
    holds. *)
Definition live_referenced (st : state) : Prop :=
  forall p pr, procs st !! p = Some pr -> exited pr = false ->
    shellProcess st !! owner pr = Some p.

(** No process of a closed Connection is left running unsignalled. *)
Definition no_orphan (st : state) : Prop :=
  forall p pr w, procs st !! p = Some pr ->
    conns st !! owner pr = Some w -> is_closed (ready w) = true ->
    exited pr = true \/ 1 <= kills pr.

End Conformance.

Import Conformance.

(** ** The language of a pattern *)

Module RegexSpec.

(** The strings a pattern can span. *)
Fixpoint lang (icase : bool) (r : regex) (u : ustring) : Prop :=
  match r with
  | Lit l => lit_match icase l u = Some []
  | One a => exists c, u = [c] /\ atom_match icase a c = true
  | Opt a => u = [] \/ exists c, u = [c] /\ atom_match icase a c = true
  | Star a => forallb (atom_match icase a) u = true
  | Plus a => u <> [] /\ forallb (atom_match icase a) u = true
  | Seq r1 r2 =>
      exists u1 u2, u = u1 ++ u2 /\ lang icase r1 u1 /\ lang icase r2 u2
  | Alt r1 r2 => lang icase r1 u \/ lang icase r2 u
  | Group r1 => lang icase r1 u
  end.

(** The pattern ends with a greedy run of the class [a]. *)
Fixpoint ends_with (a : atom) (r : regex) : Prop :=
  match r with
  | Star b | Plus b => b = a
  | Seq _ r2 => ends_with a r2
  | Alt r1 r2 => ends_with a r1 /\ ends_with a r2
  | Group r1 => ends_with a r1
  | Lit _ | One _ | Opt _ => False
  end.

(** The input stops, or goes on with a character outside the class. *)
Definition stops (icase : bool) (a : atom) (s : ustring) : Prop :=
  match s with
  | [] => True
  | c :: _ => atom_match icase a c = false
  end.

End RegexSpec.

Import RegexSpec.

(** * Properties *)

(** ** Strings and the matcher *)

Lemma startsWith_app (p s : ustring) :
  startsWith p s = true -> exists rest, s = p ++ rest.
Proof.
  revert s; induction p as [|x p IH]; intros s H.
  - exists s; reflexivity.
  - destruct s as [|y s]; [discriminate|].
    simpl in H. apply andb_prop in H as [Hxy Hps].
    apply N.eqb_eq in Hxy as ->.
    destruct (IH _ Hps) as [rest ->]. exists rest; reflexivity.
Qed.

Lemma startsWith_prefix (p rest : ustring) : startsWith p (p ++ rest) = true.
Proof.
  induction p as [|x p IH]; [reflexivity|].
  simpl. rewrite N.eqb_refl. exact IH.
Qed.

(** [indexOf] returns the first position at which the needle starts. *)
Lemma indexOf_first (p pre post : ustring) :
  (forall i, (i < length pre)%nat -> startsWith p (drop i (pre ++ p ++ post)) = false) ->
  indexOf p (pre ++ p ++ post) = Some (length pre).
Proof.
  induction pre as [|c pre IH]; intros Hno.
  - simpl. destruct p as [|x p]; [destruct post; reflexivity|].
    simpl. rewrite N.eqb_refl, startsWith_prefix. reflexivity.
  - assert (H0 := Hno 0%nat ltac:(simpl; lia)). simpl in H0.
    change ((c :: pre) ++ p ++ post) with (c :: (pre ++ p ++ post)).
    cbn [indexOf]. rewrite H0.
    rewrite IH; [reflexivity|].
    intros i Hi. apply (Hno (S i)). simpl; lia.
Qed.

(** A template without a dollar sign is inserted as it is. *)
Lemma getSubstitution_plain (matched before after tmpl : ustring) :
  forallb (fun c => negb (c =? 36)%N) tmpl = true ->
  getSubstitution matched before after tmpl = tmpl.
Proof.
  induction tmpl as [|c t IH]; [reflexivity|].
  simpl. intros H. apply andb_prop in H as [Hc Ht].
  apply negb_true_iff in Hc. rewrite Hc, (IH Ht). reflexivity.
Qed.

Lemma replace_first (p pre post tmpl : ustring) :
  (forall i, (i < length pre)%nat -> startsWith p (drop i (pre ++ p ++ post)) = false) ->
  forallb (fun c => negb (c =? 36)%N) tmpl = true ->
  replace (pre ++ p ++ post) p tmpl = pre ++ tmpl ++ post.
Proof.
  intros Hno Hplain. unfold replace.
  rewrite (indexOf_first _ _ _ Hno).
  rewrite (getSubstitution_plain _ _ _ _ Hplain).
  rewrite take_app_length.
  rewrite drop_app_add', drop_app_length by reflexivity.
  reflexivity.
Qed.

(** The first result of the [exec] loop is the leftmost match. *)
Lemma exec_loop_leftmost (re : RegExp) (s : ustring) :
  forall pos r rs,
  exec_loop re pos 0 s = r :: rs ->
  exists j, index r = (pos + j)%nat /\
    forall i, (i < j)%nat -> match_here re (drop i s) = None.
Proof.
  induction s as [|c s IH]; intros pos r rs H.
  - simpl in H. destruct (match_here re []) as [[n cap]|]; [|discriminate].
    injection H as <- _. exists 0%nat. split; [simpl; lia | intros i Hi; lia].
  - cbn [exec_loop] in H.
    destruct (match_here re (c :: s)) as [[n cap]|] eqn:Hm.
    + injection H as <- _. exists 0%nat. split; [simpl; lia | intros i Hi; lia].
    + destruct (IH _ _ _ H) as (j & Hj & Hnone).
      exists (S j). split; [lia|].
      intros [|i] Hi; [exact Hm|]. apply Hnone. lia.
Qed.

(** [a*] cannot fail before a continuation that cannot. *)
Lemma star_match_total {A} (icase : bool) (a : atom) (k : kont (A:=A)) :
  (forall cap s, is_Some (k cap s)) ->
  forall cap s, is_Some (star_match icase a cap s k).
Proof.
  intros Hk cap s. induction s as [|c s IH]; simpl; [apply Hk|].
  destruct (atom_match icase a c); [|apply Hk].
  destruct IH as [x ->]. eauto.
Qed.

(** Replace the code units of each literal by their value. *)
Ltac norm_units :=
  repeat match goal with
  | |- context [units ?s] =>
      let v := eval vm_compute in (units s) in change (units s) with v
  end.

(** Wherever the example sentinel starts, the sentinel pattern
    matches. *)
Lemma sentinel_matches (s : ustring) :
  startsWith example_sentinel s = true ->
  is_Some (match_here re_open_url s).
Proof.
  intros H. apply startsWith_app in H as [rest ->].
  unfold match_here, re_open_url, example_sentinel, example_url,
    url_group, space, url_char.
  cbn [pattern ignoreCase]. norm_units. simpl.
  match goal with
  | |- is_Some (match ?X with Some _ => _ | None => _ end) => destruct X; eauto
  end.
Qed.

(** ** The output scanner *)

Lemma occurrences_inv (data : ustring) (l1 l2 l3 l4 l5 l6 : list exec_result) :
  occurrences data = [l1; l2; l3; l4; l5; l6] ->
  exec_all re_command data = l1 /\ exec_all re_open_url data = l2 /\
  exec_all re_opening data = l3 /\ exec_all re_visit data = l4 /\
  exec_all re_view_at data = l5 /\ exec_all re_browse_to data = l6.
Proof.
  unfold occurrences, patterns. cbn [map]. intros H.
  injection H as <- <- <- <- <- <-. repeat split.
Qed.

(** The scan, pattern by pattern. *)
Lemma scan_unfold (data : ustring) :
  scan data =
  fold_left (scan_match re_browse_to) (exec_all re_browse_to data)
   (fold_left (scan_match re_view_at) (exec_all re_view_at data)
    (fold_left (scan_match re_visit) (exec_all re_visit data)
     (fold_left (scan_match re_opening) (exec_all re_opening data)
      (fold_left (scan_match re_open_url) (exec_all re_open_url data)
       (fold_left (scan_match re_command) (exec_all re_command data)
          {| sent := []; outputData := data |}))))).
Proof. reflexivity. Qed.

(** C4. A chunk whose only pattern occurrences are one match of the
    [xdg-open|open|start] pattern, capturing [a], and one match of the
    [Visit:] pattern, capturing [b], makes the scanner emit exactly two
    [url_open] frames, [a] then [b] (the order in which the scanner
    tries the patterns, wherever the two matches stand in the chunk),
    and then the chunk itself, unchanged. *)
Theorem two_patterns_two_events (data : ustring) (ma mb : exec_result) (a b : ustring) :
  occurrences data = [ [ma]; []; []; [mb]; []; [] ] ->
  m1 ma = Some a ->
  m1 mb = Some b ->
  onData_frames data = [ MUrlOpen (Some a); MUrlOpen (Some b); MOutput data ].
Proof.
  intros Hocc Ha Hb.
  apply occurrences_inv in Hocc as (H1 & H2 & H3 & H4 & H5 & H6).
  unfold onData_frames. rewrite scan_unfold, H1, H2, H3, H4, H5, H6.
  cbn [fold_left]. unfold scan_match. cbn [sent outputData app].
  assert (Hc : is_sentinel re_command = false) by (vm_compute; reflexivity).
  assert (Hv : is_sentinel re_visit = false) by (vm_compute; reflexivity).
  rewrite Hc, Hv, Ha, Hb. reflexivity.
Qed.

(** The [Visit:] line stands first in the chunk, the [xdg-open] command
    second; the command's URL is announced first. *)
Lemma two_patterns_two_events_witness :
  onData_frames (units "Visit: https://b then xdg-open https://a")
    = [ MUrlOpen (Some (units "https://a")); MUrlOpen (Some (units "https://b"));
        MOutput (units "Visit: https://b then xdg-open https://a") ].
Proof.
  apply (two_patterns_two_events _
           {| index := 22; m0 := units "xdg-open https://a"; m1 := Some (units "https://a") |}
           {| index := 0; m0 := units "Visit: https://b"; m1 := Some (units "https://b") |}).
  - vm_compute. reflexivity.
  - reflexivity.
  - reflexivity.
Defined.

(** Every match of a pattern spans at least [min_len] code units. *)
Lemma lit_match_length (icase : bool) (l s s' : ustring) :
  lit_match icase l s = Some s' -> length s = (length l + length s')%nat.
Proof.
  revert s; induction l as [|x l IH]; intros s H; simpl in H.
  - injection H as ->. reflexivity.
  - destruct s as [|c s]; [discriminate|].
    destruct (unit_eqb icase x c); [|discriminate].
    simpl. rewrite (IH _ H). reflexivity.
Qed.

Lemma star_match_consumes {A} (icase : bool) (a : atom) (k : kont (A:=A)) cap s x :
  star_match icase a cap s k = Some x ->
  exists s', k cap s' = Some x /\ (length s' <= length s)%nat.
Proof.
  induction s as [|c s IH]; simpl; intros H; [eauto|].
  destruct (atom_match icase a c); [|eauto].
  destruct (star_match icase a cap s k) as [y|] eqn:Hs; [|eauto].
  injection H as ->. destruct (IH eq_refl) as (s' & Hk & Hl). eauto with lia.
Qed.

Lemma rmatch_consumes {A} (icase : bool) (r : regex) :
  forall (k : kont (A:=A)) cap s x,
  rmatch icase r cap s k = Some x ->
  exists cap' s', k cap' s' = Some x /\ (length s' + min_len r <= length s)%nat.
Proof.
  induction r as [l|a|a|a|a|r1 IH1 r2 IH2|r1 IH1 r2 IH2|r1 IH1];
    intros k cap s x H; simpl in H.
  - destruct (lit_match icase l s) as [s'|] eqn:Hl; [|discriminate].
    apply lit_match_length in Hl. exists cap, s'. simpl. split; [done|lia].
  - destruct s as [|c s]; [discriminate|].
    destruct (atom_match icase a c); [|discriminate].
    exists cap, s. simpl. split; [done|lia].
  - destruct s as [|c s]; [exists cap, []; simpl; split; [done|lia]|].
    destruct (atom_match icase a c); [|exists cap, (c :: s); simpl; split; [done|lia]].
    destruct (k cap s) as [y|] eqn:Hk.
    + injection H as ->. exists cap, s. simpl. split; [done|lia].
    + exists cap, (c :: s). simpl. split; [done|lia].
  - apply star_match_consumes in H as (s' & Hk & Hl).
    exists cap, s'. simpl. split; [done|lia].
  - destruct s as [|c s]; [discriminate|].
    destruct (atom_match icase a c); [|discriminate].
    apply star_match_consumes in H as (s' & Hk & Hl).
    exists cap, s'. simpl. split; [done|lia].
  - apply IH1 in H as (cap1 & s1 & H & Hl1).
    apply IH2 in H as (cap2 & s2 & H & Hl2).
    exists cap2, s2. simpl. split; [done|lia].
  - destruct (rmatch icase r1 cap s k) as [y|] eqn:H1.
    + injection H as ->. apply IH1 in H1 as (cap' & s' & Hk & Hl).
      exists cap', s'. simpl. split; [done|lia].
    + apply IH2 in H as (cap' & s' & Hk & Hl).
      exists cap', s'. simpl. split; [done|lia].
  - apply IH1 in H as (cap' & s' & Hk & Hl). simpl. eauto.
Qed.

(** No pattern of the scanner matches the empty string, so each turn of
    the [exec] loop moves [lastIndex] forward and the loop ends, as
    [exec_loop] does. *)
Lemma match_here_nonempty (re : RegExp) (s : ustring) n cap :
  re ∈ patterns ->
  match_here re s = Some (n, cap) -> (1 <= n <= length s)%nat.
Proof.
  intros Hin H. unfold match_here in H.
  apply rmatch_consumes in H as (cap' & s' & Hk & Hl).
  injection Hk as <- _.
  assert (1 <= min_len (pattern re))%nat; [|lia].
  unfold patterns in Hin. clear -Hin.
  repeat (apply elem_of_cons in Hin as [->|Hin]; [vm_compute; lia|]).
  apply elem_of_nil in Hin. destruct Hin.
Qed.

(** ** The gateway *)

Local Close Scope N_scope.
Local Open Scope nat_scope.

Lemma ustring_eqb_eq (a b : ustring) : ustring_eqb a b = true -> a = b.
Proof.
  revert b; induction a as [|x a IH]; intros [|y b] H; try discriminate; [done|].
  simpl in H. apply andb_prop in H as [Hxy Hab].
  apply N.eqb_eq in Hxy as ->. by rewrite (IH _ Hab).
Qed.

(** A [type] field is equal to at most one of the literals. *)
Lemma is_str_excl (v : jsval) (a b : string) :
  is_str v a = true -> units a <> units b -> is_str v b = false.
Proof.
  destruct v as [[| | |s| |]|]; simpl; try discriminate.
  intros Ha Hne. apply ustring_eqb_eq in Ha as ->.
  destruct (ustring_eqb (units a) (units b)) eqn:Hb; [|done].
  apply ustring_eqb_eq in Hb. contradiction.
Qed.

(** Logging and sending leave the network side and the pty side as
    they are. *)
Lemma ws_send_net c m st : net (ws_send c m st) = net st.
Proof. unfold ws_send. by destruct (ws_open c st). Qed.

Lemma ws_send_pty c m st : pty (ws_send c m st) = pty st.
Proof. unfold ws_send. by destruct (ws_open c st). Qed.

Lemma ws_send_console c m st : console (ws_send c m st) = console st.
Proof. unfold ws_send. by destruct (ws_open c st). Qed.

Lemma net_conns st st' : net st' = net st -> conns st' = conns st.
Proof. unfold net. congruence. Qed.

Lemma net_clients st st' : net st' = net st -> connectedClients st' = connectedClients st.
Proof. unfold net. congruence. Qed.

Lemma net_sockets st st' : net st' = net st -> sockets st' = sockets st.
Proof. unfold net. congruence. Qed.

Lemma net_next_conn st st' : net st' = net st -> next_conn st' = next_conn st.
Proof. unfold net. congruence. Qed.

Lemma pty_shellProcess st st' : pty st' = pty st -> shellProcess st' = shellProcess st.
Proof. unfold pty. congruence. Qed.

Lemma pty_procs st st' : pty st' = pty st -> procs st' = procs st.
Proof. unfold pty. congruence. Qed.

Lemma pty_next_pid st st' : pty st' = pty st -> next_pid st' = next_pid st.
Proof. unfold pty. congruence. Qed.

Lemma ws_open_net c st st' : net st' = net st -> ws_open c st' = ws_open c st.
Proof. intros H. unfold ws_open. by rewrite (net_conns _ _ H). Qed.

Lemma outbox_ws_send c m st c' :
  outbox (ws_send c m st) c' =
  if decide (c' = c)
  then (if ws_open c st then outbox st c ++ [m] else outbox st c)
  else outbox st c'.
Proof.
  unfold ws_send. destruct (ws_open c st); case_decide; subst; try done.
  - unfold outbox at 1. simpl. by rewrite lookup_insert_eq.
  - unfold outbox at 1. simpl. by rewrite lookup_insert_ne.
Qed.

Lemma sends_net c ms st :
  net (fold_left (fun st m => ws_send c m st) ms st) = net st.
Proof.
  revert st; induction ms as [|m ms IH]; intros st; [done|].
  simpl. by rewrite IH, ws_send_net.
Qed.

Lemma sends_pty c ms st :
  pty (fold_left (fun st m => ws_send c m st) ms st) = pty st.
Proof.
  revert st; induction ms as [|m ms IH]; intros st; [done|].
  simpl. by rewrite IH, ws_send_pty.
Qed.

Lemma relay_net c f st : net (relay c f st) = net st.
Proof. apply ws_send_net. Qed.

Lemma relay_pty c f st : pty (relay c f st) = pty st.
Proof. apply ws_send_pty. Qed.

(** When the socket is open a run of sends delivers every frame, in
    order. *)
Lemma outbox_sends c ms st c' :
  ws_open c st = true ->
  outbox (fold_left (fun st m => ws_send c m st) ms st) c' =
  if decide (c' = c) then outbox st c ++ ms else outbox st c'.
Proof.
  revert st; induction ms as [|m ms IH]; intros st Hopen; simpl.
  - case_decide; subst; [by rewrite app_nil_r|done].
  - rewrite IH by (by rewrite (ws_open_net _ _ _ (ws_send_net c m st))).
    rewrite !outbox_ws_send, Hopen.
    repeat case_decide; try done. by rewrite <- app_assoc.
Qed.

Lemma net_log l t st : net (log l t st) = net st.
Proof. done. Qed.
Lemma net_deliver c m st : net (deliver c m st) = net st.
Proof. done. Qed.
Lemma net_set_shellProcess c v st : net (set_shellProcess c v st) = net st.
Proof. done. Qed.
Lemma net_upd_proc p f st : net (upd_proc p f st) = net st.
Proof. done. Qed.
Lemma net_new_proc c cmd st : net (new_proc c cmd st) = net st.
Proof. done. Qed.
Lemma pty_log l t st : pty (log l t st) = pty st.
Proof. done. Qed.
Lemma pty_deliver c m st : pty (deliver c m st) = pty st.
Proof. done. Qed.
Lemma pty_upd_conn c f st : pty (upd_conn c f st) = pty st.
Proof. done. Qed.
Lemma pty_set_clients l st : pty (set_clients l st) = pty st.
Proof. done. Qed.
Lemma pty_add_socket s st : pty (add_socket s st) = pty st.
Proof. done. Qed.
Lemma pty_new_conn u st : pty (new_conn u st) = pty st.
Proof. done. Qed.

Create Rewrite HintDb net.
Create Rewrite HintDb pty.

#[local] Hint Rewrite net_log net_deliver net_set_shellProcess net_upd_proc
  net_new_proc ws_send_net sends_net relay_net : net.
#[local] Hint Rewrite pty_log pty_deliver pty_upd_conn pty_set_clients
  pty_add_socket pty_new_conn ws_send_pty sends_pty relay_pty : pty.

Section GatewayProperties.

Variable JSON_parse : ustring -> ustring + json.
Variable ToString : jsval -> ustring.
Variable cwd : ustring.

Local Notation step := (Gateway.step JSON_parse ToString cwd).
Local Notation run := (Gateway.run JSON_parse ToString cwd).
Local Notation handleShellMessage := (Gateway.handleShellMessage JSON_parse ToString cwd).
Local Notation handleChatMessage := (Gateway.handleChatMessage JSON_parse).
Local Notation shell_init := (Gateway.shell_init ToString cwd).
Local Notation onExit := (Gateway.onExit ToString).

Lemma run_cons ev evs st : run (ev :: evs) st = run evs (step ev st).
Proof. done. Qed.

(** *** What each handler leaves alone *)

Lemma shell_catch_net c e st : net (shell_catch c e st) = net st.
Proof. unfold shell_catch. case_match; by autorewrite with net. Qed.

Lemma shell_catch_pty c e st : pty (shell_catch c e st) = pty st.
Proof. unfold shell_catch. case_match; by autorewrite with pty. Qed.

Lemma chat_catch_net c e st : net (chat_catch c e st) = net st.
Proof. unfold chat_catch. by autorewrite with net. Qed.

Lemma chat_catch_pty c e st : pty (chat_catch c e st) = pty st.
Proof. unfold chat_catch. by autorewrite with pty. Qed.

Lemma handleShellMessage_net c m o st : net (handleShellMessage c m o st) = net st.
Proof.
  unfold Gateway.handleShellMessage, Gateway.shell_init, shell_input, shell_resize.
  repeat case_match; autorewrite with net; rewrite ?shell_catch_net; by autorewrite with net.
Qed.

Lemma handleChatMessage_net c m o st : net (handleChatMessage c m o st) = net st.
Proof.
  unfold Gateway.handleChatMessage.
  repeat case_match; rewrite ?chat_catch_net; by autorewrite with net.
Qed.

Lemma handleChatMessage_pty c m o st : pty (handleChatMessage c m o st) = pty st.
Proof.
  unfold Gateway.handleChatMessage.
  repeat case_match; rewrite ?chat_catch_pty; by autorewrite with pty.
Qed.

Lemma step_relay_net c f st : net (step (EvRelay c f) st) = net st.
Proof. simpl. repeat case_match; try done. apply relay_net. Qed.

Lemma step_relay_pty c f st : pty (step (EvRelay c f) st) = pty st.
Proof. simpl. repeat case_match; try done. apply relay_pty. Qed.

Lemma step_relay_failed_net c e st : net (step (EvRelayFailed c e) st) = net st.
Proof. simpl. repeat case_match; try done. apply chat_catch_net. Qed.

Lemma step_relay_failed_pty c e st : pty (step (EvRelayFailed c e) st) = pty st.
Proof. simpl. repeat case_match; try done. apply chat_catch_pty. Qed.

Lemma onData_net c data st : net (onData c data st) = net st.
Proof. unfold onData. case_match; by autorewrite with net. Qed.

Lemma onData_pty c data st : pty (onData c data st) = pty st.
Proof. unfold onData. case_match; by autorewrite with pty. Qed.

Lemma onExit_net c code sig st : net (onExit c code sig st) = net st.
Proof. unfold Gateway.onExit. case_match; by autorewrite with net. Qed.

Lemma handleShellClose_net c st : net (handleShellClose c st) = net st.
Proof. unfold handleShellClose. case_match; by autorewrite with net. Qed.

Lemma fanout_net m l st :
  net (fold_left (fun st client =>
                    if ws_open client st then ws_send client m st else st) l st)
  = net st.
Proof.
  revert st; induction l as [|c l IH]; intros st; [done|].
  simpl. rewrite IH. case_match; by autorewrite with net.
Qed.

Lemma fanout_pty m l st :
  pty (fold_left (fun st client =>
                    if ws_open client st then ws_send client m st else st) l st)
  = pty st.
Proof.
  revert st; induction l as [|c l IH]; intros st; [done|].
  simpl. rewrite IH. case_match; by autorewrite with pty.
Qed.

Lemma fanout_console m l st :
  console (fold_left (fun st client =>
                    if ws_open client st then ws_send client m st else st) l st)
  = console st.
Proof.
  revert st; induction l as [|c l IH]; intros st; [done|].
  simpl. rewrite IH. case_match; by rewrite ?ws_send_console.
Qed.

Lemma debouncedUpdate_net a b t pr st : net (debouncedUpdate a b t pr st) = net st.
Proof. unfold debouncedUpdate. case_match; [done|apply fanout_net]. Qed.

Lemma debouncedUpdate_pty a b t pr st : pty (debouncedUpdate a b t pr st) = pty st.
Proof. unfold debouncedUpdate. case_match; [done|apply fanout_pty]. Qed.

(** The raw sockets are only ever added to. *)
Lemma step_sockets ev st : sockets st `prefix_of` sockets (step ev st).
Proof.
  destruct ev; simpl.
  - unfold upgrade, on_connection, handleShellConnection, handleChatConnection.
    repeat case_match; simpl; by apply prefix_app_r.
  - repeat case_match; try done.
    + by rewrite (net_sockets _ _ (handleShellMessage_net _ _ _ _)).
    + by rewrite (net_sockets _ _ (handleChatMessage_net _ _ _ _)).
  - done.
  - repeat case_match; done.
  - repeat case_match; try done.
    + by rewrite (net_sockets _ _ (handleShellClose_net _ _)).
  - repeat case_match; try done.
    by rewrite (net_sockets _ _ (onData_net _ _ _)).
  - repeat case_match; try done.
    by rewrite (net_sockets _ _ (onExit_net _ _ _ _)).
  - by rewrite (net_sockets _ _ (debouncedUpdate_net _ _ _ _ _)).
  - repeat case_match; try done.
    by rewrite (net_sockets _ _ (relay_net _ _ _)).
  - repeat case_match; try done.
    unfold relay_failed. by rewrite (net_sockets _ _ (chat_catch_net _ _ _)).
Qed.

Lemma run_sockets evs st : sockets st `prefix_of` sockets (run evs st).
Proof.
  revert st; induction evs as [|ev evs IH]; intros st; [done|].
  rewrite run_cons. etrans; [apply step_sockets|apply IH].
Qed.

(** *** The upgrade gate *)

(** C1. An upgrade request whose session is not authenticated gets the
    status line [HTTP/1.1 401 Unauthorized], followed by an empty line,
    written to its raw socket, and nothing else; the socket is then
    destroyed without a handshake.  No WebSocket object is created: the
    Connections, the registry, the processes and the frames delivered
    are unchanged, and whatever happens afterwards the socket stays as
    the gate left it, upgraded to no Connection. *)
Theorem unauthenticated_upgrade_rejected req st :
  truthy (isAuthenticated req) = false ->
  let st' := step (EvUpgrade req) st in
  let socket :=
    {| written := [units "HTTP/1.1 401 Unauthorized" ++ [13; 10; 13; 10]%N];
       destroyed := true;
       upgraded := None |} in
  sockets st' = sockets st ++ [socket]
  /\ conns st' = conns st
  /\ next_conn st' = next_conn st
  /\ connectedClients st' = connectedClients st
  /\ pty st' = pty st
  /\ delivered st' = delivered st
  /\ forall evs, sockets (run evs st') !! length (sockets st) = Some socket.
Proof.
  intros Hauth. simpl. unfold upgrade. rewrite Hauth. simpl.
  repeat split.
  intros evs.
  eapply prefix_lookup_Some; [|apply run_sockets].
  simpl. by rewrite lookup_app_r, Nat.sub_diag.
Qed.

(** *** Malformed messages *)

Lemma outbox_log l t st c : outbox (log l t st) c = outbox st c.
Proof. done. Qed.

Lemma ws_open_lookup c st w :
  conns st !! c = Some w -> ws_open c st = is_open (ready w).
Proof. unfold ws_open. by intros ->. Qed.

Lemma ws_open_log c l t st : ws_open c (log l t st) = ws_open c st.
Proof. done. Qed.

(** C5. A message that is not parseable JSON, arriving on an open
    shell or chat Connection, makes the handler report the error on that
    same Connection and nothing else: on a shell Connection as an output
    frame whose data is CR LF, ESC [[31m], [Error: ], the parser's
    message, ESC [[0m], CR LF; on a chat Connection as an error frame
    with the parser's message.  The Connection keeps its state and its
    handler, the registry and the processes are untouched, and the next
    message is handled as usual. *)
Theorem malformed_json_reported c message o e st w :
  conns st !! c = Some w ->
  ready w = OPEN ->
  JSON_parse message = inl e ->
  let st' := step (EvMessage c message o) st in
  (handler w = Some Shell ->
     outbox st' c
     = outbox st c
       ++ [MOutput ([13; 10; 27]%N ++ units "[31mError: " ++ e
                    ++ [27]%N ++ units "[0m" ++ [13; 10]%N)]
     /\ forall m2 o2, step (EvMessage c m2 o2) st' = handleShellMessage c m2 o2 st')
  /\ (handler w = Some Chat ->
     outbox st' c = outbox st c ++ [MError e]
     /\ forall m2 o2, step (EvMessage c m2 o2) st' = handleChatMessage c m2 o2 st')
  /\ net st' = net st
  /\ pty st' = pty st.
Proof.
  intros Hc Hopen Hparse. simpl. rewrite Hc, Hopen. simpl.
  assert (Hwo : ws_open c st = true) by (by rewrite (ws_open_lookup _ _ _ Hc), Hopen).
  split; [|split].
  - intros Hh. rewrite Hh.
    unfold Gateway.handleShellMessage at 1 2. rewrite Hparse.
    unfold shell_catch. rewrite ws_open_log, Hwo.
    split.
    + rewrite outbox_ws_send, ws_open_log, Hwo. by case_decide.
    + intros m2 o2.
      rewrite (net_conns _ _ (ws_send_net _ _ _)). simpl.
      by rewrite Hc, Hopen, Hh.
  - intros Hh. rewrite Hh.
    unfold Gateway.handleChatMessage at 1 2. rewrite Hparse.
    unfold chat_catch.
    split.
    + rewrite outbox_ws_send, ws_open_log, Hwo. by case_decide.
    + intros m2 o2.
      rewrite (net_conns _ _ (ws_send_net _ _ _)). simpl.
      by rewrite Hc, Hopen, Hh.
  - destruct (handler w) as [[|]|]; [| |done].
    + split; [apply handleShellMessage_net|].
      unfold Gateway.handleShellMessage. rewrite Hparse. apply shell_catch_pty.
    + split; [apply handleChatMessage_net|apply handleChatMessage_pty].
Qed.

(** *** Input to the shell *)

Lemma handleShellMessage_input c message o data st :
  JSON_parse message = inr data ->
  is_str (prop data "type") "input" = true ->
  handleShellMessage c message o st
  = shell_input c data o (log LLog "Shell message received:" st).
Proof.
  intros Hparse Htype. unfold Gateway.handleShellMessage. rewrite Hparse.
  assert (Hinit : is_str (prop data "type") "init" = false)
    by (apply (is_str_excl _ _ _ Htype); vm_compute; discriminate).
  destruct data; try discriminate. by rewrite Hinit, Htype.
Qed.

(** C6, as the code has it. An input message on a shell Connection
    whose process reference holds the process [p] appends the value of
    its [data] field, as it came, to what has been written to the input
    stream of [p], and touches no other process and nothing else of
    [p]; when the write throws, the failure is logged on the server
    with [console.error] and no frame at all is sent to the client;
    either way the process reference, the Connection and the registry
    are as before. *)
Theorem input_forwarded_failure_logged c message o data p pr st w :
  conns st !! c = Some w ->
  handler w = Some Shell ->
  is_closed (ready w) = false ->
  shellProcess st !! c = Some p ->
  procs st !! p = Some pr ->
  JSON_parse message = inr data ->
  is_str (prop data "type") "input" = true ->
  let st' := step (EvMessage c message o) st in
  (write_error o = None ->
     procs st' !! p
     = Some {| owner := owner pr; command := command pr; exited := exited pr;
               kills := kills pr; stdin := stdin pr ++ [prop data "data"];
               resizes := resizes pr |}
     /\ (forall q, q <> p -> procs st' !! q = procs st !! q)
     /\ console st' = console st ++ [(LLog, "Shell message received:"%string)])
  /\ (forall e, write_error o = Some e ->
     procs st' = procs st
     /\ console st' = console st ++ [(LLog, "Shell message received:"%string);
                                    (LError, "Error writing to shell:"%string)])
  /\ delivered st' = delivered st
  /\ shellProcess st' = shellProcess st
  /\ net st' = net st.
Proof.
  intros Hc Hh Hready Hp Hpr Hparse Htype. simpl. rewrite Hc, Hready, Hh.
  rewrite (handleShellMessage_input _ _ _ _ _ Hparse Htype).
  unfold shell_input. simpl. rewrite Hp.
  destruct (write_error o) as [e|]; simpl.
  - split; [done|]. split; [|done].
    intros e' [= <-]. split; [done|]. by rewrite <- app_assoc.
  - split; [|split; [|done]; intros e [=]].
    intros _. split; [|split; [|done]].
    + by rewrite lookup_alter_eq, Hpr.
    + intros q Hq. by rewrite lookup_alter_ne.
Qed.

(** *** Notification fan-out *)

Lemma fanout_outbox m l st c :
  NoDup l ->
  outbox (fold_left (fun st client =>
                       if ws_open client st then ws_send client m st else st) l st) c
  = if decide (c ∈ l)
    then (if ws_open c st then outbox st c ++ [m] else outbox st c)
    else outbox st c.
Proof.
  revert st; induction l as [|a l IH]; intros st Hnd.
  - cbn [fold_left]. destruct (decide (c ∈ [])) as [Hin|_]; [by inversion Hin|done].
  - apply NoDup_cons in Hnd as [Ha Hnd]. simpl. rewrite (IH _ Hnd).
    set (st1 := if ws_open a st then ws_send a m st else st).
    assert (Hnet : net st1 = net st)
      by (unfold st1; destruct (ws_open a st); [apply ws_send_net|done]).
    rewrite (ws_open_net _ _ _ Hnet).
    assert (Hout : outbox st1 c =
              if decide (c = a)
              then (if ws_open a st then outbox st a ++ [m] else outbox st a)
              else outbox st c).
    { unfold st1. destruct (ws_open a st) eqn:Ho.
      - by rewrite outbox_ws_send, Ho.
      - by destruct (decide (c = a)) as [->|]. }
    rewrite Hout.
    destruct (decide (c = a)) as [->|Hne].
    + rewrite decide_False by done. rewrite decide_True by (apply elem_of_cons; by left).
      done.
    + destruct (decide (c ∈ l)) as [Hin|Hnin].
      * rewrite decide_True by (apply elem_of_cons; by right). done.
      * rewrite decide_False; [done|].
        intros [?|?]%elem_of_cons; done.
Qed.

(** C8. The fan-out of one Notification Event delivers the
    [projects_updated] frame exactly once to every Connection of the
    registry whose socket is open, and nothing to any other Connection,
    registered or not; no error is logged and nothing but the delivered
    frames changes. *)
Theorem fanout_reaches_open_members eventType changedFile timestamp projects st :
  NoDup (connectedClients st) ->
  let m := MProjectsUpdated projects timestamp eventType changedFile in
  let st' := step (EvProjectsChanged eventType changedFile timestamp (inr projects)) st in
  (forall c, c ∈ connectedClients st -> ws_open c st = true ->
     outbox st' c = outbox st c ++ [m])
  /\ (forall c, c ∈ connectedClients st -> ws_open c st = false ->
     outbox st' c = outbox st c)
  /\ (forall c, c ∉ connectedClients st -> outbox st' c = outbox st c)
  /\ console st' = console st
  /\ net st' = net st
  /\ pty st' = pty st.
Proof.
  intros Hnd. simpl.
  repeat split.
  - intros c Hin Ho. rewrite fanout_outbox by done.
    by rewrite decide_True, Ho by done.
  - intros c Hin Ho. rewrite fanout_outbox by done.
    by rewrite decide_True, Ho by done.
  - intros c Hin. rewrite fanout_outbox by done.
    by rewrite decide_False by done.
  - apply fanout_console.
  - apply fanout_net.
  - apply fanout_pty.
Qed.

(** *** The effects of one event *)

Lemma alter_lookup_Some {A} (f : A -> A) (m : gmap nat A) c w :
  m !! c = Some w -> alter f c m = <[c := f w]> m.
Proof.
  intros H. apply map_eq; intros j. destruct (decide (c = j)) as [<-|Hne].
  - by rewrite lookup_alter_eq, lookup_insert_eq, H.
  - by rewrite lookup_alter_ne, lookup_insert_ne.
Qed.

Lemma alter_lookup_None {A} (f : A -> A) (m : gmap nat A) c :
  m !! c = None -> alter f c m = m.
Proof.
  intros H. apply map_eq; intros j. destruct (decide (c = j)) as [<-|Hne].
  - by rewrite lookup_alter_eq, H.
  - by rewrite lookup_alter_ne.
Qed.

Lemma not_open_not_closed r : is_open r = true -> is_closed r = false.
Proof. by destruct r. Qed.

Lemma step_net_effect ev st : net_effect st (step ev st).
Proof.
  destruct ev as [req|c message o|c|c|c|p data|p code sig|a b t pr|c f|c e]; simpl.
  - unfold upgrade. destruct (truthy (isAuthenticated req)); simpl.
    + apply (NAccept _ _ (req_url req)); unfold on_connection, routed, route;
        destruct (startsWith (units "/shell") (req_url req));
        [| destruct (startsWith (units "/ws") (req_url req)) | |
         destruct (startsWith (units "/ws") (req_url req)) | |
         destruct (startsWith (units "/ws") (req_url req)) ];
        simpl; try done; by rewrite alter_insert_eq.
    + by apply NReject.
  - apply NSame. repeat case_match; try done.
    + apply handleShellMessage_net.
    + apply handleChatMessage_net.
  - destruct (conns st !! c) as [w|] eqn:Hc.
    + destruct (is_open (ready w)) eqn:Ho.
      * apply (NReady _ _ c w CLOSING); try done.
        -- by apply not_open_not_closed.
        -- simpl. rewrite (alter_lookup_Some _ _ _ _ Hc). by rewrite Ho.
      * apply NSame. unfold net. simpl.
        rewrite (alter_lookup_Some _ _ _ _ Hc), Ho. by rewrite insert_id.
    + apply NSame. unfold net. simpl. by rewrite alter_lookup_None.
  - destruct (conns st !! c) as [w|] eqn:Hc; [|by apply NSame].
    destruct (is_closed (ready w)) eqn:Hcl; [by apply NSame|].
    destruct (handler w) as [[|]|]; try by apply NSame.
    apply (NReady _ _ c w CLOSING); try done.
    simpl. by rewrite (alter_lookup_Some _ _ _ _ Hc).
  - destruct (conns st !! c) as [w|] eqn:Hc; [|by apply NSame].
    destruct (is_closed (ready w)) eqn:Hcl; [by apply NSame|].
    apply (NClose _ _ c w); try done.
    + destruct (handler w) as [[|]|]; simpl;
        rewrite ?(net_conns _ _ (handleShellClose_net _ _)); simpl;
        by rewrite (alter_lookup_Some _ _ _ _ Hc).
    + destruct (handler w) as [[|]|]; simpl;
        by rewrite ?(net_next_conn _ _ (handleShellClose_net _ _)).
    + destruct (handler w) as [[|]|]; simpl;
        by rewrite ?(net_clients _ _ (handleShellClose_net _ _)).
  - apply NSame. repeat case_match; try done. apply onData_net.
  - apply NSame. repeat case_match; try done.
    by rewrite onExit_net.
  - apply NSame. apply debouncedUpdate_net.
  - apply NSame. apply step_relay_net.
  - apply NSame. apply step_relay_failed_net.
Qed.







(** *** The Broadcast Registry *)

Lemma elem_of_set_add c x l : x ∈ set_add c l <-> x = c \/ x ∈ l.
Proof.
  unfold set_add. case_decide as Hin.
  - split; [by right|]. by intros [->|?].
  - rewrite elem_of_app, list_elem_of_singleton. tauto.
Qed.

Lemma NoDup_set_add c l : NoDup l -> NoDup (set_add c l).
Proof.
  intros Hnd. unfold set_add. case_decide as Hin; [done|].
  apply NoDup_app. split; [done|]. split; [|apply NoDup_singleton].
  intros x Hx ->%list_elem_of_singleton. done.
Qed.

Lemma elem_of_set_delete c x l : x ∈ set_delete c l <-> x <> c /\ x ∈ l.
Proof. unfold set_delete. by rewrite list_elem_of_filter. Qed.

Lemma NoDup_set_delete c l : NoDup l -> NoDup (set_delete c l).
Proof. apply NoDup_filter. Qed.

Lemma registry_inv_initial : registry_inv initial.
Proof.
  split; [apply NoDup_nil_2|]. split.
  - intros c. split; [by intros ?%elem_of_nil|].
    intros (w & Hw & _). simpl in Hw. by rewrite lookup_empty in Hw.
  - intros c [w Hw]. simpl in Hw. by rewrite lookup_empty in Hw.
Qed.

Lemma registry_inv_step ev st : registry_inv st -> registry_inv (step ev st).
Proof.
  intros (Hnd & Hmem & Hfresh).
  destruct (step_net_effect ev st) as [H|H|u Hc Hn Hl|c w r Hw Hcl Hr Hc Hn Hl|c w Hw Hcl Hc Hn Hl].
  - unfold net in H. injection H as _ Hc Hn Hl.
    unfold registry_inv. by rewrite Hc, Hn, Hl.
  - unfold net in H. simpl in H. injection H as _ Hc Hn Hl.
    unfold registry_inv. by rewrite Hc, Hn, Hl.
  - assert (Hnone : conns st !! next_conn st = None).
    { destruct (conns st !! next_conn st) eqn:E; [|done].
      assert (next_conn st < next_conn st) by (apply Hfresh; eauto). lia. }
    assert (Hnin : next_conn st ∉ connectedClients st).
    { intros (w & Hw & _)%Hmem. congruence. }
    unfold registry_inv. rewrite Hc, Hn, Hl. split; [|split].
    + destruct (route u) as [[|]|]; try done. by apply NoDup_set_add.
    + intros c. destruct (decide (c = next_conn st)) as [->|Hne].
      * rewrite lookup_insert_eq. unfold routed.
        destruct (route u) as [[|]|] eqn:Hroute.
        -- split; [done|]. intros (w & [= <-] & Hh & _). done.
        -- rewrite elem_of_set_add. split; [|by left].
           intros _. eexists. split; [done|]. by simpl.
        -- split; [done|]. intros (w & [= <-] & Hh & _). done.
      * rewrite lookup_insert_ne by done. rewrite <- Hmem.
        destruct (route u) as [[|]|]; try done.
        rewrite elem_of_set_add. tauto.
    + intros c. destruct (decide (c = next_conn st)) as [->|Hne]; [lia|].
      rewrite lookup_insert_ne by done. intros Hs%Hfresh. lia.
  - unfold registry_inv. rewrite Hc, Hn, Hl. split; [done|]. split.
    + intros c'. rewrite Hmem. destruct (decide (c' = c)) as [->|Hne].
      * rewrite lookup_insert_eq, Hw. split.
        -- intros (w' & [= <-] & Hh & _). eexists. split; [done|]. by simpl.
        -- intros (w' & [= <-] & Hh & _). eexists. split; [done|]. by simpl.
      * by rewrite lookup_insert_ne.
    + intros c'. destruct (decide (c' = c)) as [->|Hne].
      * intros _. apply Hfresh. eauto.
      * rewrite lookup_insert_ne by done. apply Hfresh.
  - unfold registry_inv. rewrite Hc, Hn, Hl. split; [|split].
    + destruct (handler w) as [[|]|]; try done. by apply NoDup_set_delete.
    + intros c'. destruct (decide (c' = c)) as [->|Hne].
      * rewrite lookup_insert_eq. split.
        -- intros Hin. exfalso.
           destruct (handler w) as [[|]|] eqn:Hh.
           ++ apply Hmem in Hin as (w' & Hw' & Hh' & _). congruence.
           ++ apply elem_of_set_delete in Hin as [? _]. done.
           ++ apply Hmem in Hin as (w' & Hw' & Hh' & _). congruence.
        -- intros (w' & [= <-] & _ & Hx). done.
      * rewrite lookup_insert_ne by done. rewrite <- Hmem.
        destruct (handler w) as [[|]|]; try done.
        rewrite elem_of_set_delete. tauto.
    + intros c'. destruct (decide (c' = c)) as [->|Hne].
      * intros _. apply Hfresh. eauto.
      * rewrite lookup_insert_ne by done. apply Hfresh.
Qed.

Lemma registry_inv_run evs st : registry_inv st -> registry_inv (run evs st).
Proof.
  revert st; induction evs as [|ev evs IH]; intros st H; [done|].
  rewrite run_cons. by apply IH, registry_inv_step.
Qed.

(** C7. In every state the gateway reaches, the registry holds a
    Connection exactly when the chat handler was attached to it and its
    [close] has not fired, and holds it once.  The chat handler
    registers the Connection as its first effect, its [close] listener
    removes it, and handling a message leaves the registry as it is. *)
Theorem registry_membership evs :
  let st := run evs initial in
  NoDup (connectedClients st)
  /\ (forall c, c ∈ connectedClients st <->
        exists w, conns st !! c = Some w /\ handler w = Some Chat
                  /\ is_closed (ready w) = false)
  /\ (forall c st0, c ∈ connectedClients (handleChatConnection c st0))
  /\ (forall c m o st0,
        connectedClients (handleChatMessage c m o st0) = connectedClients st0)
  /\ (forall c st0, c ∉ connectedClients (handleChatClose c st0)).
Proof.
  destruct (registry_inv_run evs initial registry_inv_initial) as (Hnd & Hmem & _).
  split; [done|]. split; [done|]. split; [|split].
  - intros c st0. simpl. apply elem_of_set_add. by left.
  - intros c m o st0. apply net_clients, handleChatMessage_net.
  - intros c st0. simpl. rewrite elem_of_set_delete. by intros [? _].
Qed.

(** *** The router *)

Lemma upgrade_accept req st :
  truthy (isAuthenticated req) = true ->
  let st' := upgrade req st in
  conns st' = <[next_conn st := routed (req_url req)]> (conns st)
  /\ next_conn st' = S (next_conn st)
  /\ connectedClients st' =
       match route (req_url req) with
       | Some Chat => set_add (next_conn st) (connectedClients st)
       | _ => connectedClients st
       end
  /\ shellProcess st' =
       match route (req_url req) with
       | Some Shell => delete (next_conn st) (shellProcess st)
       | _ => shellProcess st
       end.
Proof.
  intros Hauth. unfold upgrade. rewrite Hauth. simpl.
  unfold on_connection, routed, route.
  destruct (startsWith (units "/shell") (req_url req));
    [|destruct (startsWith (units "/ws") (req_url req))];
    simpl; by rewrite alter_insert_eq.
Qed.

(** No event changes the handler or the path of an existing
    Connection. *)
Lemma step_handler ev st c :
  c < next_conn st ->
  handler <$> conns (step ev st) !! c = handler <$> conns st !! c
  /\ url <$> conns (step ev st) !! c = url <$> conns st !! c
  /\ c < next_conn (step ev st).
Proof.
  intros Hlt.
  destruct (step_net_effect ev st) as [H|H|u Hc Hn Hl|c0 w r Hw Hcl Hr Hc Hn Hl|c0 w Hw Hcl Hc Hn Hl].
  - unfold net in H. injection H as _ Hc Hn _. by rewrite Hc, Hn.
  - unfold net in H. simpl in H. injection H as _ Hc Hn _. by rewrite Hc, Hn.
  - rewrite Hc, Hn, lookup_insert_ne by lia. repeat split; lia.
  - rewrite Hc, Hn. destruct (decide (c = c0)) as [->|Hne].
    + by rewrite lookup_insert_eq, Hw.
    + by rewrite lookup_insert_ne.
  - rewrite Hc, Hn. destruct (decide (c = c0)) as [->|Hne].
    + by rewrite lookup_insert_eq, Hw.
    + by rewrite lookup_insert_ne.
Qed.

Lemma run_handler evs st c :
  c < next_conn st ->
  handler <$> conns (run evs st) !! c = handler <$> conns st !! c
  /\ url <$> conns (run evs st) !! c = url <$> conns st !! c.
Proof.
  revert st; induction evs as [|ev evs IH]; intros st Hlt; [done|].
  rewrite run_cons. destruct (step_handler ev st c Hlt) as (Hh & Hu & Hlt').
  destruct (IH _ Hlt') as [-> ->]. done.
Qed.

(** C9. For an authenticated upgrade the router looks at the path of
    the request, once, and the new Connection [c] gets: the shell handler
    (with an empty process reference) when the path starts with
    [/shell]; otherwise the chat handler, and a place in the registry,
    when the path starts with [/ws]; otherwise no handler at all and an
    immediate [close()], after which its messages reach nobody.  No
    later event changes the handler or the path of [c]. *)
Theorem router_dispatch req st :
  truthy (isAuthenticated req) = true ->
  let c := next_conn st in
  let u := req_url req in
  let st' := step (EvUpgrade req) st in
  (startsWith (units "/shell") u = true ->
     conns st' !! c = Some {| url := u; ready := OPEN; handler := Some Shell |}
     /\ shellProcess st' !! c = None
     /\ connectedClients st' = connectedClients st
     /\ forall m o, step (EvMessage c m o) st' = handleShellMessage c m o st')
  /\ (startsWith (units "/shell") u = false -> startsWith (units "/ws") u = true ->
     conns st' !! c = Some {| url := u; ready := OPEN; handler := Some Chat |}
     /\ connectedClients st' = set_add c (connectedClients st)
     /\ forall m o, step (EvMessage c m o) st' = handleChatMessage c m o st')
  /\ (startsWith (units "/shell") u = false -> startsWith (units "/ws") u = false ->
     conns st' !! c = Some {| url := u; ready := CLOSING; handler := None |}
     /\ connectedClients st' = connectedClients st
     /\ forall m o, step (EvMessage c m o) st' = st')
  /\ (forall evs,
        handler <$> conns (run evs st') !! c = handler <$> conns st' !! c
        /\ url <$> conns (run evs st') !! c = Some u).
Proof.
  intros Hauth c u st'.
  destruct (upgrade_accept req st Hauth) as (Hc & Hn & Hl & Hp).
  fold u in Hc, Hl, Hp. change (upgrade req st) with st' in Hc, Hn, Hl, Hp.
  fold c in Hc, Hn, Hl, Hp.
  assert (Hlook : conns st' !! c = Some (routed u))
    by (by rewrite Hc, lookup_insert_eq).
  unfold routed, route in Hlook. unfold route in Hl, Hp.
  split; [|split; [|split]].
  - intros Hs. rewrite Hs in Hlook, Hl, Hp.
    split; [done|]. split; [by rewrite Hp, lookup_delete_eq|]. split; [done|].
    intros m o. simpl. fold st'. by rewrite Hlook.
  - intros Hs Hw. rewrite Hs, Hw in Hlook, Hl.
    split; [done|]. split; [done|].
    intros m o. simpl. fold st'. by rewrite Hlook.
  - intros Hs Hw. rewrite Hs, Hw in Hlook, Hl.
    split; [done|]. split; [done|].
    intros m o. simpl. fold st'. by rewrite Hlook.
  - intros evs.
    destruct (run_handler evs st' c ltac:(rewrite Hn; unfold c; lia)) as [Hh Hu].
    split; [done|]. rewrite Hu, Hc, lookup_insert_eq. done.
Qed.

(** *** Processes and their references *)







Lemma kills_alter (f : proc -> proc) (ps : gmap nat proc) p q :
  (forall pr, kills (f pr) = kills pr) ->
  kills <$> alter f p ps !! q = kills <$> ps !! q.
Proof.
  intros Hf. destruct (decide (p = q)) as [->|Hne].
  - rewrite lookup_alter_eq. destruct (ps !! q); simpl; by rewrite ?Hf.
  - by rewrite lookup_alter_ne.
Qed.



(** An init whose spawn succeeds stores the new process in the
    reference. *)
Lemma shell_init_spawn c data o st :
  spawn_error o = None ->
  exists cmd,
    pty (shell_init c data o st)
    = pty (set_shellProcess c (Some (next_pid st)) (new_proc c cmd st)).
Proof.
  intros Hs. unfold Gateway.shell_init. rewrite Hs.
  set (st1 := log LLog "Executing shell command:" _).
  assert (H1 : pty st1 = pty st) by (unfold st1; by autorewrite with pty).
  eexists. unfold pty in *. simpl. injection H1 as -> -> ->. reflexivity.
Qed.

Lemma handleShellMessage_init c message o data st :
  JSON_parse message = inr data ->
  is_str (prop data "type") "init" = true ->
  handleShellMessage c message o st
  = shell_init c data o (log LLog "Shell message received:" st).
Proof.
  intros Hparse Htype. unfold Gateway.handleShellMessage. rewrite Hparse.
  destruct data; try discriminate. by rewrite Htype.
Qed.

(** The [close] of a shell Connection signals the process its
    reference holds and no other. *)
Lemma shell_close_procs c w st :
  conns st !! c = Some w ->
  handler w = Some Shell ->
  is_closed (ready w) = false ->
  procs (step (EvClose c) st)
  = match shellProcess st !! c with
    | Some p => alter do_kill p (procs st)
    | None => procs st
    end.
Proof.
  intros Hc Hh Hcl. simpl. rewrite Hc, Hcl, Hh.
  unfold handleShellClose. simpl. by destruct (shellProcess st !! c).
Qed.


(** In any state, the [close] of a shell Connection whose process
    reference holds [p] signals termination to [p], and to no other
    process, whether or not an exit of [p] is still to come; so it does
    when the [close] follows a transport error. *)
Lemma close_kills_referenced c w p pr st :
  conns st !! c = Some w ->
  handler w = Some Shell ->
  is_closed (ready w) = false ->
  shellProcess st !! c = Some p ->
  procs st !! p = Some pr ->
  procs (step (EvClose c) st) !! p = Some (do_kill pr)
  /\ (forall q, q <> p -> procs (step (EvClose c) st) !! q = procs st !! q)
  /\ procs (step (EvClose c) (step (EvError c) st)) !! p = Some (do_kill pr).
Proof.
  intros Hc Hh Hcl Hp Hpr. split; [|split].
  - rewrite (shell_close_procs c w) by done.
    by rewrite Hp, lookup_alter_eq, Hpr.
  - intros q Hq. rewrite (shell_close_procs c w) by done.
    by rewrite Hp, lookup_alter_ne.
  - assert (He : step (EvError c) st
                 = handleShellError c (upd_conn c (set_ready CLOSING) st))
      by (simpl; by rewrite Hc, Hcl, Hh).
    rewrite He.
    rewrite (shell_close_procs c (set_ready CLOSING w)); simpl; try done.
    + by rewrite Hp, lookup_alter_eq, Hpr.
    + by rewrite lookup_alter_eq, Hc.
Qed.

(** An input message changes neither the Connection nor the process
    reference nor the number of signals a process got. *)
Lemma input_step_keeps c w p k message o data st :
  conns st !! c = Some w ->
  handler w = Some Shell ->
  is_closed (ready w) = false ->
  shellProcess st !! c = Some p ->
  kills <$> procs st !! p = Some k ->
  JSON_parse message = inr data ->
  is_str (prop data "type") "input" = true ->
  let st' := step (EvMessage c message o) st in
  conns st' !! c = Some w
  /\ shellProcess st' !! c = Some p
  /\ kills <$> procs st' !! p = Some k.
Proof.
  intros Hc Hh Hcl Hp Hk Hparse Htype. simpl. rewrite Hc, Hcl, Hh.
  rewrite (handleShellMessage_input _ _ _ _ _ Hparse Htype).
  unfold shell_input. simpl. rewrite Hp.
  destruct (write_error o); simpl; [done|].
  split; [done|]. split; [done|]. by rewrite kills_alter.
Qed.

(** The sequence init, input*, close: the process the init spawned is
    signalled by the close, once. *)
Corollary init_inputs_close_kills c w st init o data
    (inputs : list (ustring * oracle * json)) :
  conns st !! c = Some w ->
  handler w = Some Shell ->
  is_closed (ready w) = false ->
  JSON_parse init = inr data ->
  is_str (prop data "type") "init" = true ->
  spawn_error o = None ->
  Forall (fun i => JSON_parse i.1.1 = inr i.2
                   /\ is_str (prop i.2 "type") "input" = true) inputs ->
  let st1 := step (EvMessage c init o) st in
  let st2 := run (map (fun i => EvMessage c i.1.1 i.1.2) inputs) st1 in
  kills <$> procs (step (EvClose c) st2) !! next_pid st = Some 1.
Proof.
  intros Hc Hh Hcl Hparse Htype Hspawn Hinputs st1 st2.
  assert (Hst1 : st1 = shell_init c data o (log LLog "Shell message received:" st)).
  { unfold st1. simpl. rewrite Hc, Hcl, Hh. by apply handleShellMessage_init. }
  destruct (shell_init_spawn c data o (log LLog "Shell message received:" st) Hspawn)
    as [cmd Hpty].
  rewrite <- Hst1 in Hpty. unfold pty in Hpty. simpl in Hpty.
  injection Hpty as Hrefs1 Hps1 _.
  assert (Hc1 : conns st1 !! c = Some w).
  { unfold st1. simpl. rewrite Hc, Hcl, Hh.
    by rewrite (net_conns _ _ (handleShellMessage_net _ _ _ _)). }
  assert (Hp1 : shellProcess st1 !! c = Some (next_pid st))
    by (by rewrite Hrefs1, lookup_insert_eq).
  assert (Hk1 : kills <$> procs st1 !! next_pid st = Some 0)
    by (by rewrite Hps1, lookup_insert_eq).
  assert (Hkeep : conns st2 !! c = Some w
                  /\ shellProcess st2 !! c = Some (next_pid st)
                  /\ kills <$> procs st2 !! next_pid st = Some 0).
  { unfold st2. clear st2 Hst1 Hrefs1 Hps1.
    generalize dependent st1. induction Hinputs as [|i inputs [Hi1 Hi2] _ IH];
      intros st1 Hc1 Hp1 Hk1; [done|].
    cbn [map]. rewrite run_cons. apply IH;
      by eapply (input_step_keeps c w (next_pid st) 0 i.1.1 i.1.2 i.2 st1). }
  destruct Hkeep as (Hc2 & Hp2 & Hk2).
  rewrite (shell_close_procs c w) by done.
  rewrite Hp2, lookup_alter_eq.
  destruct (procs st2 !! next_pid st) as [pr|]; [|done].
  simpl in *. by injection Hk2 as ->.
Qed.

(** What a chunk of process output makes the owner's client receive. *)
Lemma onData_delivers p pr data st :
  procs st !! p = Some pr ->
  exited pr = false ->
  ws_open (owner pr) st = true ->
  outbox (step (EvProcData p data) st) (owner pr)
  = outbox st (owner pr) ++ onData_frames data.
Proof.
  intros Hp Hex Hopen. simpl. rewrite Hp, Hex. unfold onData. rewrite Hopen.
  rewrite outbox_sends by done. by rewrite decide_True.
Qed.

End GatewayProperties.

(** ** The theorems on concrete runs *)

Lemma unauthenticated_upgrade_rejected_witness :
  let st' := Sample.step (EvUpgrade (Sample.anonymous "/ws")) initial in
  sockets st'
  = [{| written := [units "HTTP/1.1 401 Unauthorized" ++ [13; 10; 13; 10]%N];
        destroyed := true;
        upgraded := None |}]
  /\ conns st' = ∅ /\ connectedClients st' = [].
Proof.
  destruct (unauthenticated_upgrade_rejected Sample.parse Sample.to_string Sample.cwd
              (Sample.anonymous "/ws") initial eq_refl)
    as (Hs & Hc & _ & Hl & _).
  split; [exact Hs|]. split; [exact Hc|exact Hl].
Defined.

Lemma malformed_json_reported_witness :
  outbox (Sample.step (EvMessage 0 Sample.frame_truncated Sample.quiet)
            Sample.shell_opened) 0
  = outbox Sample.shell_opened 0
    ++ [MOutput ([13; 10; 27]%N ++ units "[31mError: "
                 ++ units "Unexpected end of JSON input"
                 ++ [27]%N ++ units "[0m" ++ [13; 10]%N)].
Proof.
  refine (proj1 (proj1
    (malformed_json_reported Sample.parse Sample.to_string Sample.cwd
       0 Sample.frame_truncated Sample.quiet
       (units "Unexpected end of JSON input") Sample.shell_opened
       {| url := units "/shell"; ready := OPEN; handler := Some Shell |}
       _ _ _) _)).
  - vm_compute. reflexivity.
  - reflexivity.
  - vm_compute. reflexivity.
  - reflexivity.
Defined.

(** C6 as the spec states it fails: the write to the process throws,
    and the client of the open Connection receives no frame. *)
Lemma input_failure_not_reported :
  let st := Sample.shell_running in
  let st' := Sample.step (EvMessage 0 Sample.frame_input Sample.broken_pipe) st in
  shellProcess st !! 0 = Some 0
  /\ ws_open 0 st = true
  /\ outbox st' 0 = outbox st 0
  /\ stdin <$> procs st' !! 0 = Some []
  /\ console st' = console st ++ [(LLog, "Shell message received:"%string);
                                  (LError, "Error writing to shell:"%string)].
Proof. vm_compute. repeat split. Qed.

Lemma input_forwarded_failure_logged_witness :
  let st := Sample.shell_running in
  let written := Sample.step (EvMessage 0 Sample.frame_input Sample.quiet) st in
  let failed := Sample.step (EvMessage 0 Sample.frame_input Sample.broken_pipe) st in
  stdin <$> procs st !! 0 = Some []
  /\ stdin <$> procs written !! 0 = Some [Some (JStr (units "ls"))]
  /\ procs failed = procs st
  /\ delivered failed = delivered st
  /\ shellProcess failed = shellProcess st.
Proof.
  destruct (input_forwarded_failure_logged Sample.parse Sample.to_string Sample.cwd
              0 Sample.frame_input Sample.quiet
              (JObj [(units "type", JStr (units "input"));
                     (units "data", JStr (units "ls"))])
              0 Sample.first_process Sample.shell_running
              {| url := units "/shell"; ready := OPEN; handler := Some Shell |})
    as (Hw & _).
  1-7: try reflexivity; vm_compute; reflexivity.
  destruct (input_forwarded_failure_logged Sample.parse Sample.to_string Sample.cwd
              0 Sample.frame_input Sample.broken_pipe
              (JObj [(units "type", JStr (units "input"));
                     (units "data", JStr (units "ls"))])
              0 Sample.first_process Sample.shell_running
              {| url := units "/shell"; ready := OPEN; handler := Some Shell |})
    as (_ & Hf & Hd & Hp & _).
  1-7: try reflexivity; vm_compute; reflexivity.
  destruct (Hw eq_refl) as (Hstdin & _).
  destruct (Hf (units "EIO") eq_refl) as (Hprocs & _).
  split; [vm_compute; reflexivity|].
  split; [|split; [exact Hprocs|split; [exact Hd|exact Hp]]].
  etransitivity; [exact (f_equal (fmap stdin) Hstdin)|]. reflexivity.
Defined.

Lemma fanout_reaches_open_members_witness :
  let m := MProjectsUpdated Sample.sample_projects (units "2025-01-01T00:00:00.000Z")
             (units "change") (units "app/session.jsonl") in
  let st' := Sample.step
               (EvProjectsChanged (units "change") (units "app/session.jsonl")
                  (units "2025-01-01T00:00:00.000Z") (inr Sample.sample_projects))
               Sample.two_chats in
  connectedClients Sample.two_chats = [0; 1]
  /\ outbox st' 0 = [m] /\ outbox st' 1 = [].
Proof.
  destruct (fanout_reaches_open_members Sample.parse Sample.to_string Sample.cwd
              (units "change") (units "app/session.jsonl")
              (units "2025-01-01T00:00:00.000Z") Sample.sample_projects
              Sample.two_chats)
    as (Hopen & Hclosed & _).
  - refine (bool_decide_unpack _ _). vm_compute. exact I.
  - split; [vm_compute; reflexivity|]. split.
    + apply (Hopen 0); [refine (bool_decide_unpack _ _); vm_compute; exact I|].
      vm_compute. reflexivity.
    + apply (Hclosed 1); [refine (bool_decide_unpack _ _); vm_compute; exact I|].
      vm_compute. reflexivity.
Defined.

Lemma router_dispatch_witness :
  conns (Sample.step (EvUpgrade (Sample.authenticated "/shell?tab=1")) initial) !! 0
  = Some {| url := units "/shell?tab=1"; ready := OPEN; handler := Some Shell |}.
Proof.
  exact (proj1 (proj1
    (router_dispatch Sample.parse Sample.to_string Sample.cwd
       (Sample.authenticated "/shell?tab=1") initial eq_refl) eq_refl)).
Defined.


(** What a second init on a live process reference leads to.  After
    two inits the first process is still running when the
    Connection closes, and is not signalled; when the first process
    then exits, its exit listener clears the reference that held the
    second process, and the close signals nothing at all while the
    second process runs on. *)
Lemma close_leaves_process_running :
  let st := Sample.run
              [EvUpgrade (Sample.authenticated "/shell");
               EvMessage 0 Sample.frame_init Sample.quiet;
               EvMessage 0 Sample.frame_init Sample.quiet;
               EvClose 0] initial in
  let st' := Sample.run
              [EvUpgrade (Sample.authenticated "/shell");
               EvMessage 0 Sample.frame_init Sample.quiet;
               EvMessage 0 Sample.frame_init Sample.quiet;
               EvProcExit 0 0%Z None;
               EvClose 0] initial in
  (ready <$> conns st !! 0 = Some CLOSED
   /\ procs st !! 0 = Some Sample.first_process)
  /\ (ready <$> conns st' !! 0 = Some CLOSED
      /\ owner <$> procs st' !! 1 = Some 0
      /\ exited <$> procs st' !! 1 = Some false
      /\ kills <$> procs st' !! 1 = Some 0).
Proof. vm_compute. repeat split. Qed.

Lemma close_kills_referenced_witness :
  procs (Sample.step (EvClose 0) Sample.shell_running) !! 0
  = Some (do_kill Sample.first_process).
Proof.
  refine (proj1
    (close_kills_referenced Sample.parse Sample.to_string Sample.cwd
       0 {| url := units "/shell"; ready := OPEN; handler := Some Shell |}
       0 Sample.first_process Sample.shell_running _ _ _ _ _)).
  - vm_compute. reflexivity.
  - reflexivity.
  - reflexivity.
  - vm_compute. reflexivity.
  - vm_compute. reflexivity.
Defined.

(** * Further properties *)

(** ** What the scanner's patterns match *)

Lemma lit_match_split (icase : bool) (l s s' : ustring) :
  lit_match icase l s = Some s' ->
  exists h, s = h ++ s' /\ lit_match icase l h = Some [].
Proof.
  revert s; induction l as [|x l IH]; intros s H; simpl in H.
  - injection H as ->. by exists [].
  - destruct s as [|c s]; [discriminate|].
    destruct (unit_eqb icase x c) eqn:Hx; [|discriminate].
    destruct (IH _ H) as (h & -> & Hh).
    exists (c :: h). split; [done|]. simpl. by rewrite Hx.
Qed.

(** [a*] consumes a run of characters of the class. *)
Lemma star_match_split {A} (icase : bool) (a : atom) (k : kont (A:=A)) cap s x :
  star_match icase a cap s k = Some x ->
  exists u s', s = u ++ s' /\ forallb (atom_match icase a) u = true
               /\ k cap s' = Some x.
Proof.
  induction s as [|c s IH]; simpl; intros H; [by exists [], []|].
  destruct (atom_match icase a c) eqn:Hc; [|by exists [], (c :: s)].
  destruct (star_match icase a cap s k) as [y|] eqn:Hs; [|by exists [], (c :: s)].
  injection H as ->. destruct (IH eq_refl) as (u & s' & -> & Hu & Hk).
  exists (c :: u), s'. split; [done|]. split; [|done]. simpl. by rewrite Hc.
Qed.

(** Before a continuation that cannot fail, [a*] stops only where the
    class stops. *)
Lemma star_match_greedy {A} (icase : bool) (a : atom) (k : kont (A:=A)) cap s x :
  (forall cap s, is_Some (k cap s)) ->
  star_match icase a cap s k = Some x ->
  exists u s', s = u ++ s' /\ forallb (atom_match icase a) u = true
               /\ k cap s' = Some x
               /\ match s' with
                  | [] => True
                  | c :: _ => atom_match icase a c = false
                  end.
Proof.
  intros Hk. induction s as [|c s IH]; simpl; intros H; [by exists [], []|].
  destruct (atom_match icase a c) eqn:Hc; [|by exists [], (c :: s)].
  destruct (star_match icase a cap s k) as [y|] eqn:Hs.
  - injection H as ->. destruct (IH eq_refl) as (u & s' & -> & Hu & Hk' & Hend).
    exists (c :: u), s'. split; [done|]. split; [|done]. simpl. by rewrite Hc.
  - destruct (star_match_total icase a k Hk cap s) as [z Hz]. congruence.
Qed.

(** Whatever a pattern matches is a prefix of the input, and the
    continuation is called on the rest. *)
Lemma rmatch_split {A} (icase : bool) (r : regex) :
  forall (k : kont (A:=A)) cap s x,
  rmatch icase r cap s k = Some x ->
  exists cap' u s', s = u ++ s' /\ k cap' s' = Some x.
Proof.
  induction r as [l|a|a|a|a|r1 IH1 r2 IH2|r1 IH1 r2 IH2|r1 IH1];
    intros k cap s x H; simpl in H.
  - destruct (lit_match icase l s) as [s'|] eqn:Hl; [|discriminate].
    apply lit_match_split in Hl as (h & -> & _). by exists cap, h, s'.
  - destruct s as [|c s]; [discriminate|].
    destruct (atom_match icase a c); [|discriminate]. by exists cap, [c], s.
  - destruct s as [|c s]; [by exists cap, [], []|].
    destruct (atom_match icase a c); [|by exists cap, [], (c :: s)].
    destruct (k cap s) as [y|] eqn:Hk.
    + injection H as ->. by exists cap, [c], s.
    + by exists cap, [], (c :: s).
  - apply star_match_split in H as (u & s' & -> & _ & Hk). by exists cap, u, s'.
  - destruct s as [|c s]; [discriminate|].
    destruct (atom_match icase a c); [|discriminate].
    apply star_match_split in H as (u & s' & -> & _ & Hk).
    by exists cap, (c :: u), s'.
  - apply IH1 in H as (cap1 & u1 & s1 & -> & H).
    apply IH2 in H as (cap2 & u2 & s2 & -> & H).
    exists cap2, (u1 ++ u2), s2. by rewrite <- app_assoc.
  - destruct (rmatch icase r1 cap s k) as [y|] eqn:H1.
    + injection H as ->. by apply IH1 in H1.
    + by apply IH2 in H.
  - apply IH1 in H as (cap' & u & s' & -> & Hk). eauto.
Qed.

(** What the matcher reports is a word of the pattern's language. *)
Lemma rmatch_lang {A} (icase : bool) (r : regex) :
  forall (k : kont (A:=A)) cap s x,
  rmatch icase r cap s k = Some x ->
  exists cap' u s', s = u ++ s' /\ lang icase r u /\ k cap' s' = Some x.
Proof.
  induction r as [l|a|a|a|a|r1 IH1 r2 IH2|r1 IH1 r2 IH2|r1 IH1];
    intros k cap s x H; simpl in H.
  - destruct (lit_match icase l s) as [s'|] eqn:Hl; [|discriminate].
    apply lit_match_split in Hl as (h & -> & Hh). by exists cap, h, s'.
  - destruct s as [|c s]; [discriminate|].
    destruct (atom_match icase a c) eqn:Hc; [|discriminate].
    exists cap, [c], s. simpl. eauto.
  - destruct s as [|c s]; [exists cap, [], []; simpl; eauto|].
    destruct (atom_match icase a c) eqn:Hc;
      [|exists cap, [], (c :: s); simpl; eauto].
    destruct (k cap s) as [y|] eqn:Hk.
    + injection H as ->. exists cap, [c], s. simpl. eauto 6.
    + exists cap, [], (c :: s). simpl. eauto.
  - apply star_match_split in H as (u & s' & -> & Hu & Hk). by exists cap, u, s'.
  - destruct s as [|c s]; [discriminate|].
    destruct (atom_match icase a c) eqn:Hc; [|discriminate].
    apply star_match_split in H as (u & s' & -> & Hu & Hk).
    exists cap, (c :: u), s'. simpl. rewrite Hc. done.
  - apply IH1 in H as (cap1 & u1 & s1 & -> & L1 & H).
    apply IH2 in H as (cap2 & u2 & s2 & -> & L2 & H).
    exists cap2, (u1 ++ u2), s2. rewrite <- app_assoc. simpl. eauto 8.
  - destruct (rmatch icase r1 cap s k) as [y|] eqn:H1.
    + injection H as ->. apply IH1 in H1 as (cap' & u & s' & -> & L & Hk).
      exists cap', u, s'. simpl. eauto.
    + apply IH2 in H as (cap' & u & s' & -> & L & Hk).
      exists cap', u, s'. simpl. eauto.
  - apply IH1 in H as (cap' & u & s' & -> & L & Hk). simpl. eauto 6.
Qed.

(** Before a continuation that cannot fail, a pattern that ends with a
    greedy run stops only where the class stops. *)
Lemma rmatch_stops {A} (icase : bool) (a : atom) (r : regex) :
  ends_with a r ->
  forall (k : kont (A:=A)) cap s x,
  (forall cap s, is_Some (k cap s)) ->
  rmatch icase r cap s k = Some x ->
  exists cap' u s', s = u ++ s' /\ lang icase r u /\ k cap' s' = Some x
                    /\ stops icase a s'.
Proof.
  induction r as [l|b|b|b|b|r1 IH1 r2 IH2|r1 IH1 r2 IH2|r1 IH1];
    simpl; intros He k cap s x Hk H; try done.
  - subst b. apply (star_match_greedy _ _ _ _ _ _ Hk) in H
      as (u & s' & -> & Hu & Hkx & Hend). by exists cap, u, s'.
  - subst b. destruct s as [|c s]; [discriminate|].
    destruct (atom_match icase a c) eqn:Hc; [|discriminate].
    apply (star_match_greedy _ _ _ _ _ _ Hk) in H
      as (u & s' & -> & Hu & Hkx & Hend).
    exists cap, (c :: u), s'. simpl. rewrite Hc. done.
  - apply rmatch_lang in H as (cap1 & u1 & s1 & -> & L1 & H).
    apply (IH2 He _ _ _ _ Hk) in H as (cap2 & u2 & s2 & -> & L2 & H & Hend).
    exists cap2, (u1 ++ u2), s2. rewrite <- app_assoc. eauto 10.
  - destruct He as [He1 He2].
    destruct (rmatch icase r1 cap s k) as [y|] eqn:H1.
    + injection H as ->.
      apply (IH1 He1 _ _ _ _ Hk) in H1 as (cap' & u & s' & -> & L & Hkx & Hend).
      exists cap', u, s'. eauto 6.
    + apply (IH2 He2 _ _ _ _ Hk) in H as (cap' & u & s' & -> & L & Hkx & Hend).
      exists cap', u, s'. eauto 6.
  - apply (IH1 He) in H as (cap' & u & s' & -> & L & Hkx & Hend); [eauto 8|].
    intros; apply Hk.
Qed.

Lemma lit_match_app (icase : bool) (l1 l2 a b : ustring) :
  lit_match icase l1 a = Some [] -> lit_match icase l2 b = Some [] ->
  lit_match icase (l1 ++ l2) (a ++ b) = Some [].
Proof.
  revert a; induction l1 as [|y l1 IH]; intros a Ha Hb.
  - destruct a; [done|discriminate].
  - destruct a as [|c a]; [discriminate|]. simpl in *.
    destruct (unit_eqb icase y c); [|discriminate]. by apply IH.
Qed.

(** A pattern [A W (G)] whose group ends with a greedy run: the
    capture is the text of the group, and the match ends where the run
    ends. *)
Lemma rmatch_prefixed_group {A} (icase : bool) (a : atom) (rA rW rG : regex)
    (k : kont (A:=A)) cap s x :
  ends_with a rG ->
  (forall cap s, is_Some (k cap s)) ->
  rmatch icase (Seq rA (Seq rW (Group rG))) cap s k = Some x ->
  exists uA uW uG s',
    s = uA ++ uW ++ uG ++ s'
    /\ lang icase rA uA /\ lang icase rW uW /\ lang icase rG uG
    /\ k (Some uG) s' = Some x
    /\ stops icase a s'.
Proof.
  intros He Hk H. cbn [rmatch] in H.
  apply rmatch_lang in H as (cap1 & uA & s1 & -> & LA & H).
  apply rmatch_lang in H as (cap2 & uW & s2 & -> & LW & H).
  apply (rmatch_stops icase a rG He) in H
    as (cap3 & uG & s3 & -> & LG & H & Hend); [|intros; apply Hk].
  exists uA, uW, uG, s3. repeat (split; [done|]). split; [|done].
  rewrite length_app in H.
  replace (length uG + length s3 - length s3) with (length uG) in H by lia.
  by rewrite take_app_length in H.
Qed.

(** The words of the URL group. *)
Lemma url_group_lang (icase : bool) (u : ustring) :
  lang icase url_group u ->
  exists scheme rest,
    u = scheme ++ rest
    /\ (lit_match icase (units "http://") scheme = Some []
        \/ lit_match icase (units "https://") scheme = Some [])
    /\ rest <> []
    /\ forallb (atom_match icase url_char) rest = true.
Proof.
  intros (h & t1 & -> & Hh & o & t2 & -> & Ho & c & rest & -> & Hc & Hne & Hrest).
  exists (h ++ o ++ c), rest. split; [by rewrite <- !app_assoc|].
  split; [|done].
  destruct Ho as [->|(x & -> & Hx)].
  - left. by apply (lit_match_app icase (units "http") (units "://")).
  - right. apply (lit_match_app icase (units "http") (115%N :: units "://")); [done|].
    simpl in Hx |- *. rewrite Hx. exact Hc.
Qed.

(** Each of the six patterns is a literal prefix, white space and the
    URL group. *)
Lemma patterns_shape (re : RegExp) :
  re ∈ patterns ->
  exists rA rW, pattern re = Seq rA (Seq rW url_group).
Proof.
  unfold patterns. intros Hin.
  repeat (apply elem_of_cons in Hin as [->|Hin]; [by eexists _, _|]).
  by apply elem_of_nil in Hin.
Qed.

(** One attempt of a scanner pattern: what it spans and captures. *)
Lemma match_here_shape (re : RegExp) (s : ustring) n cap :
  re ∈ patterns ->
  match_here re s = Some (n, cap) ->
  exists lead scheme rest s',
    s = (lead ++ scheme ++ rest) ++ s'
    /\ n = length (lead ++ scheme ++ rest)
    /\ cap = Some (scheme ++ rest)
    /\ (lit_match (ignoreCase re) (units "http://") scheme = Some []
        \/ lit_match (ignoreCase re) (units "https://") scheme = Some [])
    /\ rest <> []
    /\ forallb (atom_match (ignoreCase re) url_char) rest = true
    /\ stops (ignoreCase re) url_char s'.
Proof.
  intros Hin H. destruct (patterns_shape re Hin) as (rA & rW & Hpat).
  unfold match_here in H. rewrite Hpat in H. unfold url_group in H.
  apply (rmatch_prefixed_group (ignoreCase re) url_char) in H
    as (uA & uW & uG & s' & -> & _ & _ & LG & Hk & Hend);
    [|done|by eauto].
  injection Hk as <- <-.
  destruct (url_group_lang _ _ LG) as (scheme & rest & -> & Hs & Hne & Hrest).
  exists (uA ++ uW), scheme, rest, s'.
  split; [by rewrite <- !app_assoc|].
  split; [|done].
  rewrite !length_app. lia.
Qed.

(** Every result of the [exec] loop is an attempt that succeeded at
    its index. *)
Lemma exec_loop_elem (re : RegExp) (s : ustring) :
  forall pos skip m,
  m ∈ exec_loop re pos skip s ->
  exists j n, index m = pos + j
              /\ match_here re (drop j s) = Some (n, m1 m)
              /\ m0 m = take n (drop j s).
Proof.
  induction s as [|c s IH]; intros pos skip m Hin.
  - simpl in Hin. destruct skip; [|by apply elem_of_nil in Hin].
    destruct (match_here re []) as [[n cap]|] eqn:Hm;
      [|by apply elem_of_nil in Hin].
    apply list_elem_of_singleton in Hin as ->.
    exists 0, n. simpl. rewrite Hm. split; [lia|]. split; [done|].
    by destruct n.
  - cbn [exec_loop] in Hin. destruct skip as [|skip].
    + destruct (match_here re (c :: s)) as [[n cap]|] eqn:Hm.
      * apply elem_of_cons in Hin as [->|Hin].
        -- exists 0, n. simpl. split; [lia|done].
        -- destruct (IH _ _ _ Hin) as (j & n' & Hj & Hm' & H0).
           exists (S j), n'. split; [lia|done].
      * destruct (IH _ _ _ Hin) as (j & n' & Hj & Hm' & H0).
        exists (S j), n'. split; [lia|done].
    + destruct (IH _ _ _ Hin) as (j & n' & Hj & Hm' & H0).
      exists (S j), n'. split; [lia|done].
Qed.

(** X1. Every URL the scanner announces is the text of a match inside
    the chunk: it reads [http://] or [https://] followed by at least one
    character, contains no white space, ESC or BEL after the scheme, and
    runs up to the end of the chunk or up to the first such
    character. *)
Theorem announced_url_wellformed (re : RegExp) (data : ustring) (m : exec_result) :
  re ∈ patterns ->
  m ∈ exec_all re data ->
  exists pre lead scheme rest post,
    data = pre ++ m0 m ++ post
    /\ length pre = index m
    /\ m0 m = lead ++ scheme ++ rest
    /\ m1 m = Some (scheme ++ rest)
    /\ (lit_match (ignoreCase re) (units "http://") scheme = Some []
        \/ lit_match (ignoreCase re) (units "https://") scheme = Some [])
    /\ rest <> []
    /\ forallb (atom_match (ignoreCase re) url_char) rest = true
    /\ stops (ignoreCase re) url_char post.
Proof.
  intros Hre Hin. unfold exec_all in Hin.
  destruct (exec_loop_elem _ _ _ _ _ Hin) as (j & n & Hj & Hm & H0).
  destruct (match_here_shape _ _ _ _ Hre Hm)
    as (lead & scheme & rest & s' & Hs & -> & Hcap & Hscheme & Hne & Hrest & Hend).
  rewrite Hs, take_app_length in H0.
  assert (Hlen : j <= length data).
  { destruct (decide (j <= length data)); [done|].
    rewrite drop_ge in Hs by lia.
    destruct lead, scheme, rest; try done; destruct Hscheme; discriminate. }
  exists (take j data), lead, scheme, rest, s'.
  split; [by rewrite H0, <- Hs, take_drop|].
  split; [rewrite length_take; lia|done].
Qed.

Lemma announced_url_wellformed_witness :
  exists pre lead scheme rest post,
    units "see Visit: HTTPS://b.io now" = pre ++ units "Visit: HTTPS://b.io" ++ post
    /\ length pre = 4
    /\ units "Visit: HTTPS://b.io" = lead ++ scheme ++ rest
    /\ Some (units "HTTPS://b.io") = Some (scheme ++ rest)
    /\ (lit_match true (units "http://") scheme = Some []
        \/ lit_match true (units "https://") scheme = Some [])
    /\ rest <> []
    /\ forallb (atom_match true url_char) rest = true
    /\ stops true url_char post.
Proof.
  apply (announced_url_wellformed re_visit (units "see Visit: HTTPS://b.io now")
           {| index := 4; m0 := units "Visit: HTTPS://b.io";
              m1 := Some (units "HTTPS://b.io") |}).
  - unfold patterns. do 3 (apply elem_of_cons; right). apply elem_of_cons. by left.
  - vm_compute. apply elem_of_cons. by left.
Defined.

(** ** The frames of one chunk *)

Lemma scan_matches_sent (re : RegExp) (ms : list exec_result) (st : scan_state) :
  sent (fold_left (scan_match re) ms st)
  = sent st ++ map (fun m => MUrlOpen (m1 m)) ms.
Proof.
  revert st; induction ms as [|m ms IH]; intros st; simpl.
  - by rewrite app_nil_r.
  - rewrite IH. simpl. by rewrite <- app_assoc.
Qed.

Lemma scan_matches_output (re : RegExp) (ms : list exec_result) (st : scan_state) :
  is_sentinel re = false ->
  outputData (fold_left (scan_match re) ms st) = outputData st.
Proof.
  intros Hre. revert st; induction ms as [|m ms IH]; intros st; simpl; [done|].
  rewrite IH. unfold scan_match. simpl. by rewrite Hre.
Qed.

(** X2. For every chunk the callback writes one [url_open] frame per
    match, pattern by pattern in the order of the array and match by
    match in the order of the chunk, and then exactly one output frame;
    when the chunk has no match of the sentinel pattern the output frame
    carries the chunk as it came, whatever the other patterns matched. *)
Theorem frames_of_chunk (data : ustring) :
  exists out,
    onData_frames data
    = map (fun m => MUrlOpen (m1 m)) (concat (occurrences data)) ++ [MOutput out]
    /\ (exec_all re_open_url data = [] -> out = data).
Proof.
  exists (outputData (scan data)). split.
  - unfold onData_frames. f_equal.
    rewrite scan_unfold, !scan_matches_sent.
    unfold occurrences, patterns. cbn [map concat sent].
    rewrite !map_app. cbn [map app]. by rewrite !app_nil_r, <- !app_assoc.
  - intros Hnone. rewrite scan_unfold, Hnone. cbn [fold_left].
    rewrite !scan_matches_output; [done|by vm_compute..].
Qed.

(** ** Processes over whole traces *)

Section GatewayTraces.

Variable JSON_parse : ustring -> ustring + json.
Variable ToString : jsval -> ustring.
Variable cwd : ustring.

Local Notation step := (Gateway.step JSON_parse ToString cwd).
Local Notation run := (Gateway.run JSON_parse ToString cwd).
Local Notation handleShellMessage := (Gateway.handleShellMessage JSON_parse ToString cwd).
Local Notation handleChatMessage := (Gateway.handleChatMessage JSON_parse).
Local Notation shell_init := (Gateway.shell_init ToString cwd).
Local Notation step_effect := (Conformance.step_effect JSON_parse).
Local Notation is_init := (Conformance.is_init JSON_parse).
Local Notation conforming := (Conformance.conforming JSON_parse ToString cwd).
Local Notation conforming_step := (Conformance.conforming_step JSON_parse).

Lemma net_same_conns st st' :
  net st' = net st -> conns st' = conns st /\ next_conn st' = next_conn st.
Proof. unfold net. intros [= _ -> -> _]. done. Qed.

Lemma shell_message_effect c w message o st :
  conns st !! c = Some w ->
  is_closed (ready w) = false ->
  handler w = Some Shell ->
  step_effect st (EvMessage c message o) (handleShellMessage c message o st).
Proof.
  intros Hc Hcl Hh.
  destruct (net_same_conns _ _ (handleShellMessage_net JSON_parse ToString cwd c message o st))
    as [Hconns Hnext].
  unfold Gateway.handleShellMessage in *.
  destruct (JSON_parse message) as [e|data] eqn:Hparse.
  { apply ESame; [done..|apply shell_catch_pty]. }
  assert (Hcases :
    forall st1, pty st1 = pty st -> conns st1 = conns st -> next_conn st1 = next_conn st ->
    forall st',
      st' = (if is_str (prop data "type") "init" then shell_init c data o st1
             else if is_str (prop data "type") "input" then shell_input c data o st1
             else if is_str (prop data "type") "resize" then shell_resize c data o st1
             else st1) ->
      conns st' = conns st -> next_conn st' = next_conn st ->
      step_effect st (EvMessage c message o) st').
  { intros st1 Hpty1 Hconns1 Hnext1 st' -> Hc' Hn'.
    assert (Hrefs1 : shellProcess st1 = shellProcess st) by (by apply pty_shellProcess).
    destruct (is_str (prop data "type") "init") eqn:Hinit.
    - destruct (spawn_error o) as [e|] eqn:Hspawn.
      + apply ESame; [done..|].
        unfold Gateway.shell_init. rewrite Hspawn. by autorewrite with pty.
      + destruct (shell_init_spawn ToString cwd c data o st1 Hspawn) as [cmd Hpty].
        apply (ESpawn _ st c w message o cmd); try done.
        * unfold Conformance.is_init. by rewrite Hparse.
        * rewrite Hpty. unfold pty in *. simpl. by injection Hpty1 as -> -> ->.
    - destruct (is_str (prop data "type") "input") eqn:Hinput.
      + unfold shell_input in *. rewrite Hrefs1 in *.
        destruct (shellProcess st !! c) as [p|] eqn:Hp; [|by apply ESame].
        destruct (write_error o); [by apply ESame|].
        apply (EUse _ st c message o p (do_write (prop data "data"))); try done.
        unfold pty in *. simpl. by injection Hpty1 as -> -> ->.
      + destruct (is_str (prop data "type") "resize") eqn:Hresize; [|by apply ESame].
        unfold shell_resize in *. rewrite Hrefs1 in *.
        destruct (shellProcess st !! c) as [p|] eqn:Hp; [|by apply ESame].
        destruct (resize_error o).
        * apply ESame; [done..|]. by rewrite shell_catch_pty.
        * apply (EUse _ st c message o p
                   (do_resize (prop data "cols") (prop data "rows"))); try done.
          unfold pty in *. simpl. by injection Hpty1 as -> -> ->. }
  destruct data;
    first [ by (apply ESame; [done..|apply shell_catch_pty])
          | by (eapply (Hcases (log LLog "Shell message received:" st)); done) ].
Qed.

Lemma upgrade_procs req st :
  procs (upgrade req st) = procs st /\ next_pid (upgrade req st) = next_pid st.
Proof.
  unfold upgrade, on_connection, handleShellConnection, handleChatConnection.
  repeat case_match; done.
Qed.

(** The joint effect of every event. *)
Lemma step_effect_step ev st : step_effect st ev (step ev st).
Proof.
  destruct ev as [req|c message o|c|c|c|p data|p code sig|a b t pr|c f|c e].
  - destruct (truthy (isAuthenticated req)) eqn:Hauth.
    + destruct (upgrade_accept req st Hauth) as (Hc & Hn & _ & Hp).
      destruct (upgrade_procs req st) as [Hps Hnp].
      apply EAccept; try done.
      destruct (route (req_url req)) as [[|]|]; auto.
    + simpl. unfold upgrade. rewrite Hauth. by apply ESame.
  - simpl. destruct (conns st !! c) as [w|] eqn:Hc; [|by apply ESame].
    destruct (is_closed (ready w)) eqn:Hcl; [by apply ESame|].
    destruct (handler w) as [[|]|] eqn:Hh; [| |by apply ESame].
    + by apply (shell_message_effect c w).
    + destruct (net_same_conns _ _ (handleChatMessage_net JSON_parse c message o st)).
      apply ESame; [done..|apply handleChatMessage_pty].
  - simpl. destruct (conns st !! c) as [w|] eqn:Hc.
    + destruct (is_open (ready w)) eqn:Ho.
      * apply (EReady _ st _ c w CLOSING); try done.
        -- by apply not_open_not_closed.
        -- simpl. rewrite (alter_lookup_Some _ _ _ _ Hc). by rewrite Ho.
      * apply ESame; try done. simpl.
        rewrite (alter_lookup_Some _ _ _ _ Hc), Ho. by rewrite insert_id.
    + apply ESame; try done. simpl. by rewrite alter_lookup_None.
  - simpl. destruct (conns st !! c) as [w|] eqn:Hc; [|by apply ESame].
    destruct (is_closed (ready w)) eqn:Hcl; [by apply ESame|].
    destruct (handler w) as [[|]|]; try by apply ESame.
    apply (EReady _ st _ c w CLOSING); try done.
    simpl. by rewrite (alter_lookup_Some _ _ _ _ Hc).
  - simpl. destruct (conns st !! c) as [w|] eqn:Hc; [|by apply ESame].
    destruct (is_closed (ready w)) eqn:Hcl; [by apply ESame|].
    apply (EClose _ st c w); try done;
      destruct (handler w) as [[|]|]; simpl;
      unfold handleShellClose; simpl;
      try (destruct (shellProcess st !! c)); simpl;
      try done; by rewrite (alter_lookup_Some _ _ _ _ Hc).
  - simpl. destruct (procs st !! p) as [pr|]; [|by apply ESame].
    destruct (exited pr); [by apply ESame|].
    destruct (net_same_conns _ _ (onData_net (owner pr) data st)).
    apply ESame; [done..|apply onData_pty].
  - simpl. destruct (procs st !! p) as [pr|] eqn:Hp; [|by apply ESame].
    destruct (exited pr) eqn:Hex; [by apply ESame|].
    destruct (net_same_conns _ _
                (onExit_net ToString (owner pr) code sig (upd_proc p do_exit st)))
      as [Hc Hn].
    apply (EExit _ st p pr); try done.
    unfold Gateway.onExit.
    case_match; unfold pty; simpl;
      rewrite ?(pty_shellProcess _ _ (ws_send_pty _ _ _)),
              ?(pty_procs _ _ (ws_send_pty _ _ _)),
              ?(pty_next_pid _ _ (ws_send_pty _ _ _)); done.
  - simpl.
    destruct (net_same_conns _ _ (debouncedUpdate_net a b t pr st)).
    apply ESame; [done..|apply debouncedUpdate_pty].
  - destruct (net_same_conns _ _ (step_relay_net JSON_parse ToString cwd c f st)).
    apply ESame; [done..|apply step_relay_pty].
  - destruct (net_same_conns _ _ (step_relay_failed_net JSON_parse ToString cwd c e st)).
    apply ESame; [done..|apply step_relay_failed_pty].
Qed.

Lemma process_inv_initial : process_inv initial.
Proof.
  unfold process_inv. simpl.
  split; [|split; [|split; [|split]]].
  - intros c [w Hw]. by rewrite lookup_empty in Hw.
  - intros p [pr Hp]. by rewrite lookup_empty in Hp.
  - intros c p Hp. by rewrite lookup_empty in Hp.
  - intros p pr Hp. by rewrite lookup_empty in Hp.
  - intros p pr Hp. by rewrite lookup_empty in Hp.
Qed.

Lemma process_inv_step ev st : process_inv st -> process_inv (step ev st).
Proof.
  intros (K & B & R & O & Kl).
  destruct (step_effect_step ev st)
    as [ev st' Hc Hn Hpty
       |req st' Hc Hn Hrefs Hps Hnp
       |ev c w r st' Hw Hcl Hr Hc Hn Hpty
       |c w st' Hw Hcl Hc Hn Hrefs Hps Hnp
       |c w message o cmd st' Hw Hcl Hh Hinit Hc Hn Hpty
       |c message o p f st' Hp Hf Hc Hn Hpty
       |p pr code sig st' Hp Hex Hc Hn Hpty];
    unfold process_inv.
  - (* nothing changes *)
    unfold pty in Hpty. injection Hpty as Hrefs Hps Hnp.
    by rewrite Hc, Hn, Hrefs, Hps, Hnp.
  - (* a new Connection *)
    assert (Hfresh : forall c, is_Some (conns st !! c) -> c <> next_conn st)
      by (intros c Hs%K; lia).
    rewrite Hc, Hn, Hps, Hnp. split; [|split; [done|split; [|split]]].
    + intros c. destruct (decide (c = next_conn st)) as [->|Hne]; [lia|].
      rewrite lookup_insert_ne by done. intros Hs%K. lia.
    + intros c p Hp. apply R.
      destruct Hrefs as [Hrefs|Hrefs]; rewrite Hrefs in Hp; [|done].
      by apply lookup_delete_Some in Hp as [_ Hp].
    + intros p pr Hp. destruct (O p pr Hp) as (w & Hw & Hh).
      exists w. rewrite lookup_insert_ne; [done|]. intros Heq.
      apply (Hfresh (owner pr)); eauto.
    + intros p pr Hp. destruct (Kl p pr Hp) as [Hle Hclosed]. split; [done|].
      intros Hk. destruct (Hclosed Hk) as (w & Hw & Hcw).
      exists w. rewrite lookup_insert_ne; [done|]. intros Heq.
      apply (Hfresh (owner pr)); eauto.
  - (* a change of readyState short of CLOSED *)
    unfold pty in Hpty. injection Hpty as Hrefs Hps Hnp.
    rewrite Hc, Hn, Hrefs, Hps, Hnp. split; [|split; [done|split; [done|split]]].
    + intros c'. destruct (decide (c' = c)) as [->|Hne].
      * intros _. apply K. eauto.
      * rewrite lookup_insert_ne by done. apply K.
    + intros p pr Hp. destruct (O p pr Hp) as (w0 & Hw0 & Hh).
      destruct (decide (owner pr = c)) as [Heq|Hne].
      * rewrite Heq, lookup_insert_eq. rewrite Heq, Hw in Hw0. injection Hw0 as <-.
        by eexists.
      * rewrite lookup_insert_ne by done. eauto.
    + intros p pr Hp. destruct (Kl p pr Hp) as [Hle Hclosed]. split; [done|].
      intros Hk. destruct (Hclosed Hk) as (w0 & Hw0 & Hcw).
      destruct (decide (owner pr = c)) as [Heq|Hne].
      * rewrite Heq, Hw in Hw0. injection Hw0 as <-. congruence.
      * rewrite lookup_insert_ne by done. eauto.
  - (* a close *)
    rewrite Hc, Hn, Hrefs, Hnp.
    assert (Hrec : forall q prq, procs st' !! q = Some prq ->
              exists prq0, procs st !! q = Some prq0
                /\ owner prq = owner prq0 /\ exited prq = exited prq0
                /\ (kills prq = kills prq0
                    \/ (handler w = Some Shell /\ shellProcess st !! c = Some q
                        /\ kills prq = S (kills prq0)))).
    { intros q prq Hq. rewrite Hps in Hq.
      destruct (handler w) as [[|]|] eqn:Hh; [|eauto 8..].
      destruct (shellProcess st !! c) as [p|] eqn:Hp; [|eauto 8].
      destruct (decide (p = q)) as [->|Hne].
      - rewrite lookup_alter_eq in Hq.
        destruct (procs st !! q) as [prq0|]; [|discriminate].
        injection Hq as <-. exists prq0. simpl. eauto 8.
      - rewrite lookup_alter_ne in Hq by done. eauto 8. }
    assert (Hdom : forall q, is_Some (procs st' !! q) -> is_Some (procs st !! q)).
    { intros q [prq Hq]. destruct (Hrec q prq Hq) as (? & ? & _). eauto. }
    assert (Hkeep : forall q prq0, procs st !! q = Some prq0 ->
              exists prq, procs st' !! q = Some prq
                /\ owner prq = owner prq0 /\ exited prq = exited prq0).
    { intros q prq0 Hq. rewrite Hps.
      destruct (handler w) as [[|]|]; [|eauto..].
      destruct (shellProcess st !! c) as [p|]; [|eauto].
      destruct (decide (p = q)) as [->|Hne].
      - rewrite lookup_alter_eq, Hq. simpl. eauto.
      - rewrite lookup_alter_ne by done. eauto. }
    split; [|split; [|split; [|split]]].
    + intros c'. destruct (decide (c' = c)) as [->|Hne].
      * intros _. apply K. eauto.
      * rewrite lookup_insert_ne by done. apply K.
    + intros q Hq. by apply B, Hdom.
    + intros c' q Hq. destruct (R c' q Hq) as (prq0 & Hq0 & Ho & He).
      destruct (Hkeep q prq0 Hq0) as (prq & Hq' & Ho' & He').
      exists prq. split; [done|]. split; congruence.
    + intros q prq Hq. destruct (Hrec q prq Hq) as (prq0 & Hq0 & Ho & _).
      destruct (O q prq0 Hq0) as (w0 & Hw0 & Hh0). rewrite Ho.
      destruct (decide (owner prq0 = c)) as [Heq|Hne].
      * rewrite Heq, lookup_insert_eq. rewrite Heq, Hw in Hw0. injection Hw0 as <-.
        by eexists.
      * rewrite lookup_insert_ne by done. eauto.
    + intros q prq Hq. destruct (Hrec q prq Hq) as (prq0 & Hq0 & Ho & _ & Hk).
      destruct (Kl q prq0 Hq0) as [Hle Hclosed]. rewrite Ho.
      destruct Hk as [Hk|(Hh & Hp & Hk)].
      * rewrite Hk. split; [done|]. intros Hk1.
        destruct (Hclosed Hk1) as (w0 & Hw0 & Hcw).
        destruct (decide (owner prq0 = c)) as [Heq|Hne].
        -- rewrite Heq, lookup_insert_eq. by eexists.
        -- rewrite lookup_insert_ne by done. eauto.
      * destruct (R c q Hp) as (prq1 & Hq1 & Ho1 & _).
        rewrite Hq0 in Hq1. injection Hq1 as <-.
        assert (kills prq0 = 0) as Hzero.
        { destruct (kills prq0) eqn:Hk0; [done|].
          destruct Hclosed as (w0 & Hw0 & Hcw); [lia|].
          rewrite Ho1, Hw in Hw0. injection Hw0 as <-. congruence. }
        rewrite Hk, Hzero. split; [lia|]. intros _.
        rewrite Ho1, lookup_insert_eq. by eexists.
  - (* a spawn *)
    unfold pty in Hpty. simpl in Hpty. injection Hpty as Hrefs Hps Hnp.
    rewrite Hc, Hn, Hrefs, Hps, Hnp. split; [done|split; [|split; [|split]]].
    + intros q. destruct (decide (next_pid st = q)) as [<-|Hne]; [lia|].
      rewrite lookup_insert_ne by done. intros Hq%B. lia.
    + intros c' q Hq. destruct (decide (c = c')) as [<-|Hne].
      * rewrite lookup_insert_eq in Hq. injection Hq as <-.
        rewrite lookup_insert_eq. by eexists.
      * rewrite lookup_insert_ne in Hq by done.
        destruct (R c' q Hq) as (prq & Hq0 & Ho & He).
        exists prq. rewrite lookup_insert_ne; [done|].
        assert (q < next_pid st) by (apply B; eauto). lia.
    + intros q prq Hq. destruct (decide (next_pid st = q)) as [<-|Hne].
      * rewrite lookup_insert_eq in Hq. injection Hq as <-. simpl. eauto.
      * rewrite lookup_insert_ne in Hq by done. eauto.
    + intros q prq Hq. destruct (decide (next_pid st = q)) as [<-|Hne].
      * rewrite lookup_insert_eq in Hq. injection Hq as <-. simpl. split; lia.
      * rewrite lookup_insert_ne in Hq by done. eauto.
  - (* a write or a resize *)
    unfold pty in Hpty. simpl in Hpty. injection Hpty as Hrefs Hps Hnp.
    rewrite Hc, Hn, Hrefs, Hps, Hnp.
    assert (Hrec : forall q prq, alter f p (procs st) !! q = Some prq ->
              exists prq0, procs st !! q = Some prq0
                /\ owner prq = owner prq0 /\ exited prq = exited prq0
                /\ kills prq = kills prq0).
    { intros q prq Hq. destruct (decide (p = q)) as [->|Hne].
      - rewrite lookup_alter_eq in Hq.
        destruct (procs st !! q) as [prq0|]; [|discriminate].
        injection Hq as <-. exists prq0. destruct (Hf prq0) as (? & ? & ?). eauto.
      - rewrite lookup_alter_ne in Hq by done. eauto 8. }
    split; [done|split; [|split; [|split]]].
    + intros q [prq Hq]. destruct (Hrec q prq Hq) as (? & ? & _). apply B. eauto.
    + intros c' q Hq. destruct (R c' q Hq) as (prq0 & Hq0 & Ho & He).
      destruct (decide (p = q)) as [->|Hne].
      * exists (f prq0). rewrite lookup_alter_eq, Hq0.
        destruct (Hf prq0) as (-> & _ & ->). done.
      * exists prq0. by rewrite lookup_alter_ne.
    + intros q prq Hq. destruct (Hrec q prq Hq) as (prq0 & Hq0 & -> & _).
      by apply (O q).
    + intros q prq Hq. destruct (Hrec q prq Hq) as (prq0 & Hq0 & -> & _ & ->).
      by apply (Kl q).
  - (* an exit *)
    unfold pty in Hpty. simpl in Hpty. injection Hpty as Hrefs Hps Hnp.
    rewrite Hc, Hn, Hrefs, Hps, Hnp.
    assert (Hrec : forall q prq, alter do_exit p (procs st) !! q = Some prq ->
              exists prq0, procs st !! q = Some prq0
                /\ owner prq = owner prq0 /\ kills prq = kills prq0).
    { intros q prq Hq. destruct (decide (p = q)) as [->|Hne].
      - rewrite lookup_alter_eq in Hq.
        destruct (procs st !! q) as [prq0|]; [|discriminate].
        injection Hq as <-. exists prq0. eauto.
      - rewrite lookup_alter_ne in Hq by done. eauto 8. }
    split; [done|split; [|split; [|split]]].
    + intros q [prq Hq]. destruct (Hrec q prq Hq) as (? & ? & _). apply B. eauto.
    + intros c' q [Hne Hq]%lookup_delete_Some.
      destruct (R c' q Hq) as (prq0 & Hq0 & Ho & He).
      exists prq0. rewrite lookup_alter_ne; [done|].
      intros ->. rewrite Hp in Hq0. injection Hq0 as <-. done.
    + intros q prq Hq. destruct (Hrec q prq Hq) as (prq0 & Hq0 & -> & _).
      by apply (O q).
    + intros q prq Hq. destruct (Hrec q prq Hq) as (prq0 & Hq0 & -> & ->).
      by apply (Kl q).
Qed.

Lemma process_inv_run evs st : process_inv st -> process_inv (run evs st).
Proof.
  revert st; induction evs as [|ev evs IH]; intros st H; [done|].
  rewrite run_cons. by apply IH, process_inv_step.
Qed.

Lemma live_referenced_step ev st :
  process_inv st -> live_referenced st ->
  conforming_step st ev = true ->
  live_referenced (step ev st).
Proof.
  intros (K & B & R & O & Kl) L Hconf.
  destruct (step_effect_step ev st)
    as [ev st' Hc Hn Hpty
       |req st' Hc Hn Hrefs Hps Hnp
       |ev c w r st' Hw Hcl Hr Hc Hn Hpty
       |c w st' Hw Hcl Hc Hn Hrefs Hps Hnp
       |c w message o cmd st' Hw Hcl Hh Hinit Hc Hn Hpty
       |c message o p f st' Hp Hf Hc Hn Hpty
       |p pr code sig st' Hp Hex Hc Hn Hpty];
    unfold live_referenced.
  - unfold pty in Hpty. injection Hpty as Hrefs Hps Hnp. by rewrite Hrefs, Hps.
  - rewrite Hps. intros q prq Hq Hlive.
    destruct Hrefs as [Hrefs|Hrefs]; rewrite Hrefs; [|by apply L].
    rewrite lookup_delete_ne; [by apply L|].
    destruct (O q prq Hq) as (w & Hw & _).
    assert (owner prq < next_conn st) by (apply K; eauto). lia.
  - unfold pty in Hpty. injection Hpty as Hrefs Hps Hnp. by rewrite Hrefs, Hps.
  - rewrite Hrefs, Hps. intros q prq Hq Hlive.
    destruct (handler w) as [[|]|]; [|by apply L..].
    destruct (shellProcess st !! c) as [p|] eqn:Hp; [|by apply L].
    destruct (decide (p = q)) as [->|Hne].
    + rewrite lookup_alter_eq in Hq.
      destruct (procs st !! q) as [prq0|] eqn:Hq0; [|discriminate].
      injection Hq as <-. simpl in *. by apply L.
    + rewrite lookup_alter_ne in Hq by done. by apply L.
  - unfold pty in Hpty. simpl in Hpty. injection Hpty as Hrefs Hps Hnp.
    rewrite Hrefs, Hps.
    assert (Hnone : shellProcess st !! c = None).
    { simpl in Hconf. rewrite Hinit in Hconf.
      by destruct (shellProcess st !! c). }
    intros q prq Hq Hlive. destruct (decide (next_pid st = q)) as [<-|Hne].
    + rewrite lookup_insert_eq in Hq. injection Hq as <-. simpl.
      by rewrite lookup_insert_eq.
    + rewrite lookup_insert_ne in Hq by done.
      assert (Hold := L q prq Hq Hlive).
      rewrite lookup_insert_ne; [done|]. intros Heq.
      rewrite <- Heq, Hnone in Hold. discriminate.
  - unfold pty in Hpty. simpl in Hpty. injection Hpty as Hrefs Hps Hnp.
    rewrite Hrefs, Hps. intros q prq Hq Hlive.
    destruct (decide (p = q)) as [->|Hne].
    + rewrite lookup_alter_eq in Hq.
      destruct (procs st !! q) as [prq0|] eqn:Hq0; [|discriminate].
      injection Hq as <-. destruct (Hf prq0) as (Ho & _ & He).
      rewrite Ho. apply L; [done|congruence].
    + rewrite lookup_alter_ne in Hq by done. by apply L.
  - unfold pty in Hpty. simpl in Hpty. injection Hpty as Hrefs Hps Hnp.
    rewrite Hrefs, Hps. intros q prq Hq Hlive.
    destruct (decide (p = q)) as [->|Hne].
    + rewrite lookup_alter_eq, Hp in Hq. injection Hq as <-. discriminate.
    + rewrite lookup_alter_ne in Hq by done.
      assert (Hold := L q prq Hq Hlive).
      rewrite lookup_delete_ne; [done|]. intros Heq.
      rewrite <- Heq, (L p pr Hp Hex) in Hold. by injection Hold.
Qed.

Lemma no_orphan_step ev st :
  process_inv st -> live_referenced st -> no_orphan st ->
  no_orphan (step ev st).
Proof.
  intros (K & B & R & O & Kl) L N.
  destruct (step_effect_step ev st)
    as [ev st' Hc Hn Hpty
       |req st' Hc Hn Hrefs Hps Hnp
       |ev c w r st' Hw Hcl Hr Hc Hn Hpty
       |c w st' Hw Hcl Hc Hn Hrefs Hps Hnp
       |c w message o cmd st' Hw Hcl Hh Hinit Hc Hn Hpty
       |c message o p f st' Hp Hf Hc Hn Hpty
       |p pr code sig st' Hp Hex Hc Hn Hpty];
    unfold no_orphan.
  - unfold pty in Hpty. injection Hpty as Hrefs Hps Hnp. by rewrite Hc, Hps.
  - rewrite Hc, Hps. intros q prq w Hq Hw Hcw.
    apply (N q prq w); [done| |done].
    rewrite lookup_insert_ne in Hw; [done|].
    destruct (O q prq Hq) as (w0 & Hw0 & _).
    assert (owner prq < next_conn st) by (apply K; eauto). lia.
  - unfold pty in Hpty. injection Hpty as Hrefs Hps Hnp.
    rewrite Hc, Hps. intros q prq w0 Hq Hw0 Hcw.
    destruct (decide (owner prq = c)) as [Heq|Hne].
    + rewrite Heq, lookup_insert_eq in Hw0. injection Hw0 as <-. simpl in Hcw.
      congruence.
    + rewrite lookup_insert_ne in Hw0 by done. by apply (N q prq w0).
  - rewrite Hc, Hps. intros q prq w0 Hq Hw0 Hcw.
    assert (Hcase : exists prq0, procs st !! q = Some prq0
              /\ owner prq = owner prq0 /\ exited prq = exited prq0
              /\ kills prq0 <= kills prq
              /\ (handler w = Some Shell -> shellProcess st !! c = Some q ->
                  1 <= kills prq)).
    { destruct (handler w) as [[|]|] eqn:Hh;
        [|exists prq; repeat split; try done..].
      destruct (shellProcess st !! c) as [p|] eqn:Hp;
        [|exists prq; repeat split; try done].
      destruct (decide (p = q)) as [->|Hne].
      - rewrite lookup_alter_eq in Hq.
        destruct (procs st !! q) as [prq0|]; [|discriminate].
        injection Hq as <-. exists prq0. simpl. repeat split; try done; lia.
      - rewrite lookup_alter_ne in Hq by done.
        exists prq. repeat split; try done. intros _ [= ?]. done. }
    destruct Hcase as (prq0 & Hq0 & Ho & He & Hk & Hkill).
    rewrite Ho in Hw0. rewrite He.
    destruct (decide (owner prq0 = c)) as [Heq|Hne].
    + destruct (exited prq0) eqn:Hex0; [by left|]. right.
      destruct (O q prq0 Hq0) as (w1 & Hw1 & Hh1).
      rewrite Heq, Hw in Hw1. injection Hw1 as <-.
      apply Hkill; [done|]. rewrite <- Heq. by apply L.
    + rewrite lookup_insert_ne in Hw0 by done.
      destruct (N q prq0 w0 Hq0 Hw0 Hcw) as [?|?]; [by left|right; lia].
  - unfold pty in Hpty. simpl in Hpty. injection Hpty as Hrefs Hps Hnp.
    rewrite Hc, Hps. intros q prq w0 Hq Hw0 Hcw.
    destruct (decide (next_pid st = q)) as [<-|Hne].
    + rewrite lookup_insert_eq in Hq. injection Hq as <-. simpl in *.
      rewrite Hw in Hw0. injection Hw0 as <-. congruence.
    + rewrite lookup_insert_ne in Hq by done. by apply (N q prq w0).
  - unfold pty in Hpty. simpl in Hpty. injection Hpty as Hrefs Hps Hnp.
    rewrite Hc, Hps. intros q prq w0 Hq Hw0 Hcw.
    destruct (decide (p = q)) as [->|Hne].
    + rewrite lookup_alter_eq in Hq.
      destruct (procs st !! q) as [prq0|] eqn:Hq0; [|discriminate].
      injection Hq as <-. destruct (Hf prq0) as (Ho & Hk & He).
      rewrite Ho in Hw0. rewrite Hk, He. by apply (N q prq0 w0).
    + rewrite lookup_alter_ne in Hq by done. by apply (N q prq w0).
  - unfold pty in Hpty. simpl in Hpty. injection Hpty as Hrefs Hps Hnp.
    rewrite Hc, Hps. intros q prq w0 Hq Hw0 Hcw.
    destruct (decide (p = q)) as [->|Hne].
    + rewrite lookup_alter_eq, Hp in Hq. injection Hq as <-. by left.
    + rewrite lookup_alter_ne in Hq by done. by apply (N q prq w0).
Qed.

Lemma conforming_run evs st :
  conforming st evs = true ->
  process_inv st -> live_referenced st -> no_orphan st ->
  live_referenced (run evs st) /\ no_orphan (run evs st).
Proof.
  revert st; induction evs as [|ev evs IH]; intros st Hconf P L N; [done|].
  simpl in Hconf. apply andb_prop in Hconf as [Hstep Hrest].
  rewrite run_cons. apply IH; [done|..].
  - by apply process_inv_step.
  - by apply live_referenced_step.
  - by apply no_orphan_step.
Qed.



(** A Connection whose [close] has fired stays closed. *)
Lemma closed_step ev st c w :
  process_inv st ->
  conns st !! c = Some w -> is_closed (ready w) = true ->
  exists w', conns (step ev st) !! c = Some w' /\ is_closed (ready w') = true.
Proof.
  intros (K & _) Hw Hcw.
  destruct (step_effect_step ev st)
    as [ev st' Hc Hn Hpty
       |req st' Hc Hn Hrefs Hps Hnp
       |ev c0 w0 r st' Hw0 Hcl Hr Hc Hn Hpty
       |c0 w0 st' Hw0 Hcl Hc Hn Hrefs Hps Hnp
       |c0 w0 message o cmd st' Hw0 Hcl Hh Hinit Hc Hn Hpty
       |c0 message o p f st' Hp Hf Hc Hn Hpty
       |p pr code sig st' Hp Hex Hc Hn Hpty];
    rewrite Hc; eauto.
  - assert (c < next_conn st) by (apply K; eauto).
    rewrite lookup_insert_ne by lia. eauto.
  - destruct (decide (c0 = c)) as [->|Hne]; [congruence|].
    rewrite lookup_insert_ne by done. eauto.
  - destruct (decide (c0 = c)) as [->|Hne]; [congruence|].
    rewrite lookup_insert_ne by done. eauto.
Qed.

Lemma closed_run evs st c w :
  process_inv st ->
  conns st !! c = Some w -> is_closed (ready w) = true ->
  exists w', conns (run evs st) !! c = Some w' /\ is_closed (ready w') = true.
Proof.
  revert st w; induction evs as [|ev evs IH]; intros st w P Hw Hcw; [eauto|].
  rewrite run_cons.
  destruct (closed_step ev st c w P Hw Hcw) as (w' & Hw' & Hcw').
  apply (IH _ w'); [by apply process_inv_step|done..].
Qed.





(** X4. When the client keeps to the protocol (no [init] on a
    Connection whose process reference holds a process), no process
    outlives its Connection unnoticed: in every state of such a trace a
    process of a Connection whose [close] has fired has exited or has
    been signalled. *)
Theorem no_orphan_when_conforming evs p pr w :
  conforming initial evs = true ->
  let st := run evs initial in
  procs st !! p = Some pr ->
  conns st !! owner pr = Some w ->
  is_closed (ready w) = true ->
  exited pr = true \/ kills pr = 1.
Proof.
  intros Hconf st Hp Hw Hcw.
  assert (Hinv : process_inv st) by apply process_inv_run, process_inv_initial.
  destruct (conforming_run evs initial Hconf process_inv_initial) as [_ N].
  - intros q prq Hq. simpl in Hq. by rewrite lookup_empty in Hq.
  - intros q prq w0 Hq. simpl in Hq. by rewrite lookup_empty in Hq.
  - destruct (N p pr w Hp Hw Hcw) as [?|Hk]; [by left|right].
    destruct Hinv as (_ & _ & _ & _ & Kl). destruct (Kl p pr Hp) as [Hle _]. lia.
Qed.

(** X5. In every state the gateway reaches, a process reference holds
    a process that the handler of that very Connection spawned and that
    has not exited: input and resize requests never go to a process of
    another Connection or to a process that is gone. *)
Theorem reference_holds_own_running_process evs c p :
  let st := run evs initial in
  shellProcess st !! c = Some p ->
  exists pr, procs st !! p = Some pr /\ owner pr = c /\ exited pr = false.
Proof.
  intros st Hp.
  destruct (process_inv_run evs initial process_inv_initial) as (_ & _ & R & _).
  by apply R.
Qed.

(** X6. In every state the gateway reaches, every process belongs to a
    shell Connection, has been signalled at most once, and has been
    signalled only if the [close] of its Connection has fired. *)
Theorem process_signalled_once_on_close evs p pr :
  let st := run evs initial in
  procs st !! p = Some pr ->
  (exists w, conns st !! owner pr = Some w /\ handler w = Some Shell
             /\ (1 <= kills pr -> is_closed (ready w) = true))
  /\ kills pr <= 1.
Proof.
  intros st Hp.
  destruct (process_inv_run evs initial process_inv_initial) as (_ & _ & _ & O & Kl).
  destruct (O p pr Hp) as (w & Hw & Hh). destruct (Kl p pr Hp) as [Hle Hclosed].
  split; [|done]. exists w. split; [done|]. split; [done|].
  intros Hk. destruct (Hclosed Hk) as (w' & Hw' & Hcw). congruence.
Qed.

(** X7. A message on one Connection, and the [close] of one Connection,
    leave every process of every other Connection exactly as it
    was. *)
Theorem other_connections_processes_untouched evs c message o p pr :
  let st := run evs initial in
  procs st !! p = Some pr ->
  owner pr <> c ->
  procs (step (EvMessage c message o) st) !! p = Some pr
  /\ procs (step (EvClose c) st) !! p = Some pr.
Proof.
  intros st Hp Hown.
  destruct (process_inv_run evs initial process_inv_initial) as (_ & B & R & _).
  fold st in B, R.
  assert (Hnot : forall q, shellProcess st !! c = Some q -> q <> p).
  { intros q Hq ->. destruct (R c p Hq) as (pr' & Hp' & Ho & _). congruence. }
  split.
  - remember (EvMessage c message o) as ev eqn:Hev.
    destruct (step_effect_step ev st)
      as [ev st' Hc Hn Hpty
         |req st' Hc Hn Hrefs Hps Hnp
         |ev c0 w r st' Hw Hcl Hr Hc Hn Hpty
         |c0 w st' Hw Hcl Hc Hn Hrefs Hps Hnp
         |c0 w message0 o0 cmd st' Hw Hcl Hh Hinit Hc Hn Hpty
         |c0 message0 o0 q f st' Hq Hf Hc Hn Hpty
         |q prq code sig st' Hq Hex Hc Hn Hpty];
      try discriminate;
      try (unfold pty in Hpty; simpl in Hpty; injection Hpty as Hrefs Hps Hnp;
           rewrite Hps).
    + done.
    + done.
    + rewrite lookup_insert_ne; [done|].
      assert (p < next_pid st) by (apply B; eauto). lia.
    + injection Hev as -> _ _. rewrite lookup_alter_ne; [done|]. by apply Hnot.
  - remember (EvClose c) as ev eqn:Hev.
    destruct (step_effect_step ev st)
      as [ev st' Hc Hn Hpty
         |req st' Hc Hn Hrefs Hps Hnp
         |ev c0 w r st' Hw Hcl Hr Hc Hn Hpty
         |c0 w st' Hw Hcl Hc Hn Hrefs Hps Hnp
         |c0 w message0 o0 cmd st' Hw Hcl Hh Hinit Hc Hn Hpty
         |c0 message0 o0 q f st' Hq Hf Hc Hn Hpty
         |q prq code sig st' Hq Hex Hc Hn Hpty];
      try discriminate;
      try (unfold pty in Hpty; simpl in Hpty; injection Hpty as Hrefs Hps' Hnp;
           rewrite Hps').
    + done.
    + done.
    + injection Hev as ->. rewrite Hps.
      destruct (handler w) as [[|]|]; [|done..].
      destruct (shellProcess st !! c) as [q|] eqn:Hq; [|done].
      rewrite lookup_alter_ne; [done|]. by apply Hnot.
Qed.

End GatewayTraces.

(** ** The handlers, case by case *)

Section GatewayCases.

Variable JSON_parse : ustring -> ustring + json.
Variable ToString : jsval -> ustring.
Variable cwd : ustring.

Local Notation step := (Gateway.step JSON_parse ToString cwd).
Local Notation run := (Gateway.run JSON_parse ToString cwd).
Local Notation welcome_banner := (Gateway.welcome_banner ToString).
Local Notation exit_banner := (Gateway.exit_banner ToString).

(** X8. In every state the gateway reaches, a Notification Event is
    delivered to a Connection exactly when it is a chat Connection whose
    socket is open: shell Connections, rejected paths and chat
    Connections that are closing or closed receive nothing. *)
Theorem fanout_reaches_exactly_open_chats evs eventType changedFile timestamp
    projects c w :
  let st := run evs initial in
  let m := MProjectsUpdated projects timestamp eventType changedFile in
  let st' := step (EvProjectsChanged eventType changedFile timestamp (inr projects)) st in
  conns st !! c = Some w ->
  outbox st' c =
    match handler w, ready w with
    | Some Chat, OPEN => outbox st c ++ [m]
    | _, _ => outbox st c
    end.
Proof.
  intros st m st' Hw.
  destruct (registry_inv_run JSON_parse ToString cwd evs initial registry_inv_initial)
    as (Hnd & Hmem & _).
  fold st in Hnd, Hmem. unfold st'. simpl.
  rewrite fanout_outbox by done.
  rewrite (ws_open_lookup _ _ _ Hw).
  destruct (decide (c ∈ connectedClients st)) as [Hin|Hnin].
  - apply Hmem in Hin as (w' & Hw' & Hh & Hcl).
    rewrite Hw in Hw'. injection Hw' as <-.
    rewrite Hh. by destruct (ready w).
  - destruct (handler w) as [[|]|] eqn:Hh; try by destruct (is_open (ready w)).
    destruct (ready w) eqn:Hr; try done.
    exfalso. apply Hnin, Hmem. exists w. by rewrite Hr.
Qed.


(** X10. The exit of a process clears the process reference of its
    Connection, marks the process as gone and, when the socket is open,
    delivers the exit banner; the Connection itself, the registry and
    every other process are untouched. *)
Theorem process_exit_clears_reference p pr exitCode signal st :
  procs st !! p = Some pr ->
  exited pr = false ->
  let st' := step (EvProcExit p exitCode signal) st in
  shellProcess st' = delete (owner pr) (shellProcess st)
  /\ procs st' = <[p := do_exit pr]> (procs st)
  /\ net st' = net st
  /\ outbox st' (owner pr)
     = (if ws_open (owner pr) st
        then outbox st (owner pr) ++ [MOutput (exit_banner exitCode signal)]
        else outbox st (owner pr)).
Proof.
  intros Hp Hex. simpl. rewrite Hp, Hex. unfold Gateway.onExit.
  change (ws_open (owner pr) (log LLog "Shell process exited with code:"
                                (upd_proc p do_exit st)))
    with (ws_open (owner pr) st).
  destruct (ws_open (owner pr) st) eqn:Ho; simpl.
  - rewrite (pty_shellProcess _ _ (ws_send_pty _ _ _)),
            (pty_procs _ _ (ws_send_pty _ _ _)). simpl.
    split; [done|]. split; [by apply alter_lookup_Some|].
    split; [by autorewrite with net|].
    unfold outbox at 1. simpl. fold (outbox (ws_send (owner pr)
      (MOutput (exit_banner exitCode signal))
      (log LLog "Shell process exited with code:" (upd_proc p do_exit st))) (owner pr)).
    rewrite outbox_ws_send, decide_True by done.
    change (ws_open (owner pr) (log LLog "Shell process exited with code:"
                                  (upd_proc p do_exit st)))
      with (ws_open (owner pr) st).
    by rewrite Ho.
  - split; [done|]. split; [by apply alter_lookup_Some|]. done.
Qed.

(** An [abort-session] on an open chat Connection is answered on
    that Connection with a [session-aborted] frame that carries the
    session identifier of the request and the result of the capability,
    whatever that result is; nothing else changes. *)
Theorem chat_abort_answered c w message o data st :
  conns st !! c = Some w ->
  handler w = Some Chat ->
  ready w = OPEN ->
  JSON_parse message = inr data ->
  is_str (prop data "type") "abort-session" = true ->
  let st' := step (EvMessage c message o) st in
  outbox st' c
  = outbox st c ++ [MSessionAborted (prop data "sessionId") (abort_result o)]
  /\ net st' = net st
  /\ pty st' = pty st.
Proof.
  intros Hc Hh Hr Hparse Htype. simpl. rewrite Hc, Hr, Hh. simpl.
  assert (Hopen : ws_open c st = true) by (by rewrite (ws_open_lookup _ _ _ Hc), Hr).
  split; [|split; [apply handleChatMessage_net|apply handleChatMessage_pty]].
  unfold Gateway.handleChatMessage. rewrite Hparse.
  assert (Hcmd : is_str (prop data "type") "claude-command" = false)
    by (apply (is_str_excl _ _ _ Htype); vm_compute; discriminate).
  destruct data; try discriminate. rewrite Hcmd, Htype.
  rewrite outbox_ws_send, decide_True by done.
  by rewrite ws_open_log, Hopen, outbox_log.
Qed.

(** X12. A message whose JSON text is the literal [null] is not dropped:
    reading its [type] throws, and the handler reports that like a parse
    failure, as an error frame on a chat Connection and as an error
    banner on a shell Connection, leaving everything else as it
    was. *)
Theorem null_message_reported c w message o st :
  conns st !! c = Some w ->
  ready w = OPEN ->
  JSON_parse message = inr JNull ->
  let st' := step (EvMessage c message o) st in
  (handler w = Some Shell ->
     outbox st' c = outbox st c ++ [MOutput (error_banner null_type_error)])
  /\ (handler w = Some Chat ->
     outbox st' c = outbox st c ++ [MError null_type_error])
  /\ net st' = net st
  /\ pty st' = pty st.
Proof.
  intros Hc Hr Hparse. simpl. rewrite Hc, Hr. simpl.
  assert (Hopen : ws_open c st = true) by (by rewrite (ws_open_lookup _ _ _ Hc), Hr).
  split; [|split].
  - intros ->. unfold Gateway.handleShellMessage. rewrite Hparse.
    unfold shell_catch. rewrite ws_open_log, Hopen.
    rewrite outbox_ws_send, decide_True by done.
    by rewrite ws_open_log, Hopen, outbox_log.
  - intros ->. unfold Gateway.handleChatMessage. rewrite Hparse.
    unfold chat_catch. rewrite outbox_ws_send, decide_True by done.
    by rewrite ws_open_log, Hopen, outbox_log.
  - destruct (handler w) as [[|]|]; [| |done].
    + split; [apply handleShellMessage_net|].
      unfold Gateway.handleShellMessage. rewrite Hparse. apply shell_catch_pty.
    + split; [apply handleChatMessage_net|apply handleChatMessage_pty].
Qed.

(** A well-formed message whose [type] is none of those the
    handler knows is ignored without any answer: a shell Connection
    only logs its receipt, a chat Connection does nothing at all. *)
Theorem unknown_type_ignored c w message o data st :
  conns st !! c = Some w ->
  is_closed (ready w) = false ->
  JSON_parse message = inr data ->
  data <> JNull ->
  let st' := step (EvMessage c message o) st in
  (handler w = Some Shell ->
   is_str (prop data "type") "init" = false ->
   is_str (prop data "type") "input" = false ->
   is_str (prop data "type") "resize" = false ->
   st' = log LLog "Shell message received:" st)
  /\ (handler w = Some Chat ->
      is_str (prop data "type") "claude-command" = false ->
      is_str (prop data "type") "abort-session" = false ->
      st' = st).
Proof.
  intros Hc Hcl Hparse Hnull. simpl. rewrite Hc, Hcl. split.
  - intros -> H1 H2 H3. unfold Gateway.handleShellMessage. rewrite Hparse.
    destruct data; try done; by rewrite H1, H2, H3.
  - intros -> H1 H2. unfold Gateway.handleChatMessage. rewrite Hparse.
    destruct data; try done; by rewrite H1, H2.
Qed.

(** X13. The chunks a running process writes reach the client of its
    open Connection in the order the process wrote them, each one as its
    [url_open] frames followed by its output frame, and reach no other
    client. *)
Theorem chunks_delivered_in_order p pr (chunks : list ustring) st :
  procs st !! p = Some pr ->
  exited pr = false ->
  ws_open (owner pr) st = true ->
  let st' := run (map (EvProcData p) chunks) st in
  outbox st' (owner pr)
  = outbox st (owner pr) ++ concat (map onData_frames chunks)
  /\ (forall c, c <> owner pr -> outbox st' c = outbox st c)
  /\ net st' = net st
  /\ pty st' = pty st.
Proof.
  intros Hp Hex Hopen. revert st Hp Hopen.
  induction chunks as [|d chunks IH]; intros st Hp Hopen.
  - simpl. by rewrite app_nil_r.
  - cbn [map]. rewrite run_cons.
    assert (Hstep : step (EvProcData p d) st = onData (owner pr) d st)
      by (simpl; by rewrite Hp, Hex).
    assert (Hnet := onData_net (owner pr) d st).
    assert (Hpty := onData_pty (owner pr) d st).
    rewrite Hstep.
    destruct (IH (onData (owner pr) d st)) as (Hout & Hothers & Hnet' & Hpty').
    { by rewrite (pty_procs _ _ Hpty). }
    { by rewrite (ws_open_net _ _ _ Hnet). }
    split; [|split; [|split]].
    + rewrite Hout. unfold onData. rewrite Hopen.
      rewrite outbox_sends, decide_True by done.
      cbn [map concat]. by rewrite <- !app_assoc.
    + intros c Hne. rewrite Hothers by done.
      unfold onData. rewrite Hopen. rewrite outbox_sends by done.
      by rewrite decide_False.
    + by rewrite Hnet'.
    + by rewrite Hpty'.
Qed.

End GatewayCases.

(** ** The sentinel rewriting for any URL *)

Lemma lit_match_prefix (icase : bool) (l u s' : ustring) :
  lit_match icase l u = Some [] -> lit_match icase l (u ++ s') = Some s'.
Proof.
  revert u; induction l as [|x l IH]; intros u H.
  - destruct u; [done|discriminate].
  - destruct u as [|c u]; [discriminate|]. simpl in *.
    destruct (unit_eqb icase x c); [|discriminate]. by apply IH.
Qed.

Lemma star_match_some {A} (icase : bool) (a : atom) (k : kont (A:=A)) cap s :
  is_Some (k cap s) -> is_Some (star_match icase a cap s k).
Proof.
  intros Hk. destruct s as [|c s]; simpl; [done|].
  destruct (atom_match icase a c); [|done].
  destruct (star_match icase a cap s k); [eauto|done].
Qed.

Lemma star_match_complete {A} (icase : bool) (a : atom) (k : kont (A:=A)) cap u s' :
  forallb (atom_match icase a) u = true ->
  is_Some (k cap s') ->
  is_Some (star_match icase a cap (u ++ s') k).
Proof.
  intros Hu Hk. induction u as [|c u IH]; [by apply star_match_some|].
  simpl in Hu |- *. apply andb_prop in Hu as [Hc Hu]. rewrite Hc.
  destruct (IH Hu) as [x ->]. eauto.
Qed.

(** Wherever a word of the pattern starts, the matcher finds a
    match. *)
Lemma rmatch_complete {A} (icase : bool) (r : regex) :
  forall (k : kont (A:=A)) cap u s',
  lang icase r u ->
  (forall cap', is_Some (k cap' s')) ->
  is_Some (rmatch icase r cap (u ++ s') k).
Proof.
  induction r as [l|a|a|a|a|r1 IH1 r2 IH2|r1 IH1 r2 IH2|r1 IH1];
    intros k cap u s' L Hk; simpl in L |- *.
  - by rewrite (lit_match_prefix _ _ _ s' L).
  - destruct L as (c & -> & Hc). simpl. by rewrite Hc.
  - destruct L as [->|(c & -> & Hc)]; simpl.
    + destruct s' as [|c s]; [apply Hk|].
      destruct (atom_match icase a c); [|apply Hk].
      destruct (k cap s); [eauto|apply Hk].
    + rewrite Hc. destruct (k cap s') eqn:Hks; [eauto|].
      destruct (Hk cap) as [y Hy]. congruence.
  - by apply star_match_complete.
  - destruct L as [Hne Hu]. destruct u as [|c u]; [done|].
    simpl in Hu |- *. apply andb_prop in Hu as [Hc Hu]. rewrite Hc.
    by apply star_match_complete.
  - destruct L as (u1 & u2 & -> & L1 & L2). rewrite <- app_assoc.
    apply IH1; [done|]. intros cap'. by apply IH2.
  - destruct L as [L|L].
    + destruct (IH1 k cap u s' L Hk) as [x ->]. eauto.
    + destruct (rmatch icase r1 cap (u ++ s') k); [eauto|]. by apply IH2.
  - apply IH1; [done|]. intros cap'. apply Hk.
Qed.

(** The text of a match is a word of the pattern. *)
Lemma match_here_lang (re : RegExp) (s : ustring) n cap :
  match_here re s = Some (n, cap) ->
  lang (ignoreCase re) (pattern re) (take n s) /\ n <= length s.
Proof.
  unfold match_here. intros H.
  apply rmatch_lang in H as (cap' & u & s' & -> & L & Hk).
  injection Hk as <- _. rewrite length_app.
  replace (length u + length s' - length s') with (length u) by lia.
  rewrite take_app_length. split; [done|lia].
Qed.

Lemma match_here_complete (re : RegExp) (u s' : ustring) :
  lang (ignoreCase re) (pattern re) u -> is_Some (match_here re (u ++ s')).
Proof. intros L. unfold match_here. apply rmatch_complete; eauto. Qed.

(** X3. For every chunk whose only pattern occurrence is one match of
    the sentinel pattern, with a URL that holds no dollar sign, the
    callback writes the [url_open] frame of that URL and then the chunk
    in which exactly the matched text has given way to the confirmation
    string; what stands before and after the match is forwarded as it
    came. *)
Theorem sentinel_rewritten_any_url (data : ustring) (m : exec_result) (u : ustring) :
  occurrences data = [ []; [m]; []; []; []; [] ] ->
  m1 m = Some u ->
  forallb (fun c => negb (c =? 36)%N) u = true ->
  exists pre post,
    data = pre ++ m0 m ++ post
    /\ length pre = index m
    /\ onData_frames data
       = [ MUrlOpen (Some u); MOutput (pre ++ confirmation (Some u) ++ post) ].
Proof.
  intros Hocc Hu Hplain.
  apply occurrences_inv in Hocc as (H1 & H2 & H3 & H4 & H5 & H6).
  assert (Hin : m ∈ exec_loop re_open_url 0 0 data)
    by (fold (exec_all re_open_url data); rewrite H2; apply elem_of_cons; by left).
  destruct (exec_loop_elem _ _ _ _ _ Hin) as (j & n & Hj & Hm & H0).
  simpl in Hj. subst j.
  destruct (match_here_lang _ _ _ _ Hm) as [L Hn]. rewrite <- H0 in L.
  destruct (exec_loop_leftmost _ _ _ _ _ H2) as (j & Hj & Hnone).
  simpl in Hj. subst j.
  assert (Hlen : index m <= length data).
  { destruct (decide (index m <= length data)); [done|].
    rewrite drop_ge in Hm by lia.
    apply (match_here_nonempty re_open_url) in Hm; [simpl in Hm; lia|].
    unfold patterns. apply elem_of_cons. right. apply elem_of_cons. by left. }
  set (pre := take (index m) data).
  set (post := drop n (drop (index m) data)).
  assert (Hdata : data = pre ++ m0 m ++ post).
  { unfold pre, post. by rewrite H0, take_drop, take_drop. }
  assert (Hpre : length pre = index m) by (unfold pre; rewrite length_take; lia).
  exists pre, post. split; [done|]. split; [done|].
  unfold onData_frames. rewrite scan_unfold, H1, H2, H3, H4, H5, H6.
  cbn [fold_left]. unfold scan_match. cbn [sent outputData app].
  assert (Hs : is_sentinel re_open_url = true) by (vm_compute; reflexivity).
  rewrite Hs, Hu. do 2 f_equal. f_equal.
  rewrite Hdata at 1. apply replace_first.
  - intros i Hi. rewrite <- Hdata.
    destruct (startsWith (m0 m) (drop i data)) eqn:Hst; [|done].
    apply startsWith_app in Hst as [rest Hrest].
    assert (Hsome := match_here_complete re_open_url (m0 m) rest L).
    rewrite <- Hrest, Hnone in Hsome by lia. by destruct Hsome.
  - unfold confirmation, interpolate. rewrite !forallb_app, Hplain.
    by vm_compute.
Qed.

Lemma sentinel_rewritten_any_url_witness :
  exists pre post,
    units "run OPEN_URL: https://a.io/b?c=1 ok"
      = pre ++ units "OPEN_URL: https://a.io/b?c=1" ++ post
    /\ length pre = 4
    /\ onData_frames (units "run OPEN_URL: https://a.io/b?c=1 ok")
       = [ MUrlOpen (Some (units "https://a.io/b?c=1"));
           MOutput (pre ++ confirmation (Some (units "https://a.io/b?c=1")) ++ post) ].
Proof.
  apply (sentinel_rewritten_any_url (units "run OPEN_URL: https://a.io/b?c=1 ok")
           {| index := 4; m0 := units "OPEN_URL: https://a.io/b?c=1";
              m1 := Some (units "https://a.io/b?c=1") |}).
  - vm_compute. reflexivity.
  - reflexivity.
  - vm_compute. reflexivity.
Defined.

(** ** The sentinel example of the spec *)

Lemma star_match_stop {A} (icase : bool) (a : atom) (k : kont (A:=A)) cap s :
  stops icase a s -> star_match icase a cap s k = k cap s.
Proof.
  destruct s as [|c s]; [done|]. simpl. by intros ->.
Qed.

(** A run of the class that stops is taken whole. *)
Lemma star_match_run {A} (icase : bool) (a : atom) (k : kont (A:=A)) cap u s' x :
  forallb (atom_match icase a) u = true ->
  stops icase a s' ->
  k cap s' = Some x ->
  star_match icase a cap (u ++ s') k = Some x.
Proof.
  intros Hu Hstop Hk. induction u as [|c u IH].
  - simpl. by rewrite star_match_stop.
  - simpl in Hu |- *. apply andb_prop in Hu as [Hc Hu].
    by rewrite Hc, (IH Hu).
Qed.

Lemma rmatch_lit {A} (icase : bool) (l l' s : ustring) (k : kont (A:=A)) cap :
  lit_match icase l l' = Some [] ->
  rmatch icase (Lit l) cap (l' ++ s) k = k cap s.
Proof.
  intros H. simpl. by rewrite (lit_match_prefix _ _ _ s H).
Qed.

Lemma rmatch_opt_skip {A} (icase : bool) (a : atom) (s : ustring) (k : kont (A:=A)) cap :
  stops icase a s -> rmatch icase (Opt a) cap s k = k cap s.
Proof.
  destruct s as [|c s]; [done|]. simpl. by intros ->.
Qed.

Lemma rmatch_plus_run {A} (icase : bool) (a : atom) (k : kont (A:=A)) cap u s' x :
  u <> [] ->
  forallb (atom_match icase a) u = true ->
  stops icase a s' ->
  k cap s' = Some x ->
  rmatch icase (Plus a) cap (u ++ s') k = Some x.
Proof.
  intros Hne Hu Hstop Hk. destruct u as [|c u]; [done|].
  simpl in Hu |- *. apply andb_prop in Hu as [Hc Hu]. rewrite Hc.
  by apply star_match_run.
Qed.

Lemma group_capture (u s' : ustring) :
  take (length (u ++ s') - length s') (u ++ s') = u.
Proof.
  rewrite length_app.
  replace (length u + length s' - length s') with (length u) by lia.
  apply take_app_length.
Qed.

(** Where the sentinel text stands and the URL stops after it, the
    sentinel pattern matches just that text and captures just that
    URL. *)
Lemma sentinel_match_exact (post : ustring) :
  stops false url_char post ->
  match_here re_open_url (units "OPEN_URL:http://example.com/x" ++ post)
  = Some (29, Some (units "http://example.com/x")).
Proof.
  intros Hstop.
  unfold match_here.
  assert (Hlen : length (units "OPEN_URL:http://example.com/x" ++ post)
                 = 29 + length post) by (by rewrite length_app).
  rewrite Hlen.
  change (units "OPEN_URL:http://example.com/x" ++ post)
    with (units "OPEN_URL:" ++ units "http" ++ units "://"
          ++ units "example.com/x" ++ post).
  unfold re_open_url, url_group, space.
  cbn [pattern ignoreCase].
  change (rmatch false (Seq ?r1 ?r2) ?cap ?s ?k)
    with (rmatch false r1 cap s (fun cap' s' => rmatch false r2 cap' s' k)).
  rewrite rmatch_lit by (vm_compute; reflexivity).
  change (rmatch false (Seq ?r1 ?r2) ?cap ?s ?k)
    with (rmatch false r1 cap s (fun cap' s' => rmatch false r2 cap' s' k)).
  change (rmatch false (Star ?a) ?cap ?s ?k) with (star_match false a cap s k).
  rewrite star_match_stop by (vm_compute; reflexivity).
  change (rmatch false (Group ?r1) ?cap ?s ?k)
    with (rmatch false r1 cap s
            (fun _ s' => k (Some (take (length s - length s') s)) s')).
  change (rmatch false (Seq ?r1 ?r2) ?cap ?s ?k)
    with (rmatch false r1 cap s (fun cap' s' => rmatch false r2 cap' s' k)).
  rewrite rmatch_lit by (vm_compute; reflexivity).
  change (rmatch false (Seq ?r1 ?r2) ?cap ?s ?k)
    with (rmatch false r1 cap s (fun cap' s' => rmatch false r2 cap' s' k)).
  rewrite rmatch_opt_skip by (vm_compute; reflexivity).
  change (rmatch false (Seq ?r1 ?r2) ?cap ?s ?k)
    with (rmatch false r1 cap s (fun cap' s' => rmatch false r2 cap' s' k)).
  rewrite rmatch_lit by (vm_compute; reflexivity).
  apply rmatch_plus_run; [by vm_compute|by vm_compute|done|].
  f_equal. f_equal; [lia|]. f_equal.
  change (units "http" ++ units "://" ++ units "example.com/x" ++ post)
    with (units "http://example.com/x" ++ post).
  apply group_capture.
Qed.

(** C3, as the code has it.  Take a chunk in which the text
    [OPEN_URL:http://example.com/x] stands at some place, followed by
    the end of the chunk or by a white space, ESC or BEL character, and
    in which the one match of the sentinel pattern, at that place, is
    the only occurrence of any of the six patterns.  The callback
    writes exactly one [url_open] frame, with the url
    [http://example.com/x], and then one output frame: the chunk in
    which that text has given way to the globe sign (the surrogate pair
    D83C DF10) and [ Opening in browser: http://example.com/x], every
    code unit before and after it unchanged. *)
Theorem sentinel_chunk_rewritten (pre post : ustring) (m : exec_result) :
  occurrences (pre ++ units "OPEN_URL:http://example.com/x" ++ post)
    = [ []; [m]; []; []; []; [] ] ->
  index m = length pre ->
  post = []
  \/ (exists c rest, post = c :: rest
                     /\ (is_space c = true \/ c = 27%N \/ c = 7%N)) ->
  onData_frames (pre ++ units "OPEN_URL:http://example.com/x" ++ post)
  = [ MUrlOpen (Some (units "http://example.com/x"));
      MOutput (pre
               ++ ([55356; 57104]%N
                   ++ units " Opening in browser: http://example.com/x")
               ++ post) ].
Proof.
  intros Hocc Hindex Hpost.
  set (text := units "OPEN_URL:http://example.com/x") in *.
  set (data := pre ++ text ++ post) in *.
  assert (Hstop : stops false url_char post).
  { destruct Hpost as [->|(c & rest & -> & Hc)]; [done|].
    simpl. destruct Hc as [Hc|[->| ->]]; [by rewrite Hc|done..]. }
  apply occurrences_inv in Hocc as (H1 & H2 & H3 & H4 & H5 & H6).
  assert (Hin : m ∈ exec_loop re_open_url 0 0 data)
    by (fold (exec_all re_open_url data); rewrite H2; apply elem_of_cons; by left).
  destruct (exec_loop_elem _ _ _ _ _ Hin) as (j & n & Hj & Hm & H0).
  simpl in Hj. rewrite Hindex in Hj. subst j.
  unfold data in Hm, H0. rewrite drop_app_length in Hm, H0.
  unfold text in Hm. rewrite (sentinel_match_exact post Hstop) in Hm.
  injection Hm as <- Hcap.
  assert (Hm0 : m0 m = text) by (by rewrite H0).
  destruct (exec_loop_leftmost _ _ _ _ _ H2) as (j & Hj & Hnone).
  simpl in Hj. rewrite Hindex in Hj. subst j.
  unfold onData_frames. rewrite scan_unfold, H1, H2, H3, H4, H5, H6.
  cbn [fold_left]. unfold scan_match. cbn [sent outputData app].
  assert (Hs : is_sentinel re_open_url = true) by (vm_compute; reflexivity).
  rewrite Hs, <- Hcap, Hm0. do 2 f_equal. f_equal.
  unfold data. rewrite replace_first; [reflexivity| |vm_compute; reflexivity].
  intros i Hi. specialize (Hnone i Hi).
  destruct (startsWith text (drop i (pre ++ text ++ post))) eqn:Hst; [|reflexivity].
  apply startsWith_app in Hst as [rest Hrest].
  fold data in Hrest. rewrite Hrest in Hnone.
  unfold text in Hnone.
  assert (Hsome : is_Some (match_here re_open_url
                             (units "OPEN_URL:http://example.com/x" ++ rest))).
  { apply sentinel_matches. apply startsWith_prefix. }
  rewrite Hnone in Hsome. by destruct Hsome.
Qed.

(** The sentinel text before a space, after other text. *)
Lemma sentinel_chunk_rewritten_witness :
  onData_frames (units "see OPEN_URL:http://example.com/x ok")
  = [ MUrlOpen (Some (units "http://example.com/x"));
      MOutput (units "see "
               ++ ([55356; 57104]%N
                   ++ units " Opening in browser: http://example.com/x")
               ++ units " ok") ].
Proof.
  refine (sentinel_chunk_rewritten (units "see ") (units " ok")
            {| index := 4; m0 := units "OPEN_URL:http://example.com/x";
               m1 := Some (units "http://example.com/x") |} _ _ _).
  - vm_compute. reflexivity.
  - reflexivity.
  - right. exists 32%N, (units "ok"). split; [reflexivity|]. left. reflexivity.
Defined.

(** C3 as the spec states it fails: the chunk holds the bytes
    [OPEN_URL:http://example.com/x] and no other pattern occurrence,
    but they are followed by [yz], which the pattern takes for more of
    the URL; the url announced is [http://example.com/xyz], and the
    whole of the chunk gives way to the notice. *)
Lemma sentinel_url_runs_on :
  let data := units "OPEN_URL:http://example.com/xyz" in
  data = units "OPEN_URL:http://example.com/x" ++ units "yz"
  /\ occurrences data
     = [ []; [ {| index := 0; m0 := data;
                  m1 := Some (units "http://example.com/xyz") |} ];
         []; []; []; [] ]
  /\ onData_frames data
     = [ MUrlOpen (Some (units "http://example.com/xyz"));
         MOutput ([55356; 57104]%N
                  ++ units " Opening in browser: http://example.com/xyz") ]
  /\ onData_frames data
     <> [ MUrlOpen (Some (units "http://example.com/x"));
          MOutput ([55356; 57104]%N
                   ++ units " Opening in browser: http://example.com/x"
                   ++ units "yz") ].
Proof. vm_compute. repeat split. discriminate. Qed.



(** ** Paths *)

Lemma ustring_eqb_refl (a : ustring) : ustring_eqb a a = true.
Proof.
induction a as [|x a IH]; [done|].
simpl. by rewrite N.eqb_refl.
Qed.

Lemma split_nonempty (sep : N) (s : ustring) : Path.split sep s <> [].
Proof.
induction s as [|c s IH]; [done|].
simpl. destruct (c =? sep)%N; [done|].
by destruct (Path.split sep s).
Qed.

(** Splitting at a separator splits the list of segments. *)
Lemma split_app (sep : N) (a b : ustring) :
  Path.split sep (a ++ sep :: b) = Path.split sep a ++ Path.split sep b.
Proof.
induction a as [|c a IH]; simpl.
- by rewrite N.eqb_refl.
- destruct (c =? sep)%N; [by rewrite IH|].
  rewrite IH.
  pose proof (split_nonempty sep a) as Hne.
  by destruct (Path.split sep a).
Qed.

Lemma split_nosep (s : ustring) :
  Forall (fun seg => Path.nosep seg = true) (Path.split Path.SLASH s).
Proof.
induction s as [|c s IH]; simpl.
- by constructor.
- destruct (c =? Path.SLASH)%N eqn:Hc.
  + by constructor.
  + pose proof (split_nonempty Path.SLASH s) as Hne.
    destruct (Path.split Path.SLASH s) as [|seg rest]; [done|].
    inversion IH as [|? ? Hseg Hrest]; subst.
    constructor; [|done].
    unfold Path.nosep. simpl. fold (Path.nosep seg).
    by rewrite Hc, Hseg.
Qed.

Lemma split_one (seg : ustring) :
  Path.nosep seg = true -> Path.split Path.SLASH seg = [seg].
Proof.
induction seg as [|c seg IH]; [done|].
unfold Path.nosep. simpl. fold (Path.nosep seg).
intros [Hc Hseg]%andb_prop.
apply negb_true_iff in Hc. rewrite Hc.
by rewrite (IH Hseg).
Qed.

Lemma clean_nosep (seg : ustring) :
  Path.clean_segment seg = true -> Path.nosep seg = true.
Proof.
destruct seg as [|c seg]; [done|].
unfold Path.clean_segment.
by intros [_ H]%andb_prop.
Qed.

(** Joining segments that hold no separator and splitting again gives
    the segments back. *)
Lemma split_join (segs : list ustring) :
  segs <> [] -> Forall (fun seg => Path.nosep seg = true) segs ->
  Path.split Path.SLASH (Path.join [Path.SLASH] segs) = segs.
Proof.
induction segs as [|x rest IH]; [done|].
intros _ Hall. inversion Hall as [|? ? Hx Hrest]; subst.
destruct rest as [|y rest].
- simpl. by apply split_one.
- change (Path.join [Path.SLASH] (x :: y :: rest))
    with (x ++ Path.SLASH :: Path.join [Path.SLASH] (y :: rest)).
  rewrite split_app, (split_one x Hx), IH by done.
  done.
Qed.

Lemma normalize_step_clean (acc : list ustring) (seg : ustring) :
  Forall (fun s => Path.clean_segment s = true) acc ->
  Path.nosep seg = true ->
  Forall (fun s => Path.clean_segment s = true) (Path.normalize_step false acc seg).
Proof.
intros Hacc Hseg.
unfold Path.normalize_step.
destruct seg as [|c seg]; [done|].
destruct (ustring_eqb (c :: seg) [Path.DOT]) eqn:Hdot; [done|].
destruct (ustring_eqb (c :: seg) Path.dotdot) eqn:Hdd.
- destruct (last acc) as [l|]; [|by constructor].
  destruct (ustring_eqb l Path.dotdot); [done|].
  destruct acc as [|a acc] using rev_ind; [done|].
  rewrite removelast_last.
  by apply Forall_app in Hacc as [? _].
- apply Forall_app. split; [done|].
  constructor; [|done].
  unfold Path.clean_segment. by rewrite Hdot, Hdd, Hseg.
Qed.

Lemma normalize_fold_clean (segs acc : list ustring) :
  Forall (fun s => Path.clean_segment s = true) acc ->
  Forall (fun seg => Path.nosep seg = true) segs ->
  Forall (fun s => Path.clean_segment s = true)
    (fold_left (Path.normalize_step false) segs acc).
Proof.
revert acc. induction segs as [|seg segs IH]; intros acc Hacc Hsegs; [done|].
inversion Hsegs; subst. simpl.
apply IH; [|done]. by apply normalize_step_clean.
Qed.

(** Below the root, [normalizeString] leaves only proper segments. *)
Lemma normalize_segments_clean (path : ustring) :
  Forall (fun s => Path.clean_segment s = true) (Path.normalize_segments false path).
Proof.
apply normalize_fold_clean; [done|apply split_nosep].
Qed.

Lemma normalize_step_keep (acc : list ustring) (seg : ustring) :
  Path.clean_segment seg = true ->
  Path.normalize_step false acc seg = acc ++ [seg].
Proof.
destruct seg as [|c seg]; [done|].
unfold Path.clean_segment, Path.normalize_step.
intros [[Hdot Hdd]%andb_prop _]%andb_prop.
apply negb_true_iff in Hdot, Hdd.
by rewrite Hdot, Hdd.
Qed.

(** Proper segments and empty ones: the proper ones are kept in order. *)
Lemma normalize_fold_keep (segs acc : list ustring) :
  Forall (fun s => s = [] \/ Path.clean_segment s = true) segs ->
  fold_left (Path.normalize_step false) segs acc
  = acc ++ filter (fun s => s <> []) segs.
Proof.
revert acc. induction segs as [|seg segs IH]; intros acc Hsegs; simpl.
- by rewrite app_nil_r.
- inversion Hsegs as [|? ? Hseg Hrest]; subst.
  rewrite IH by done.
  destruct Hseg as [->|Hseg].
  + rewrite filter_cons_False by (by intros H; apply H). done.
  + rewrite normalize_step_keep by done.
    rewrite filter_cons_True by (by destruct seg).
    by rewrite <- app_assoc.
Qed.

Lemma join_split (s : ustring) :
  Path.join [Path.SLASH] (Path.split Path.SLASH s) = s.
Proof.
induction s as [|c s IH]; [done|].
simpl. pose proof (split_nonempty Path.SLASH s) as Hne.
destruct (c =? Path.SLASH)%N eqn:Hc.
- apply N.eqb_eq in Hc as ->.
  destruct (Path.split Path.SLASH s) as [|seg rest]; [done|].
  by rewrite <- IH.
- destruct (Path.split Path.SLASH s) as [|seg rest]; [done|].
  rewrite <- IH. by destruct rest.
Qed.

Lemma join_app (a b : list ustring) :
  a <> [] -> b <> [] ->
  Path.join [Path.SLASH] (a ++ b)
  = Path.join [Path.SLASH] a ++ Path.SLASH :: Path.join [Path.SLASH] b.
Proof.
intros Ha Hb.
induction a as [|x a IH]; [done|].
destruct a as [|y a].
- simpl. by destruct b.
- change (Path.join [Path.SLASH] ((x :: y :: a) ++ b))
    with (x ++ Path.SLASH :: Path.join [Path.SLASH] ((y :: a) ++ b)).
  rewrite IH by done.
  change (Path.join [Path.SLASH] (x :: y :: a))
    with (x ++ Path.SLASH :: Path.join [Path.SLASH] (y :: a)).
  by rewrite <- app_assoc.
Qed.

Lemma filter_clean (segs : list ustring) :
  Forall (fun s => Path.clean_segment s = true) segs ->
  filter (fun s => s <> []) segs = segs.
Proof.
induction segs as [|seg segs IH]; intros Hall; [done|].
inversion Hall as [|? ? Hseg Hrest]; subst.
rewrite filter_cons_True by (by destruct seg).
f_equal. by apply IH.
Qed.

(** An absolute path in normal form, with or without a separator at its
    end, is what [normalizeString] makes of it. *)
Lemma normalize_normal (segs : list ustring) :
  Forall (fun s => Path.clean_segment s = true) segs -> segs <> [] ->
  Path.normalize_segments false
    (Path.SLASH :: Path.join [Path.SLASH] segs ++ [Path.SLASH]) = segs.
Proof.
intros Hclean Hne.
unfold Path.normalize_segments.
change (Path.SLASH :: Path.join [Path.SLASH] segs ++ [Path.SLASH])
  with ([] ++ Path.SLASH :: (Path.join [Path.SLASH] segs ++ Path.SLASH :: [])).
rewrite !split_app, split_join; [|done|].
2: { eapply Forall_impl; [exact Hclean|]. apply clean_nosep. }
rewrite normalize_fold_keep.
- simpl. rewrite filter_cons_False by (by intros H; apply H).
  rewrite filter_app, filter_clean by done.
  rewrite filter_cons_False by (by intros H; apply H).
  by rewrite filter_nil, app_nil_r.
- constructor; [by left|].
  apply Forall_app. split.
  + eapply Forall_impl; [exact Hclean|]. by right.
  + constructor; [by left|done].
Qed.

(** [path.resolve(dir, p)] for an absolute [dir]. *)
Lemma resolve_two (cwd dir p : ustring) :
  Path.isAbsolute dir = true ->
  Path.resolve cwd [dir; p]
  = Path.SLASH :: Path.normalizeString
      (match p with
       | [] => dir ++ [Path.SLASH]
       | _ :: _ =>
           if Path.isAbsolute p then p ++ [Path.SLASH]
           else dir ++ Path.SLASH :: p ++ [Path.SLASH]
       end) false.
Proof.
intros Hdir.
destruct dir as [|d dir]; [done|].
simpl in Hdir.
unfold Path.resolve. simpl rev.
destruct p as [|c p].
- simpl. by rewrite Hdir.
- simpl. destruct (c =? Path.SLASH)%N eqn:Hp.
  + done.
  + by rewrite Hdir.
Qed.

Lemma after_app (pre l : list ustring) : Files.after pre (pre ++ l) = Some l.
Proof.
induction pre as [|x pre IH]; simpl; [by destruct l|].
by rewrite ustring_eqb_refl.
Qed.

(** What an accepted path looks like: the project directory and the
    path are both in normal form, and the path goes on after the
    directory and a separator. *)
Lemma safe_path_shape (cwd dir : ustring) (p : jsval) (r : ustring) :
  Path.isAbsolute dir = true ->
  Files.getSafeFilePath cwd (inr dir) p = inr r ->
  exists dsegs segs,
    Forall (fun s => Path.clean_segment s = true) (dsegs ++ segs)
    /\ segs <> []
    /\ Path.split Path.SLASH dir = [] :: dsegs
    /\ Path.split Path.SLASH r = [] :: dsegs ++ segs
    /\ r = Path.SLASH :: Path.join [Path.SLASH] (dsegs ++ segs)
    /\ startsWith (dir ++ [Path.SLASH]) r = true.
Proof.
intros Hdir Hsafe.
unfold Files.getSafeFilePath in Hsafe.
destruct p as [[| | |[|c rel]| |]|]; try done.
destruct (startsWith (dir ++ [Path.SLASH]) (Path.resolve cwd [dir; c :: rel]))
  eqn:Hstart; [|done].
simpl in Hsafe. injection Hsafe as <-.
rewrite resolve_two in * by done.
set (x := if Path.isAbsolute (c :: rel) then _ else _) in *.
pose proof (normalize_segments_clean x) as Hclean.
unfold Path.normalizeString in *.
set (rsegs := Path.normalize_segments false x) in *.
apply startsWith_app in Hstart as [rest Hrest].
destruct dir as [|d dir]; [done|].
simpl in Hdir. apply N.eqb_eq in Hdir as ->.
simpl in Hrest. injection Hrest as Hrest.
rewrite <- app_assoc in Hrest. simpl in Hrest.
assert (rsegs <> []) as Hne.
{ intros E. rewrite E in Hrest. simpl in Hrest. by destruct dir. }
assert (Path.split Path.SLASH (Path.join [Path.SLASH] rsegs) = rsegs) as Hsplit.
{ apply split_join; [done|].
  eapply Forall_impl; [exact Hclean|]. apply clean_nosep. }
rewrite Hrest, split_app in Hsplit.
exists (Path.split Path.SLASH dir), (Path.split Path.SLASH rest).
rewrite Hsplit.
split; [done|].
split; [apply split_nonempty|].
split; [done|].
split.
- simpl. f_equal.
  apply split_join; [done|].
  eapply Forall_impl; [exact Hclean|]. apply clean_nosep.
- split; [done|].
  rewrite Hrest. simpl.
  replace (dir ++ Path.SLASH :: rest) with ((dir ++ [Path.SLASH]) ++ rest)
    by (by rewrite <- app_assoc).
  apply startsWith_prefix.
Qed.

(** ** The path check *)

Lemma forallb_Forall {A} (f : A -> bool) (l : list A) :
  Forall (fun x => f x = true) l -> forallb f l = true.
Proof.
induction 1 as [|x l Hx _ IH]; [done|].
simpl. by rewrite Hx, IH.
Qed.

Lemma inside_after (dir r : ustring) (dsegs segs : list ustring) :
  Forall (fun s => Path.clean_segment s = true) (dsegs ++ segs) ->
  segs <> [] ->
  Path.split Path.SLASH dir = [] :: dsegs ->
  Path.split Path.SLASH r = [] :: dsegs ++ segs ->
  Files.inside dir r = true.
Proof.
intros Hclean Hne Hd Hr.
unfold Files.inside.
rewrite Hd, Hr.
change ([] :: dsegs ++ segs) with (([] :: dsegs) ++ segs).
rewrite after_app.
destruct segs as [|seg segs]; [done|].
apply Forall_app in Hclean as [_ Hclean].
by apply forallb_Forall.
Qed.

(** X14. An accepted path lies inside the project directory: its segments
    are those of the directory followed by at least one proper segment,
    so no [..] is left in it to climb out again. *)
Theorem safe_path_inside_project (cwd dir : ustring) (p : jsval) (r : ustring) :
  Path.isAbsolute dir = true ->
  Files.getSafeFilePath cwd (inr dir) p = inr r ->
  Files.inside dir r = true.
Proof.
intros Hdir Hsafe.
destruct (safe_path_shape cwd dir p r Hdir Hsafe)
  as (dsegs & segs & Hclean & Hne & Hd & Hr & _ & _).
by apply (inside_after dir r dsegs segs).
Qed.

(** X15. For an absolute project directory, an accepted path, sent
    again as the path of a request, is accepted unchanged. *)
Theorem safe_path_fixpoint (cwd dir : ustring) (p : jsval) (r : ustring) :
  Path.isAbsolute dir = true ->
  Files.getSafeFilePath cwd (inr dir) p = inr r ->
  Files.getSafeFilePath cwd (inr dir) (Some (JStr r)) = inr r.
Proof.
intros Hdir Hsafe.
destruct (safe_path_shape cwd dir p r Hdir Hsafe)
  as (dsegs & segs & Hclean & Hne & Hd & Hr & Hshape & Hstart).
assert (dsegs ++ segs <> []) as Hne' by (by destruct dsegs, segs).
subst r.
set (j := Path.join [Path.SLASH] (dsegs ++ segs)) in *.
assert (Path.resolve cwd [dir; Path.SLASH :: j] = Path.SLASH :: j) as Hres.
{ rewrite resolve_two by done.
  change (Path.isAbsolute (Path.SLASH :: j)) with true. cbv iota.
  unfold Path.normalizeString. subst j.
  change ((Path.SLASH :: Path.join [Path.SLASH] (dsegs ++ segs)) ++ [Path.SLASH])
    with (Path.SLASH :: Path.join [Path.SLASH] (dsegs ++ segs) ++ [Path.SLASH]).
  by rewrite normalize_normal. }
unfold Files.getSafeFilePath.
by rewrite Hres, Hstart.
Qed.

(** X16. For an absolute project directory, paths are accepted only
    when the directory is itself in normal form: with a directory such
    as [/] or one written with a separator at its end, every request is
    refused. *)
Theorem project_directory_must_be_normal (cwd dir : ustring) (p : jsval)
    (r : ustring) :
  Path.isAbsolute dir = true ->
  Files.getSafeFilePath cwd (inr dir) p = inr r ->
  Path.resolve cwd [dir] = dir.
Proof.
intros Hdir Hsafe.
destruct (safe_path_shape cwd dir p r Hdir Hsafe)
  as (dsegs & segs & Hclean & Hne & Hd & _ & _ & Hstart).
apply Forall_app in Hclean as [Hclean _].
destruct dir as [|d dir]; [done|].
simpl in Hdir. apply N.eqb_eq in Hdir as ->.
simpl in Hd. injection Hd as Hd.
assert (dir = Path.join [Path.SLASH] dsegs) as Hjoin
  by (by rewrite <- Hd, join_split).
assert (dsegs <> []) as Hne' by (rewrite <- Hd; apply split_nonempty).
unfold Path.resolve. simpl.
unfold Path.normalizeString.
rewrite Hjoin.
by rewrite normalize_normal.
Qed.

Lemma resolve_relative (cwd dir p : ustring) :
  Path.isAbsolute dir = true -> p <> [] -> Path.isAbsolute p = false ->
  Path.resolve cwd [dir; p]
  = Path.SLASH :: Path.normalizeString (dir ++ Path.SLASH :: p ++ [Path.SLASH]) false.
Proof.
intros Hdir Hne Hp.
rewrite resolve_two by done.
destruct p as [|c p]; [done|].
by rewrite Hp.
Qed.

Lemma getSafeFilePath_string (cwd dir p : ustring) :
  p <> [] ->
  Files.getSafeFilePath cwd (inr dir) (Some (JStr p))
  = if negb (startsWith (dir ++ [Path.SLASH]) (Path.resolve cwd [dir; p]))
    then inl Files.denied
    else inr (Path.resolve cwd [dir; p]).
Proof.
by destruct p.
Qed.

(** X17. A relative path of proper segments is accepted under a project
    directory in normal form, as the directory, a separator and the
    path. *)
Theorem clean_relative_path_accepted (cwd : ustring) (dsegs segs : list ustring) :
  dsegs <> [] -> segs <> [] ->
  Forall (fun s => Path.clean_segment s = true) (dsegs ++ segs) ->
  let dir : ustring := Path.SLASH :: Path.join [Path.SLASH] dsegs in
  let p : ustring := Path.join [Path.SLASH] segs in
  Files.getSafeFilePath cwd (inr dir) (Some (JStr p)) = inr (dir ++ Path.SLASH :: p).
Proof.
intros Hd Hs Hclean dir p.
assert (p <> [] /\ Path.isAbsolute p = false) as [Hp Hrel].
{ subst p. destruct segs as [|seg segs]; [done|].
  apply Forall_app in Hclean as [_ Hclean].
  inversion Hclean as [|? ? Hseg _]; subst.
  destruct seg as [|c seg]; [done|].
  apply clean_nosep in Hseg.
  unfold Path.nosep in Hseg. simpl in Hseg.
  apply andb_prop in Hseg as [Hc _]. apply negb_true_iff in Hc.
  destruct segs; simpl; by rewrite Hc. }
assert (Path.resolve cwd [dir; p] = dir ++ Path.SLASH :: p) as Hres.
{ rewrite resolve_relative by done.
  unfold Path.normalizeString.
  replace (dir ++ Path.SLASH :: p ++ [Path.SLASH])
    with (Path.SLASH :: Path.join [Path.SLASH] (dsegs ++ segs) ++ [Path.SLASH]).
  - rewrite normalize_normal; [|done|by destruct dsegs].
    subst dir p. simpl. by rewrite join_app.
  - subst dir p. simpl. rewrite join_app by done.
    by rewrite <- !app_assoc. }
rewrite getSafeFilePath_string, Hres by done.
replace (dir ++ Path.SLASH :: p) with ((dir ++ [Path.SLASH]) ++ p)
  by (by rewrite <- app_assoc).
by rewrite startsWith_prefix.
Qed.

(** ** Reading and saving a file *)

Lemma after_inv (pre l rest : list ustring) :
  Files.after pre l = Some rest -> l = pre ++ rest.
Proof.
revert l. induction pre as [|x pre IH]; intros l H.
- destruct l; simpl in H; by injection H as <-.
- destruct l as [|y l]; [done|]. simpl in H.
  destruct (ustring_eqb x y) eqn:E; [|done].
  apply ustring_eqb_eq in E as ->.
  by rewrite (IH l H).
Qed.

(** Characters without a separator, put at the end of a path, go to its
    last segment. *)
Lemma split_app_nosep (r y : ustring) :
  Path.nosep y = true ->
  exists init l,
    Path.split Path.SLASH r = init ++ [l]
    /\ Path.split Path.SLASH (r ++ y) = init ++ [l ++ y].
Proof.
intros Hy.
induction r as [|c r (init & l & Hr & Hry)].
- exists [], []. split; [done|]. simpl. by rewrite (split_one y Hy).
- simpl. rewrite Hr, Hry.
  destruct (c =? Path.SLASH)%N.
  + by exists ([] :: init), l.
  + destruct init as [|i init].
    * by exists [], (c :: l).
    * by exists ((c :: i) :: init), l.
Qed.

Lemma nosep_app (a b : ustring) :
  Path.nosep a = true -> Path.nosep b = true -> Path.nosep (a ++ b) = true.
Proof.
unfold Path.nosep. intros Ha Hb.
by rewrite forallb_app, Ha, Hb.
Qed.

Lemma clean_long (seg : ustring) :
  Path.nosep seg = true -> (3 <= length seg)%nat -> Path.clean_segment seg = true.
Proof.
intros Hsep Hlen.
destruct seg as [|a [|b [|c seg]]]; simpl in Hlen; try lia.
unfold Path.clean_segment. rewrite Hsep.
simpl. by rewrite !andb_false_r.
Qed.

Lemma inside_suffix (dir r y : ustring) :
  Files.inside dir r = true -> Path.nosep y = true -> (2 <= length y)%nat ->
  Files.inside dir (r ++ y) = true.
Proof.
unfold Files.inside. intros Hin Hy Hlen.
destruct (Files.after _ (Path.split Path.SLASH r)) as [[|seg segs]|] eqn:Hafter;
  try done.
apply after_inv in Hafter.
destruct (split_app_nosep r y Hy) as (init & l & Hr & Hry).
rewrite Hry.
assert (exists segs0, seg :: segs = segs0 ++ [l]
                      /\ init = Path.split Path.SLASH dir ++ segs0)
  as (segs0 & Hsegs & ->).
{ rewrite Hr in Hafter.
  destruct (exists_last (l := seg :: segs)) as (segs0 & l0 & E); [done|].
  rewrite E, app_assoc in Hafter.
  apply app_inj_tail in Hafter as [-> ->]. eauto. }
rewrite Hsegs in Hin.
rewrite <- app_assoc, after_app.
rewrite forallb_app in Hin. apply andb_prop in Hin as [Hsegs0 Hl].
simpl in Hl. rewrite andb_true_r in Hl.
assert (Path.clean_segment (l ++ y) = true) as Hclean.
{ apply clean_long.
  - apply nosep_app; [by apply clean_nosep|done].
  - rewrite length_app. destruct l; [done|]. simpl. lia. }
destruct segs0 as [|s0 segs0]; simpl.
- by rewrite Hclean.
- simpl in Hsegs0. apply andb_prop in Hsegs0 as [-> Hsegs0].
  simpl. by rewrite forallb_app, Hsegs0; simpl; rewrite Hclean.
Qed.

Lemma read_failure_bad_path :
  Files.read_failure Files.bad_path
  = {| Files.status := 500; Files.answer := Files.BError (units "Invalid file path provided.") |}.
Proof. by vm_compute. Qed.

Lemma save_failure_bad_path :
  Files.save_failure Files.bad_path
  = {| Files.status := 500; Files.answer := Files.BError (units "Invalid file path provided.") |}.
Proof. by vm_compute. Qed.

Lemma read_failure_denied :
  Files.read_failure Files.denied
  = {| Files.status := 403; Files.answer := Files.BError (units "Permission denied") |}.
Proof. by vm_compute. Qed.

Lemma save_failure_denied :
  Files.save_failure Files.denied
  = {| Files.status := 403; Files.answer := Files.BError (units "Permission denied") |}.
Proof. by vm_compute. Qed.


(** X18. Whatever is asked for, a read touches only files inside the
    project directory. *)
Theorem read_touches_only_project (cwd : ustring) (fs : Files.fs_env)
    (dir : ustring) (filePath : jsval) :
  Path.isAbsolute dir = true ->
  Forall (fun op => Forall (fun q => Files.inside dir q = true) (Files.op_paths op))
    (Files.read_file cwd fs (inr dir) filePath).1.2.
Proof.
intros Hdir. unfold Files.read_file.
destruct (Files.getSafeFilePath cwd (inr dir) filePath) as [e|r] eqn:Hsafe;
  [by constructor|].
destruct (safe_path_shape cwd dir filePath r Hdir Hsafe)
  as (dsegs & segs & Hclean & Hne & Hd & Hr & _ & _).
pose proof (inside_after dir r dsegs segs Hclean Hne Hd Hr) as Hin.
destruct (Files.readFile fs r); simpl; repeat constructor; done.
Qed.

(** X19. Whatever is asked for, a save tests, copies and writes only files
    inside the project directory, the backup included. *)
Theorem save_touches_only_project (cwd : ustring) (fs : Files.fs_env)
    (dir : ustring) (filePath content : jsval) :
  Path.isAbsolute dir = true ->
  Path.nosep (Files.now fs) = true ->
  Forall (fun op => Forall (fun q => Files.inside dir q = true) (Files.op_paths op))
    (Files.save_file cwd fs (inr dir) filePath content).1.2.
Proof.
intros Hdir Hnow. unfold Files.save_file.
destruct (Files.getSafeFilePath cwd (inr dir) filePath) as [e|r] eqn:Hsafe;
  [by constructor|].
destruct (safe_path_shape cwd dir filePath r Hdir Hsafe)
  as (dsegs & segs & Hclean & Hne & Hd & Hr & _ & _).
pose proof (inside_after dir r dsegs segs Hclean Hne Hd Hr) as Hin.
destruct content as [content|]; [|by constructor].
assert (Files.inside dir (r ++ units ".backup." ++ Files.now fs) = true) as Hbackup.
{ apply inside_suffix; [done| |].
  - apply nosep_app; [by vm_compute|done].
  - rewrite length_app. simpl. lia. }
destruct (Files.existsSync fs r);
  [destruct (Files.copyFile fs r _)|];
  destruct (Files.writeFile fs r content); simpl; repeat constructor; done.
Qed.

Lemma handler_invalid_path (cwd : ustring) (fs : Files.fs_env)
    (lookup : Files.error + ustring) (filePath content : jsval) :
  (forall c s, filePath <> Some (JStr (c :: s))) ->
  let refusal := {| Files.status := 500;
                    Files.answer := Files.BError (units "Invalid file path provided.") |} in
  (Files.read_file cwd fs lookup filePath).1 = (refusal, [])
  /\ (Files.save_file cwd fs lookup filePath content).1 = (refusal, []).
Proof.
intros Hbad refusal.
assert (Files.getSafeFilePath cwd lookup filePath = inl Files.bad_path) as Hsafe.
{ unfold Files.getSafeFilePath.
  destruct filePath as [[| | |[|c s]| |]|]; try done.
  by destruct (Hbad c s). }
unfold Files.read_file, Files.save_file. rewrite Hsafe.
by rewrite read_failure_bad_path, save_failure_bad_path.
Qed.

Lemma read_route_handler (cwd : ustring) (fs : Files.fs_env) (body isAuthenticated : jsval)
    (lookup : Files.error + ustring) (filePath : jsval) :
  truthy isAuthenticated = true ->
  Files.read_route cwd fs (inr body) isAuthenticated lookup filePath
  = (Express.Answered (Files.read_file cwd fs lookup filePath).1.1,
     (Files.read_file cwd fs lookup filePath).1.2).
Proof.
intros Hauth. unfold Files.read_route. rewrite Hauth.
by destruct (Files.read_file cwd fs lookup filePath) as [[r ops] l].
Qed.

Lemma save_route_handler (cwd : ustring) (fs : Files.fs_env) (d : json)
    (isAuthenticated : jsval) (lookup : Files.error + ustring) :
  truthy isAuthenticated = true ->
  d <> JNull ->
  let handled :=
    Files.save_file cwd fs lookup (prop d "filePath") (prop d "content") in
  Files.save_route cwd fs (inr (Some d)) isAuthenticated lookup
  = (Express.Answered handled.1.1, handled.1.2).
Proof.
intros Hauth Hd handled. unfold Files.save_route. rewrite Hauth.
subst handled.
destruct (Files.save_file cwd fs lookup _ _) as [[r ops] l].
by destruct d.
Qed.

(** X20. A request with an authenticated session and a body the parser
    let through, whose path is missing, empty or not a string, is
    answered with status 500 and [Invalid file path provided.] before
    the project is looked up or any file is touched: on the route that
    reads, where the path is in the query, and on the route that saves,
    where it is in the body. *)
Theorem invalid_path_answered_500 (cwd : ustring) (fs : Files.fs_env)
    (body isAuthenticated : jsval) (d : json)
    (lookup : Files.error + ustring) (filePath : jsval) :
  truthy isAuthenticated = true ->
  (forall c s, filePath <> Some (JStr (c :: s))) ->
  d <> JNull ->
  prop d "filePath" = filePath ->
  let refusal := {| Files.status := 500;
                    Files.answer := Files.BError (units "Invalid file path provided.") |} in
  Files.read_route cwd fs (inr body) isAuthenticated lookup filePath
  = (Express.Answered refusal, [])
  /\ Files.save_route cwd fs (inr (Some d)) isAuthenticated lookup
     = (Express.Answered refusal, []).
Proof.
intros Hauth Hbad Hd Hpath refusal.
destruct (handler_invalid_path cwd fs lookup filePath (prop d "content") Hbad)
  as [Hread Hsave].
rewrite read_route_handler, save_route_handler by done.
rewrite Hpath.
destruct (Files.read_file cwd fs lookup filePath) as [[r1 ops1] l1].
destruct (Files.save_file cwd fs lookup filePath _) as [[r2 ops2] l2].
simpl in *. by injection Hread as -> ->; injection Hsave as -> ->.
Qed.

Lemma handler_escaping_path (cwd : ustring) (fs : Files.fs_env)
    (dir path : ustring) (content : jsval) :
  Path.isAbsolute dir = true ->
  path <> [] ->
  Files.inside dir (Path.resolve cwd [dir; path]) = false ->
  let refusal := {| Files.status := 403;
                    Files.answer := Files.BError (units "Permission denied") |} in
  (Files.read_file cwd fs (inr dir) (Some (JStr path))).1 = (refusal, [])
  /\ (Files.save_file cwd fs (inr dir) (Some (JStr path)) content).1 = (refusal, []).
Proof.
intros Hdir Hpath Hout refusal.
assert (Files.getSafeFilePath cwd (inr dir) (Some (JStr path)) = inl Files.denied)
  as Hsafe.
{ destruct (Files.getSafeFilePath cwd (inr dir) (Some (JStr path))) as [e|r] eqn:E.
  - rewrite getSafeFilePath_string in E by done.
    destruct (negb _); [by injection E as <-|done].
  - destruct (safe_path_shape cwd dir _ r Hdir E)
      as (dsegs & segs & Hclean & Hne & Hd & Hr & _ & _).
    pose proof (inside_after dir r dsegs segs Hclean Hne Hd Hr) as Hin.
    rewrite getSafeFilePath_string in E by done.
    destruct (negb _); [done|]. injection E as <-.
    by rewrite Hin in Hout. }
unfold Files.read_file, Files.save_file. rewrite Hsafe.
by rewrite read_failure_denied, save_failure_denied.
Qed.

(** X21. A request with an authenticated session and a body the parser
    let through, whose path leads out of the project directory, is
    answered with status 403 and [Permission denied], and no file is
    touched: on the route that reads and on the route that saves. *)
Theorem escaping_path_answered_403 (cwd : ustring) (fs : Files.fs_env)
    (body isAuthenticated : jsval) (d : json) (dir path : ustring) :
  truthy isAuthenticated = true ->
  Path.isAbsolute dir = true ->
  path <> [] ->
  Files.inside dir (Path.resolve cwd [dir; path]) = false ->
  prop d "filePath" = Some (JStr path) ->
  let refusal := {| Files.status := 403;
                    Files.answer := Files.BError (units "Permission denied") |} in
  Files.read_route cwd fs (inr body) isAuthenticated (inr dir) (Some (JStr path))
  = (Express.Answered refusal, [])
  /\ Files.save_route cwd fs (inr (Some d)) isAuthenticated (inr dir)
     = (Express.Answered refusal, []).
Proof.
intros Hauth Hdir Hne Hout Hpath refusal.
destruct (handler_escaping_path cwd fs dir path (prop d "content") Hdir Hne Hout)
  as [Hread Hsave].
assert (d <> JNull) as Hd by (intros ->; discriminate).
rewrite read_route_handler, save_route_handler by done.
rewrite Hpath.
destruct (Files.read_file cwd fs (inr dir) _) as [[r1 ops1] l1].
destruct (Files.save_file cwd fs (inr dir) _ _) as [[r2 ops2] l2].
simpl in *. by injection Hread as -> ->; injection Hsave as -> ->.
Qed.



(** X23. Whether the backup copy succeeds or fails changes neither the
    answer of a save nor what it does to the file system. *)
Theorem backup_failure_ignored (cwd : ustring)
    (read : ustring -> Files.error + ustring) (exist : ustring -> bool)
    (copy copy' : ustring -> ustring -> option Files.error)
    (write : ustring -> json -> option Files.error) (now : ustring)
    (lookup : Files.error + ustring) (filePath content : jsval) :
  (Files.save_file cwd
     {| Files.readFile := read; Files.existsSync := exist; Files.copyFile := copy;
        Files.writeFile := write; Files.now := now |} lookup filePath content).1
  = (Files.save_file cwd
     {| Files.readFile := read; Files.existsSync := exist; Files.copyFile := copy';
        Files.writeFile := write; Files.now := now |} lookup filePath content).1.
Proof.
unfold Files.save_file.
destruct (Files.getSafeFilePath cwd lookup filePath) as [e|r]; [done|].
destruct content as [content|]; [|done].
simpl.
destruct (exist r); [|done].
destruct (copy r _), (copy' r _); by destruct (write r content).
Qed.

(** A save that touches the file system ends with its one write, of
    the content it was given to the path that was accepted; nothing is
    written before the test for the file and the backup copy. *)
Theorem backup_precedes_single_write (cwd : ustring) (fs : Files.fs_env)
    (lookup : Files.error + ustring) (filePath content : jsval) :
  let ops := (Files.save_file cwd fs lookup filePath content).1.2 in
  ops = []
  \/ exists r c before,
       Files.getSafeFilePath cwd lookup filePath = inr r
       /\ content = Some c
       /\ ops = before ++ [Files.OpWrite r c]
       /\ (before = [Files.OpExists r]
           \/ before = [Files.OpExists r;
                        Files.OpCopy r (r ++ units ".backup." ++ Files.now fs)]).
Proof.
unfold Files.save_file.
destruct (Files.getSafeFilePath cwd lookup filePath) as [e|r]; [by left|].
destruct content as [c|]; [|by left].
right. exists r, c.
destruct (Files.existsSync fs r).
- exists [Files.OpExists r; Files.OpCopy r (r ++ units ".backup." ++ Files.now fs)].
  destruct (Files.copyFile fs r _), (Files.writeFile fs r c); simpl; auto.
- exists [Files.OpExists r].
  destruct (Files.writeFile fs r c); simpl; auto.
Qed.

(** ** The further theorems on concrete runs *)

Lemma no_orphan_when_conforming_witness :
  exited (do_kill Sample.first_process) = true
  \/ kills (do_kill Sample.first_process) = 1.
Proof.
  refine (no_orphan_when_conforming Sample.parse Sample.to_string Sample.cwd
            ChatSample.shell_closed 0 (do_kill Sample.first_process)
            {| url := units "/shell"; ready := CLOSED; handler := Some Shell |}
            _ _ _ _).
  - vm_compute. reflexivity.
  - vm_compute. reflexivity.
  - vm_compute. reflexivity.
  - reflexivity.
Defined.


Lemma reference_holds_own_running_process_witness :
  exists pr, procs Sample.shell_running !! 0 = Some pr
             /\ owner pr = 0 /\ exited pr = false.
Proof.
  refine (reference_holds_own_running_process Sample.parse Sample.to_string Sample.cwd
            [EvUpgrade (Sample.authenticated "/shell");
             EvMessage 0 Sample.frame_init Sample.quiet] 0 0 _).
  vm_compute. reflexivity.
Defined.

Lemma process_signalled_once_on_close_witness :
  kills (do_kill Sample.first_process) <= 1.
Proof.
  refine (proj2 (process_signalled_once_on_close Sample.parse Sample.to_string
                   Sample.cwd ChatSample.shell_closed 0
                   (do_kill Sample.first_process) _)).
  vm_compute. reflexivity.
Defined.

Lemma other_connections_processes_untouched_witness :
  let st := Sample.run ChatSample.two_shells initial in
  procs (Sample.step (EvMessage 1 Sample.frame_init Sample.quiet) st) !! 0
  = Some Sample.first_process
  /\ procs (Sample.step (EvClose 1) st) !! 0 = Some Sample.first_process.
Proof.
  refine (other_connections_processes_untouched Sample.parse Sample.to_string
            Sample.cwd ChatSample.two_shells 1 Sample.frame_init Sample.quiet
            0 Sample.first_process _ _).
  - vm_compute. reflexivity.
  - simpl. lia.
Defined.

Lemma fanout_reaches_exactly_open_chats_witness :
  let m := MProjectsUpdated Sample.sample_projects (units "2025-01-01T00:00:00.000Z")
             (units "change") (units "app/session.jsonl") in
  let st' := Sample.step
               (EvProjectsChanged (units "change") (units "app/session.jsonl")
                  (units "2025-01-01T00:00:00.000Z") (inr Sample.sample_projects))
               Sample.two_chats in
  outbox st' 1 = outbox Sample.two_chats 1.
Proof.
  intros m st'. subst m st'.
  etransitivity.
  - refine (fanout_reaches_exactly_open_chats Sample.parse Sample.to_string Sample.cwd
              [EvUpgrade (Sample.authenticated "/ws");
               EvUpgrade (Sample.authenticated "/ws"); EvClosing 1]
              (units "change") (units "app/session.jsonl")
              (units "2025-01-01T00:00:00.000Z") Sample.sample_projects 1
              {| url := units "/ws"; ready := CLOSING; handler := Some Chat |} _).
    vm_compute. reflexivity.
  - reflexivity.
Defined.


Lemma process_exit_clears_reference_witness :
  shellProcess (Sample.step (EvProcExit 0 0%Z None) Sample.shell_running)
  = delete 0 (shellProcess Sample.shell_running).
Proof.
  refine (proj1
    (process_exit_clears_reference Sample.parse Sample.to_string Sample.cwd
       0 Sample.first_process 0%Z None Sample.shell_running _ _)).
  - vm_compute. reflexivity.
  - reflexivity.
Defined.

Lemma chat_abort_answered_witness :
  outbox (ChatSample.step (EvMessage 0 ChatSample.frame_abort ChatSample.aborting)
            ChatSample.chat_opened) 0
  = outbox ChatSample.chat_opened 0
    ++ [MSessionAborted (Some (JStr (units "s1"))) true].
Proof.
  refine (proj1
    (chat_abort_answered ChatSample.parse Sample.to_string Sample.cwd
       0 {| url := units "/ws"; ready := OPEN; handler := Some Chat |}
       ChatSample.frame_abort ChatSample.aborting
       (JObj [(units "type", JStr (units "abort-session"));
              (units "sessionId", JStr (units "s1"))])
       ChatSample.chat_opened _ _ _ _ _)).
  - vm_compute. reflexivity.
  - reflexivity.
  - reflexivity.
  - vm_compute. reflexivity.
  - vm_compute. reflexivity.
Defined.

Lemma null_message_reported_witness :
  outbox (ChatSample.step (EvMessage 0 ChatSample.frame_null Sample.quiet)
            ChatSample.chat_opened) 0
  = outbox ChatSample.chat_opened 0 ++ [MError null_type_error].
Proof.
  refine (proj1 (proj2
    (null_message_reported ChatSample.parse Sample.to_string Sample.cwd
       0 {| url := units "/ws"; ready := OPEN; handler := Some Chat |}
       ChatSample.frame_null Sample.quiet ChatSample.chat_opened _ _ _)) _).
  - vm_compute. reflexivity.
  - reflexivity.
  - vm_compute. reflexivity.
  - reflexivity.
Defined.

Lemma unknown_type_ignored_witness :
  ChatSample.step (EvMessage 0 ChatSample.frame_ping Sample.quiet)
    ChatSample.chat_opened
  = ChatSample.chat_opened.
Proof.
  refine (proj2
    (unknown_type_ignored ChatSample.parse Sample.to_string Sample.cwd
       0 {| url := units "/ws"; ready := OPEN; handler := Some Chat |}
       ChatSample.frame_ping Sample.quiet
       (JObj [(units "type", JStr (units "ping"))])
       ChatSample.chat_opened _ _ _ _) _ _ _).
  - vm_compute. reflexivity.
  - reflexivity.
  - vm_compute. reflexivity.
  - discriminate.
  - reflexivity.
  - vm_compute. reflexivity.
  - vm_compute. reflexivity.
Defined.

Lemma chunks_delivered_in_order_witness :
  let chunks := [units "one"; units "two"] in
  outbox (Sample.run (map (EvProcData 0) chunks) Sample.shell_running) 0
  = outbox Sample.shell_running 0 ++ concat (map onData_frames chunks).
Proof.
  refine (proj1
    (chunks_delivered_in_order Sample.parse Sample.to_string Sample.cwd
       0 Sample.first_process [units "one"; units "two"] Sample.shell_running
       _ _ _)).
  - vm_compute. reflexivity.
  - reflexivity.
  - vm_compute. reflexivity.
Defined.

Lemma safe_path_inside_project_witness :
  Files.inside FileSample.dir (units "/home/u/app/lib/a.js") = true.
Proof.
  refine (safe_path_inside_project FileSample.cwd FileSample.dir
            (Some (JStr (units "src/../lib/./a.js")))
            (units "/home/u/app/lib/a.js") _ _).
  - reflexivity.
  - vm_compute. reflexivity.
Defined.

Lemma safe_path_fixpoint_witness :
  Files.getSafeFilePath FileSample.cwd (inr FileSample.dir)
    (Some (JStr (units "/home/u/app/lib/a.js")))
  = inr (units "/home/u/app/lib/a.js").
Proof.
  refine (safe_path_fixpoint FileSample.cwd FileSample.dir
            (Some (JStr (units "src/../lib/./a.js")))
            (units "/home/u/app/lib/a.js") _ _).
  - reflexivity.
  - vm_compute. reflexivity.
Defined.

Lemma project_directory_must_be_normal_witness :
  Path.resolve FileSample.cwd [FileSample.dir] = FileSample.dir.
Proof.
  refine (project_directory_must_be_normal FileSample.cwd FileSample.dir
            (Some (JStr (units "src/../lib/./a.js")))
            (units "/home/u/app/lib/a.js") _ _).
  - reflexivity.
  - vm_compute. reflexivity.
Defined.

Lemma clean_relative_path_accepted_witness :
  let dsegs := [units "home"; units "u"; units "app"] in
  let segs := [units "src"; units "a.js"] in
  let dir : ustring := Path.SLASH :: Path.join [Path.SLASH] dsegs in
  let p : ustring := Path.join [Path.SLASH] segs in
  Files.getSafeFilePath FileSample.cwd (inr dir) (Some (JStr p))
  = inr (dir ++ Path.SLASH :: p).
Proof.
  refine (clean_relative_path_accepted FileSample.cwd
            [units "home"; units "u"; units "app"] [units "src"; units "a.js"]
            _ _ _).
  - discriminate.
  - discriminate.
  - refine (bool_decide_unpack _ _). vm_compute. exact I.
Defined.

Lemma read_touches_only_project_witness :
  Forall (fun op => Forall (fun q => Files.inside FileSample.dir q = true)
                      (Files.op_paths op))
    (Files.read_file FileSample.cwd FileSample.fs (inr FileSample.dir)
       (Some (JStr (units "src/../lib/./a.js")))).1.2.
Proof.
  refine (read_touches_only_project FileSample.cwd FileSample.fs FileSample.dir
            (Some (JStr (units "src/../lib/./a.js"))) _).
  reflexivity.
Defined.

Lemma save_touches_only_project_witness :
  Forall (fun op => Forall (fun q => Files.inside FileSample.dir q = true)
                      (Files.op_paths op))
    (Files.save_file FileSample.cwd FileSample.fs (inr FileSample.dir)
       (Some (JStr (units "src/../lib/./a.js"))) (Some (JStr (units "new text")))).1.2.
Proof.
  refine (save_touches_only_project FileSample.cwd FileSample.fs FileSample.dir
            (Some (JStr (units "src/../lib/./a.js")))
            (Some (JStr (units "new text"))) _ _).
  - reflexivity.
  - vm_compute. reflexivity.
Defined.

Lemma invalid_path_answered_500_witness :
  let refusal := {| Files.status := 500;
                    Files.answer := Files.BError (units "Invalid file path provided.") |} in
  Files.read_route FileSample.cwd FileSample.fs (inr None) (Some (JBool true))
    (inr FileSample.dir) (Some (JArr [JStr (units "a.js")]))
  = (Express.Answered refusal, [])
  /\ Files.save_route FileSample.cwd FileSample.fs
       (inr (Some (JObj [(units "filePath", JArr [JStr (units "a.js")]);
                         (units "content", JStr (units "new text"))])))
       (Some (JBool true)) (inr FileSample.dir)
     = (Express.Answered refusal, []).
Proof.
  refine (invalid_path_answered_500 FileSample.cwd FileSample.fs None
            (Some (JBool true))
            (JObj [(units "filePath", JArr [JStr (units "a.js")]);
                   (units "content", JStr (units "new text"))])
            (inr FileSample.dir) (Some (JArr [JStr (units "a.js")])) _ _ _ _).
  - reflexivity.
  - intros c s. discriminate.
  - discriminate.
  - vm_compute. reflexivity.
Defined.

Lemma escaping_path_answered_403_witness :
  let refusal := {| Files.status := 403;
                    Files.answer := Files.BError (units "Permission denied") |} in
  Files.read_route FileSample.cwd FileSample.fs (inr None) (Some (JBool true))
    (inr FileSample.dir) (Some (JStr (units "src/../../../../etc/passwd")))
  = (Express.Answered refusal, [])
  /\ Files.save_route FileSample.cwd FileSample.fs
       (inr (Some (JObj [(units "filePath", JStr (units "src/../../../../etc/passwd"));
                         (units "content", JStr (units "new text"))])))
       (Some (JBool true)) (inr FileSample.dir)
     = (Express.Answered refusal, []).
Proof.
  refine (escaping_path_answered_403 FileSample.cwd FileSample.fs None
            (Some (JBool true))
            (JObj [(units "filePath", JStr (units "src/../../../../etc/passwd"));
                   (units "content", JStr (units "new text"))])
            FileSample.dir (units "src/../../../../etc/passwd") _ _ _ _ _).
  - reflexivity.
  - reflexivity.
  - vm_compute. discriminate.
  - vm_compute. reflexivity.
  - vm_compute. reflexivity.
Defined.

(** ** Logging in *)

Lemma ustring_eqb_true (a b : ustring) : ustring_eqb a b = true <-> a = b.
Proof.
split; [apply ustring_eqb_eq|].
intros ->. apply ustring_eqb_refl.
Qed.

Ltac login_case :=
  simpl; repeat split; try done;
  try (intros (? & ? & ? & ? & ? & ? & ? & ? & ?); simplify_eq; done);
  try (intros [= H]; vm_compute in H; discriminate).

(** The handler of the login route, case by case. *)
Lemma login_handler_cases (Buffer_from : json -> option Auth.bytes)
    (appPassword : option ustring) (password isAuthenticated : jsval) :
  let r := Auth.login Buffer_from appPassword password isAuthenticated in
  (Auth.login_status r.1 = 200
   <-> exists app pw b,
         appPassword = Some app /\ app <> []
         /\ password = Some pw /\ truthy password = true
         /\ Buffer_from pw = Some b /\ Buffer_from (JStr app) = Some b)
  /\ (Auth.login_status r.1 = 200 -> r = ({| Auth.login_status := 200;
                                             Auth.login_answer := Auth.Success |},
                                          Some (JBool true)))
  /\ (Auth.login_status r.1 <> 200 -> r.2 = isAuthenticated)
  /\ (Auth.login_answer r.1
        = Auth.Failure (units "An error occurred during authentication.")
      -> exists pw, password = Some pw
           /\ (Buffer_from pw = None
               \/ exists app, appPassword = Some app /\ Buffer_from (JStr app) = None)).
Proof.
unfold Auth.login.
destruct appPassword as [[|c app]|].
1, 3: by login_case.
destruct password as [pw|]; [|by login_case].
destruct (truthy (Some pw)) eqn:Htruthy; [|by login_case].
destruct (Buffer_from pw) as [pb|] eqn:Hpb.
2: { login_case. intros _. eauto. }
destruct (Buffer_from (JStr (c :: app))) as [ab|] eqn:Hab.
2: { login_case. intros _. eauto 10. }
unfold Auth.timingSafeEqual.
destruct (length pb =? length ab) eqn:Hlen.
2: { login_case.
     intros (? & ? & b & ? & _ & ? & _ & ? & ?). simplify_eq.
     by rewrite Nat.eqb_refl in Hlen. }
destruct (ustring_eqb pb ab) eqn:Heq.
- apply ustring_eqb_eq in Heq as ->.
  login_case. intros _. exists (c :: app), pw, ab. eauto 10.
- login_case.
  intros (? & ? & b & ? & _ & ? & _ & ? & ?). simplify_eq.
  by rewrite ustring_eqb_refl in Heq.
Qed.

(** X24. The login route grants a login (status 200, success) exactly
    when the parser let the body through, the limiter has counted fewer
    than ten requests of the address in its window, a password is
    configured and the bytes of the password sent are those of the
    configured one.  Only then is the flag of the session set; every
    other answer leaves it as it was, and from the tenth counted
    request on the answer is status 429 whatever the password. *)
Theorem login_granted_iff_same_bytes (Buffer_from : json -> option Auth.bytes)
    (body : Express.body) (hits : nat) (appPassword : option ustring)
    (isAuthenticated : jsval) :
  let r := Auth.login_route Buffer_from body hits appPassword isAuthenticated in
  let granted :=
    Express.Answered {| Auth.login_status := 200; Auth.login_answer := Auth.Success |} in
  (r.1 = granted
   <-> exists d app pw b,
         body = inr (Some d) /\ hits < 10
         /\ appPassword = Some app /\ app <> []
         /\ prop d "password" = Some pw /\ truthy (Some pw) = true
         /\ Buffer_from pw = Some b /\ Buffer_from (JStr app) = Some b)
  /\ (forall x, r.1 = Express.Answered x -> Auth.login_status x = 200 -> r.1 = granted)
  /\ (r.1 = granted -> r.2 = Some (JBool true))
  /\ (r.1 <> granted -> r.2 = isAuthenticated)
  /\ (forall data, body = inr data -> 10 <= hits ->
        r.1 = Express.Answered
                {| Auth.login_status := 429;
                   Auth.login_answer :=
                     Auth.Failure
                       (units "Too many login attempts. Please try again later.") |}).
Proof.
intros r granted. subst r granted. unfold Auth.login_route.
destruct body as [n|data].
{ simpl. split; [|done].
  split; [done|]. by intros (? & ? & ? & ? & ? & _). }
destruct (10 <=? hits) eqn:Hhits.
{ apply Nat.leb_le in Hhits. simpl.
  split; [|split; [|split; [|split]]]; try done.
  - split; [done|]. intros (? & ? & ? & ? & _ & ? & _). lia.
  - intros x [= <-]. by vm_compute. }
apply Nat.leb_gt in Hhits.
assert (forall d, data = Some d -> d <> JNull ->
          (let '(r, flag) :=
             Auth.login Buffer_from appPassword (prop d "password") isAuthenticated in
           (Express.Answered r, flag))
          = (Express.Answered
               (Auth.login Buffer_from appPassword (prop d "password")
                  isAuthenticated).1,
             (Auth.login Buffer_from appPassword (prop d "password")
                isAuthenticated).2)) as Hpair.
{ intros d _ _. by destruct (Auth.login _ _ _ _). }
destruct data as [d|].
2: { simpl. split; [|split; [|split; [|split]]]; try done; try (intros; lia).
     split; [done|]. by intros (? & ? & ? & ? & ? & _). }
assert (d = JNull \/ d <> JNull) as [->|Hd] by (destruct d; [by left|by right..]).
{ simpl. split; [|split; [|split; [|split]]]; try done; try (intros; lia).
  split; [done|]. by intros (? & ? & ? & ? & [= <-] & _ & _ & _ & ? & _). }
assert ((match d with
         | JNull => (Express.Refused 500, isAuthenticated)
         | _ => let '(r, flag) :=
                  Auth.login Buffer_from appPassword (prop d "password")
                    isAuthenticated in
                (Express.Answered r, flag)
         end)
        = (let '(r, flag) :=
             Auth.login Buffer_from appPassword (prop d "password") isAuthenticated in
           (Express.Answered r, flag))) as -> by (by destruct d).
rewrite (Hpair d eq_refl Hd). clear Hpair. simpl.
destruct (login_handler_cases Buffer_from appPassword (prop d "password")
            isAuthenticated) as (Hiff & Hok & Hno & _).
cbv zeta in Hiff, Hok, Hno.
set (h := Auth.login Buffer_from appPassword (prop d "password") isAuthenticated) in *.
split; [|split; [|split; [|split]]].
- split.
  + intros [= Hh]. assert (Auth.login_status h.1 = 200) as H200 by (by rewrite Hh).
    apply Hiff in H200 as (app & pw & b & ? & ? & Hpw & Ht & ? & ?).
    exists d, app, pw, b. rewrite Hpw in Ht. eauto 10.
  + intros (d' & app & pw & b & [= <-] & _ & ? & ? & Hpw & Ht & ? & ?).
    assert (Auth.login_status h.1 = 200) as H200.
    { apply Hiff. exists app, pw, b. rewrite Hpw. eauto 10. }
    by rewrite (Hok H200).
- intros x [= <-] H200. by rewrite (Hok H200).
- intros [= Hh]. assert (Auth.login_status h.1 = 200) as H200 by (by rewrite Hh).
  by rewrite (Hok H200).
- intros Hne. apply Hno. intros H200. apply Hne. by rewrite (Hok H200).
- intros; lia.
Qed.

(** ** The environment file *)









Lemma unset_set (e : Env.env) (k v : ustring) :
  e !! k = Some v -> v <> [] -> Env.unset e k = false.
Proof.
intros H Hv. unfold Env.unset. rewrite H. by destruct v.
Qed.

Lemma load_line_keeps (e : Env.env) (line k v : ustring) :
  e !! k = Some v -> v <> [] -> Env.load_line e line !! k = Some v.
Proof.
intros Hk Hv. unfold Env.load_line.
destruct (Env.trim line) as [|c t]; [done|].
destruct (startsWith _ _); [done|].
destruct (Path.split Env.EQUALS (c :: t)) as [|key [|part parts]]; [done| |].
- by destruct key.
- destruct key as [|k0 key]; [done|].
  destruct (Env.unset e (k0 :: key)) eqn:Hunset; [|done].
  destruct (decide (k = k0 :: key)) as [->|Hne].
  + pose proof (unset_set e _ v Hk Hv) as Hset. congruence.
  + etransitivity; [apply lookup_insert_ne; congruence|exact Hk].
Qed.

Lemma load_lines_keep (lines : list ustring) (e : Env.env) (k v : ustring) :
  e !! k = Some v -> v <> [] ->
  fold_left Env.load_line lines e !! k = Some v.
Proof.
revert e. induction lines as [|line lines IH]; intros e Hk Hv; [done|].
simpl. apply IH; [|done]. by apply load_line_keeps.
Qed.

(** X25. A variable that is set, and not to the empty string, keeps its
    value whatever the file holds. *)
Theorem env_set_variables_kept (envFile : option ustring) (e : Env.env)
    (k v : ustring) :
  e !! k = Some v -> v <> [] -> Env.load envFile e !! k = Some v.
Proof.
intros Hk Hv. destruct envFile as [f|]; [|done].
by apply load_lines_keep.
Qed.




(** ** The file tree *)

Lemma sort_insert_perm {A} (cmp : A -> A -> Z) (x : A) (l : list A) :
  Tree.sort_insert cmp x l ≡ₚ x :: l.
Proof.
induction l as [|y l IH]; [done|].
simpl. destruct (cmp x y <=? 0)%Z; [done|].
rewrite IH. apply Permutation_swap.
Qed.

(** The sort loses and adds nothing. *)
Lemma sort_perm {A} (cmp : A -> A -> Z) (l : list A) : Tree.sort cmp l ≡ₚ l.
Proof.
induction l as [|x l IH]; [done|].
simpl. by rewrite sort_insert_perm, IH.
Qed.

Lemma forallb_perm {A} (p : A -> bool) (l l' : list A) :
  l ≡ₚ l' -> forallb p l = forallb p l'.
Proof.
induction 1 as [|x l l' _ IH|x y l|l l' l'' _ IH1 _ IH2]; simpl.
- done.
- by rewrite IH.
- by rewrite !andb_assoc, (andb_comm (p y)).
- by rewrite IH1.
Qed.

Lemma forallb_flat_map {A B} (p : B -> bool) (f : A -> list B) (l : list A) :
  (forall a, forallb p (f a) = true) -> forallb p (flat_map f l) = true.
Proof.
intros H. induction l as [|a l IH]; [done|].
simpl. by rewrite forallb_app, H, IH.
Qed.

Section TreeProperties.

Variable readdir : ustring -> option (list Tree.dirent).
Variable access : ustring -> bool.
Variable localeCompare : ustring -> ustring -> Z.

Local Notation getFileTree_rec := (Tree.getFileTree_rec readdir access localeCompare).
Local Notation getFileTree := (Tree.getFileTree readdir access localeCompare).
Local Notation compare := (Tree.compare localeCompare).

Lemma tree_rec_everywhere (p : Tree.item -> bool) (fuel : nat) :
  (forall n q t, Tree.skipped n = false -> p (Tree.Item n q t None) = true) ->
  (forall n q t l, Tree.skipped n = false -> p (Tree.Item n q t (Some l)) = true) ->
  forall dirPath maxDepth currentDepth,
    forallb (Tree.everywhere p) (getFileTree_rec fuel dirPath maxDepth currentDepth)
    = true.
Proof.
intros Hleaf Hnode.
induction fuel as [|fuel IH]; intros dirPath maxDepth currentDepth; [done|].
simpl. rewrite (forallb_perm _ _ _ (sort_perm _ _)).
destruct (readdir dirPath) as [entries|]; [|done].
apply forallb_flat_map. intros entry.
destruct (Tree.skipped (Tree.d_name entry)) eqn:Hskip; [done|].
simpl. rewrite andb_true_r.
destruct (Tree.isDirectory entry && (currentDepth <? maxDepth)).
- rewrite Hnode by done. simpl.
  destruct (access _); [apply IH|done].
- by rewrite Hleaf.
Qed.

(** X27. Nothing named [node_modules], [dist] or [build] is in the tree, at
    any depth. *)
Theorem tree_omits_build_directories (dirPath : ustring)
    (maxDepth currentDepth : nat) :
  forallb (Tree.everywhere (fun i => negb (Tree.skipped (Tree.name i))))
    (getFileTree dirPath maxDepth currentDepth) = true.
Proof.
apply tree_rec_everywhere; intros; simpl; by apply negb_true_iff.
Qed.

Lemma forallb_sort_insert {A} (cmp : A -> A -> Z) (p : A -> bool) (x : A)
    (l : list A) :
  forallb p (Tree.sort_insert cmp x l) = p x && forallb p l.
Proof.
apply (forallb_perm p _ (x :: l)), sort_insert_perm.
Qed.

Lemma compare_file (x y : Tree.item) :
  Tree.is_directory x = false -> (compare x y <=? 0)%Z = true ->
  Tree.is_directory y = false.
Proof.
unfold Tree.is_directory, Tree.compare.
by destruct (Tree.type x), (Tree.type y).
Qed.

Lemma compare_directory (x y : Tree.item) :
  Tree.is_directory y = false -> (compare x y <=? 0)%Z = false ->
  Tree.is_directory x = false.
Proof.
unfold Tree.is_directory, Tree.compare.
by destruct (Tree.type x), (Tree.type y).
Qed.

Lemma directories_first_insert (x : Tree.item) (l : list Tree.item) :
  Tree.directories_first l = true ->
  Tree.directories_first (Tree.sort_insert compare x l) = true.
Proof.
induction l as [|y l IH]; intros Hl.
- simpl. by rewrite orb_true_r.
- simpl in Hl. apply andb_prop in Hl as [Hy Hl].
  simpl. destruct (compare x y <=? 0)%Z eqn:Hcmp.
  + simpl. rewrite Hy, Hl, !andb_true_r.
    destruct (Tree.is_directory x) eqn:Hx; [done|].
    pose proof (compare_file x y Hx Hcmp) as Hfile.
    rewrite Hfile in Hy |- *. simpl in Hy |- *. done.
  + simpl. rewrite (IH Hl), andb_true_r.
    destruct (Tree.is_directory y) eqn:Hdir; [done|].
    simpl in Hy |- *.
    rewrite forallb_sort_insert, Hy, andb_true_r.
    by rewrite (compare_directory x y Hdir Hcmp).
Qed.

Lemma directories_first_sort (l : list Tree.item) :
  Tree.directories_first (Tree.sort compare l) = true.
Proof.
induction l as [|x l IH]; [done|].
simpl. by apply directories_first_insert.
Qed.

Lemma tree_rec_every_level (fuel : nat) :
  forall dirPath maxDepth currentDepth,
    forallb (Tree.every_level Tree.directories_first)
      (getFileTree_rec fuel dirPath maxDepth currentDepth) = true.
Proof.
induction fuel as [|fuel IH]; intros dirPath maxDepth currentDepth; [done|].
simpl. rewrite (forallb_perm _ _ _ (sort_perm _ _)).
destruct (readdir dirPath) as [entries|]; [|done].
apply forallb_flat_map. intros entry.
destruct (Tree.skipped (Tree.d_name entry)); [done|].
simpl. rewrite andb_true_r.
destruct (Tree.isDirectory entry && (currentDepth <? maxDepth)); [|done].
simpl. destruct (access _); [|done].
rewrite IH, andb_true_r.
destruct fuel; [done|]. apply directories_first_sort.
Qed.

(** X28. At every level of the tree the directories stand before the files,
    however [localeCompare] orders the names. *)
Theorem tree_directories_first (dirPath : ustring) (maxDepth currentDepth : nat) :
  let tree := getFileTree dirPath maxDepth currentDepth in
  Tree.directories_first tree = true
  /\ forallb (Tree.every_level Tree.directories_first) tree = true.
Proof.
split; [apply directories_first_sort|apply tree_rec_every_level].
Qed.

Lemma depth_of_perm (l l' : list Tree.item) :
  l ≡ₚ l' -> Tree.depth_of l = Tree.depth_of l'.
Proof.
unfold Tree.depth_of.
induction 1 as [|x l l' _ IH|x y l|l l' l'' _ IH1 _ IH2]; simpl; lia.
Qed.

Lemma depth_of_flat_map {A} (f : A -> list Tree.item) (l : list A) (n : nat) :
  (forall a, Tree.depth_of (f a) <= n) -> Tree.depth_of (flat_map f l) <= n.
Proof.
intros H. induction l as [|a l IH]; simpl; [unfold Tree.depth_of; simpl; lia|].
specialize (H a). revert H IH. unfold Tree.depth_of.
generalize (flat_map f l). generalize (f a).
intros l1 l2. induction l1 as [|i l1 IH1]; simpl; [done|].
intros H1 H2. specialize (IH1 ltac:(lia) H2). lia.
Qed.

Lemma tree_rec_depth (fuel : nat) :
  forall dirPath maxDepth currentDepth,
    Tree.depth_of (getFileTree_rec fuel dirPath maxDepth currentDepth)
    <= S (maxDepth - currentDepth).
Proof.
induction fuel as [|fuel IH]; intros dirPath maxDepth currentDepth.
- unfold Tree.depth_of. simpl. lia.
- simpl. rewrite (depth_of_perm _ _ (sort_perm _ _)).
  destruct (readdir dirPath) as [entries|]; [|unfold Tree.depth_of; simpl; lia].
  apply depth_of_flat_map. intros entry.
  destruct (Tree.skipped (Tree.d_name entry)); [unfold Tree.depth_of; simpl; lia|].
  destruct (Tree.isDirectory entry); simpl; [|unfold Tree.depth_of; simpl; lia].
  destruct (currentDepth <? maxDepth) eqn:Hlt; [|unfold Tree.depth_of; simpl; lia].
  apply Nat.ltb_lt in Hlt.
  unfold Tree.depth_of. simpl.
  destruct (access _).
  + specialize (IH (Path.join_paths [dirPath; Tree.d_name entry]) maxDepth
                  (S currentDepth)).
    unfold Tree.depth_of in IH. lia.
  + simpl. lia.
Qed.

Lemma flat_map_ext' {A B} (f g : A -> list B) (l : list A) :
  (forall a, f a = g a) -> flat_map f l = flat_map g l.
Proof.
intros H. induction l as [|a l IH]; [done|].
simpl. by rewrite H, IH.
Qed.

Lemma tree_rec_fuel (fuel1 : nat) :
  forall fuel2 dirPath maxDepth currentDepth,
    maxDepth - currentDepth < fuel1 -> maxDepth - currentDepth < fuel2 ->
    getFileTree_rec fuel1 dirPath maxDepth currentDepth
    = getFileTree_rec fuel2 dirPath maxDepth currentDepth.
Proof.
induction fuel1 as [|fuel1 IH]; intros fuel2 dirPath maxDepth currentDepth H1 H2;
  [lia|].
destruct fuel2 as [|fuel2]; [lia|].
simpl. f_equal.
destruct (readdir dirPath) as [entries|]; [|done].
apply flat_map_ext'. intros entry.
destruct (Tree.skipped (Tree.d_name entry)); [done|].
destruct (Tree.isDirectory entry); [|done]. simpl.
destruct (currentDepth <? maxDepth) eqn:Hlt; [|done].
apply Nat.ltb_lt in Hlt.
destruct (access _); [|done].
rewrite (IH fuel2) by lia. done.
Qed.

(** X29. The tree has at most [maxDepth - currentDepth + 1] levels, and that
    many levels of recursion are all the function needs, so it
    returns. *)
Theorem tree_depth_bounded (dirPath : ustring) (maxDepth currentDepth : nat) :
  Tree.depth_of (getFileTree dirPath maxDepth currentDepth)
  <= S (maxDepth - currentDepth)
  /\ forall fuel, maxDepth - currentDepth < fuel ->
       getFileTree_rec fuel dirPath maxDepth currentDepth
       = getFileTree dirPath maxDepth currentDepth.
Proof.
split; [apply tree_rec_depth|].
intros fuel Hfuel. apply tree_rec_fuel; lia.
Qed.

(** X30. The listing of a directory that can be read holds its entries other
    than [node_modules], [dist] and [build], each once. *)
Theorem tree_lists_entries_once (dirPath : ustring) (maxDepth currentDepth : nat)
    (entries : list Tree.dirent) :
  readdir dirPath = Some entries ->
  map Tree.name (getFileTree dirPath maxDepth currentDepth)
  ≡ₚ filter (fun n => Tree.skipped n = false) (map Tree.d_name entries).
Proof.
intros Hread. unfold Tree.getFileTree. simpl.
rewrite sort_perm, Hread. clear Hread.
induction entries as [|entry entries IH]; [done|].
simpl. destruct (Tree.skipped (Tree.d_name entry)) eqn:Hskip.
- rewrite filter_cons_False by (by rewrite Hskip). apply IH.
- rewrite filter_cons_True by done. simpl. by rewrite IH.
Qed.

End TreeProperties.

(** ** The environment file and the file tree on concrete inputs *)

Lemma env_set_variables_kept_witness :
  Env.load (Some EnvSample.env_file) EnvSample.port_set !! units "PORT"
  = Some (units "3000").
Proof.
  refine (env_set_variables_kept (Some EnvSample.env_file) EnvSample.port_set
            (units "PORT") (units "3000") _ _).
  - vm_compute. reflexivity.
  - vm_compute. discriminate.
Defined.


Lemma tree_lists_entries_once_witness :
  map Tree.name
    (Tree.getFileTree TreeSample.readdir TreeSample.access TreeSample.localeCompare
       (units "/p") 3 0)
  ≡ₚ filter (fun n => Tree.skipped n = false)
       (map Tree.d_name
          [TreeSample.entry "b.txt" false; TreeSample.entry "src" true;
           TreeSample.entry "node_modules" true; TreeSample.entry "a.txt" false]).
Proof.
  refine (tree_lists_entries_once TreeSample.readdir TreeSample.access
            TreeSample.localeCompare (units "/p") 3 0 _ _).
  vm_compute. reflexivity.
Defined.
